(** * config-wizard: schema classification, reference resolution,
    key-path state store and the render/collect engine.

  A shallow embedding of [config_wizard/utils.py], [mapper.py], [schema.py],
  [backends/base.py] and the pure parts of [backends/streamlit.py], followed
  by the properties established about them. *)

From Stdlib Require Import String Ascii List ZArith Bool Lia Arith.
From Stdlib Require Import DecimalString DecimalN DecimalZ.
Import ListNotations.
Open Scope string_scope.
Set Warnings "-register-all".

(* ================================================================== *)
(** ** Python values, dictionaries and exceptions *)
(* ================================================================== *)

Module Py.

(** The values that travel through the wizard: JSON-like data.  A [dict]
    is an association list in insertion order, as Python iterates it.
    Fractional numbers are left out; tuples and sets behave like lists
    wherever the embedded code looks at them (it only asks
    [isinstance(v, dict)], [in] and subscripting).  A [str] is a string
    of characters below 256; where the code classifies characters
    (letters, digits, blanks) the embedding does so on the ASCII range,
    and the theorems that depend on it take ASCII strings. *)
Inductive Value : Type :=
| VNone
| VBool (b : bool)
| VInt (z : Z)
| VStr (s : string)
| VList (l : list Value)
| VDict (d : list (string * Value)).

Definition Dict := list (string * Value).

(** The exceptions the embedded code raises or lets through. *)
Inductive PyErr : Type :=
| TypeError
| AttributeError
| StopIteration
| RecursionError
| KeyError (msg : string)
| ValueError (msg : string)
| NotImplementedError (msg : string)
| SchemaError (msg : string).

Inductive result (A : Type) : Type :=
| Ok (a : A)
| Err (e : PyErr).
Arguments Ok {A} a.
Arguments Err {A} e.

Definition bind {A B} (r : result A) (k : A -> result B) : result B :=
  match r with
  | Ok a => k a
  | Err e => Err e
  end.

Definition is_ok {A} (r : result A) : bool :=
  match r with Ok _ => true | Err _ => false end.

(** [[f(x) for x in l]]: the first exception aborts the comprehension. *)
Fixpoint mapM {A B} (f : A -> result B) (l : list A) : result (list B) :=
  match l with
  | [] => Ok []
  | x :: r =>
      match f x with
      | Err e => Err e
      | Ok y =>
          match mapM f r with
          | Err e => Err e
          | Ok ys => Ok (y :: ys)
          end
      end
  end.

Section Assoc.
Context {V : Type}.

(** [d.get(k)] on an insertion-ordered mapping. *)
Fixpoint assoc (k : string) (d : list (string * V)) : option V :=
  match d with
  | [] => None
  | (k', v) :: r => if String.eqb k k' then Some v else assoc k r
  end.

(** [k in d]. *)
Definition has_key (k : string) (d : list (string * V)) : bool :=
  match assoc k d with Some _ => true | None => false end.

(** [d[k] = v]: an existing key keeps its position, a new one goes last. *)
Fixpoint dict_set (k : string) (v : V) (d : list (string * V))
  : list (string * V) :=
  match d with
  | [] => [(k, v)]
  | (k', v') :: r =>
      if String.eqb k k' then (k', v) :: r else (k', v') :: dict_set k v r
  end.

Definition keys (d : list (string * V)) : list string := map fst d.
End Assoc.

Definition dict_get (k : string) (d : Dict) : option Value := assoc k d.

(** Python's [==] on these values: [bool] is an [int], lists compare
    position by position, dicts compare as mappings. *)
Fixpoint py_eq (a b : Value) {struct a} : bool :=
  match a, b with
  | VNone, VNone => true
  | VBool x, VBool y => Bool.eqb x y
  | VBool x, VInt y => Z.eqb (Z.b2z x) y
  | VInt x, VBool y => Z.eqb x (Z.b2z y)
  | VInt x, VInt y => Z.eqb x y
  | VStr x, VStr y => String.eqb x y
  | VList xs, VList ys =>
      (fix go (xs ys : list Value) {struct xs} : bool :=
         match xs, ys with
         | [], [] => true
         | x :: xs', y :: ys' => py_eq x y && go xs' ys'
         | _, _ => false
         end) xs ys
  | VDict xs, VDict ys =>
      Nat.eqb (length xs) (length ys)
      && (fix go (xs : list (string * Value)) {struct xs} : bool :=
            match xs with
            | [] => true
            | (k, v) :: xs' =>
                match assoc k ys with
                | Some w => py_eq v w
                | None => false
                end && go xs'
            end) xs
  | _, _ => false
  end.

(** [needle in hay] for two strings. *)
Fixpoint is_substring (needle hay : string) : bool :=
  String.prefix needle hay
  || match hay with
     | EmptyString => false
     | String _ r => is_substring needle r
     end.

(** [part in state] where [part] is a string. *)
Definition py_contains (part : string) (state : Value) : result bool :=
  match state with
  | VDict d => Ok (has_key part d)
  | VStr s => Ok (is_substring part s)
  | VList l => Ok (existsb (py_eq (VStr part)) l)
  | VNone | VBool _ | VInt _ => Err TypeError
  end.

(** [state[part]] where [part] is a string. *)
Definition py_getitem (state : Value) (part : string) : result Value :=
  match state with
  | VDict d =>
      match assoc part d with
      | Some v => Ok v
      | None => Err (KeyError part)
      end
  | _ => Err TypeError
  end.

(** [state[part] = v] where [part] is a string. *)
Definition py_setitem (state : Value) (part : string) (v : Value)
  : result Value :=
  match state with
  | VDict d => Ok (VDict (dict_set part v d))
  | _ => Err TypeError
  end.

(** [s.split(sep)] for a one-character separator. *)
Fixpoint split (sep : ascii) (s : string) : list string :=
  match s with
  | EmptyString => [EmptyString]
  | String c r =>
      if Ascii.eqb c sep then EmptyString :: split sep r
      else match split sep r with
           | h :: t => String c h :: t
           | [] => [String c EmptyString]
           end
  end.

(** Truthiness of an optional list, string or flag. *)
Definition truthy_list {A} (o : option (list A)) : bool :=
  match o with Some (_ :: _) => true | _ => false end.

Definition truthy_str (o : option string) : bool :=
  match o with
  | Some (String _ _) => true
  | _ => false
  end.

Definition truthy_flag (o : option bool) : bool :=
  match o with Some true => true | _ => false end.

End Py.
Import Py.

(* ================================================================== *)
(** ** The schema object model (openapi_pydantic's [Schema]) *)
(* ================================================================== *)

Module OpenApi.

Inductive DataType : Type :=
| NULL | STRING | NUMBER | INTEGER | BOOLEAN | ARRAY | OBJECT.

(** [Schema.type] is one data type or a list of them. *)
Inductive TypeField : Type :=
| TypeOne (t : DataType)
| TypeMany (ts : list DataType).

Record Discriminator : Type := mkDiscriminator {
  propertyName : string;
  mapping : option (list (string * string))
}.

(** The fields of [Schema] that the embedded functions read or write.
    [default] and [const] are [VNone] when unset. *)
Inductive Schema : Type := mkSchema {
  title : option string;
  type_ : option TypeField;
  schema_format : option string;
  enum : option (list Value);
  const : Value;
  default : Value;
  discriminator : option Discriminator;
  anyOf : option (list Schema);
  oneOf : option (list Schema);
  prefixItems : option (list Schema);
  items : option Schema;
  uniqueItems : option bool;
  minItems : option Z;
  maxItems : option Z;
  properties : option (list (string * Schema));
  additionalProperties : option (bool + Schema);
  required : option (list string);
  readOnly : option bool
}.

(** [Schema()] *)
Definition empty_schema : Schema :=
  mkSchema None None None None VNone VNone None None None None None None
           None None None None None None.

(** [Schema(type=t)] *)
Definition typed (t : DataType) : Schema :=
  mkSchema None (Some (TypeOne t)) None None VNone VNone None None None None
           None None None None None None None None.

Definition set_title (t : option string) (s : Schema) : Schema :=
  mkSchema t (type_ s) (schema_format s) (enum s) (const s) (default s)
           (discriminator s) (anyOf s) (oneOf s) (prefixItems s) (items s)
           (uniqueItems s) (minItems s) (maxItems s) (properties s)
           (additionalProperties s) (required s) (readOnly s).

Definition set_format (f : option string) (s : Schema) : Schema :=
  mkSchema (title s) (type_ s) f (enum s) (const s) (default s)
           (discriminator s) (anyOf s) (oneOf s) (prefixItems s) (items s)
           (uniqueItems s) (minItems s) (maxItems s) (properties s)
           (additionalProperties s) (required s) (readOnly s).

Definition set_enum (e : option (list Value)) (s : Schema) : Schema :=
  mkSchema (title s) (type_ s) (schema_format s) e (const s) (default s)
           (discriminator s) (anyOf s) (oneOf s) (prefixItems s) (items s)
           (uniqueItems s) (minItems s) (maxItems s) (properties s)
           (additionalProperties s) (required s) (readOnly s).

Definition set_const (c : Value) (s : Schema) : Schema :=
  mkSchema (title s) (type_ s) (schema_format s) (enum s) c (default s)
           (discriminator s) (anyOf s) (oneOf s) (prefixItems s) (items s)
           (uniqueItems s) (minItems s) (maxItems s) (properties s)
           (additionalProperties s) (required s) (readOnly s).

Definition set_default (v : Value) (s : Schema) : Schema :=
  mkSchema (title s) (type_ s) (schema_format s) (enum s) (const s) v
           (discriminator s) (anyOf s) (oneOf s) (prefixItems s) (items s)
           (uniqueItems s) (minItems s) (maxItems s) (properties s)
           (additionalProperties s) (required s) (readOnly s).

Definition set_discriminator (d : option Discriminator) (s : Schema)
  : Schema :=
  mkSchema (title s) (type_ s) (schema_format s) (enum s) (const s)
           (default s) d (anyOf s) (oneOf s) (prefixItems s) (items s)
           (uniqueItems s) (minItems s) (maxItems s) (properties s)
           (additionalProperties s) (required s) (readOnly s).

Definition set_anyOf (l : option (list Schema)) (s : Schema) : Schema :=
  mkSchema (title s) (type_ s) (schema_format s) (enum s) (const s)
           (default s) (discriminator s) l (oneOf s) (prefixItems s)
           (items s) (uniqueItems s) (minItems s) (maxItems s)
           (properties s) (additionalProperties s) (required s)
           (readOnly s).

Definition set_oneOf (l : option (list Schema)) (s : Schema) : Schema :=
  mkSchema (title s) (type_ s) (schema_format s) (enum s) (const s)
           (default s) (discriminator s) (anyOf s) l (prefixItems s)
           (items s) (uniqueItems s) (minItems s) (maxItems s)
           (properties s) (additionalProperties s) (required s)
           (readOnly s).

Definition set_prefixItems (l : option (list Schema)) (s : Schema)
  : Schema :=
  mkSchema (title s) (type_ s) (schema_format s) (enum s) (const s)
           (default s) (discriminator s) (anyOf s) (oneOf s) l (items s)
           (uniqueItems s) (minItems s) (maxItems s) (properties s)
           (additionalProperties s) (required s) (readOnly s).

Definition set_items (i : option Schema) (s : Schema) : Schema :=
  mkSchema (title s) (type_ s) (schema_format s) (enum s) (const s)
           (default s) (discriminator s) (anyOf s) (oneOf s)
           (prefixItems s) i (uniqueItems s) (minItems s) (maxItems s)
           (properties s) (additionalProperties s) (required s)
           (readOnly s).

Definition set_uniqueItems (u : option bool) (s : Schema) : Schema :=
  mkSchema (title s) (type_ s) (schema_format s) (enum s) (const s)
           (default s) (discriminator s) (anyOf s) (oneOf s)
           (prefixItems s) (items s) u (minItems s) (maxItems s)
           (properties s) (additionalProperties s) (required s)
           (readOnly s).

Definition set_properties (p : option (list (string * Schema)))
           (s : Schema) : Schema :=
  mkSchema (title s) (type_ s) (schema_format s) (enum s) (const s)
           (default s) (discriminator s) (anyOf s) (oneOf s)
           (prefixItems s) (items s) (uniqueItems s) (minItems s)
           (maxItems s) p (additionalProperties s) (required s)
           (readOnly s).

Definition set_additionalProperties (a : option (bool + Schema))
           (s : Schema) : Schema :=
  mkSchema (title s) (type_ s) (schema_format s) (enum s) (const s)
           (default s) (discriminator s) (anyOf s) (oneOf s)
           (prefixItems s) (items s) (uniqueItems s) (minItems s)
           (maxItems s) (properties s) a (required s) (readOnly s).

Definition set_readOnly (r : option bool) (s : Schema) : Schema :=
  mkSchema (title s) (type_ s) (schema_format s) (enum s) (const s)
           (default s) (discriminator s) (anyOf s) (oneOf s)
           (prefixItems s) (items s) (uniqueItems s) (minItems s)
           (maxItems s) (properties s) (additionalProperties s)
           (required s) r.

Definition set_minItems (n : option Z) (s : Schema) : Schema :=
  mkSchema (title s) (type_ s) (schema_format s) (enum s) (const s)
           (default s) (discriminator s) (anyOf s) (oneOf s)
           (prefixItems s) (items s) (uniqueItems s) n (maxItems s)
           (properties s) (additionalProperties s) (required s)
           (readOnly s).

Definition set_maxItems (n : option Z) (s : Schema) : Schema :=
  mkSchema (title s) (type_ s) (schema_format s) (enum s) (const s)
           (default s) (discriminator s) (anyOf s) (oneOf s)
           (prefixItems s) (items s) (uniqueItems s) (minItems s) n
           (properties s) (additionalProperties s) (required s)
           (readOnly s).

Definition set_required (r : option (list string)) (s : Schema) : Schema :=
  mkSchema (title s) (type_ s) (schema_format s) (enum s) (const s)
           (default s) (discriminator s) (anyOf s) (oneOf s)
           (prefixItems s) (items s) (uniqueItems s) (minItems s)
           (maxItems s) (properties s) (additionalProperties s) r
           (readOnly s).

(** Truthiness of [additionalProperties]: [True] or a schema object. *)
Definition truthy_additional (a : option (bool + Schema)) : bool :=
  match a with
  | Some (inl true) => true
  | Some (inr _) => true
  | _ => false
  end.

End OpenApi.
Import OpenApi.

(* ================================================================== *)
(** ** config_wizard/utils.py *)
(* ================================================================== *)

Module Utils.

(** Character classes of Python's [str] on the ASCII range, the range on
    which [lower], [title] and [strip] are embedded. *)
Definition is_ascii_char (c : ascii) : bool := Nat.ltb (nat_of_ascii c) 128.

Definition is_upper (c : ascii) : bool :=
  Nat.leb 65 (nat_of_ascii c) && Nat.leb (nat_of_ascii c) 90.

Definition is_lower (c : ascii) : bool :=
  Nat.leb 97 (nat_of_ascii c) && Nat.leb (nat_of_ascii c) 122.

Definition to_lower (c : ascii) : ascii :=
  if is_upper c then ascii_of_nat (nat_of_ascii c + 32) else c.

Definition to_upper (c : ascii) : ascii :=
  if is_lower c then ascii_of_nat (nat_of_ascii c - 32) else c.

(** [str.isspace] on ASCII: tab to carriage return, the four separators
    and the blank. *)
Definition is_space (c : ascii) : bool :=
  let n := nat_of_ascii c in
  (Nat.leb 9 n && Nat.leb n 13) || (Nat.leb 28 n && Nat.leb n 32).

Definition is_hyphen (c : ascii) : bool := Ascii.eqb c "-".

(** The character class [[-_]]. *)
Definition is_dash (c : ascii) : bool :=
  Ascii.eqb c "-" || Ascii.eqb c "_".

Fixpoint map_string (f : ascii -> ascii) (s : string) : string :=
  match s with
  | EmptyString => EmptyString
  | String c r => String (f c) (map_string f r)
  end.

Fixpoint is_ascii (s : string) : bool :=
  match s with
  | EmptyString => true
  | String c r => is_ascii_char c && is_ascii r
  end.

(** [s.lower()] *)
Definition lower (s : string) : string := map_string to_lower s.

(** [s.replace(a, b)] for single characters. *)
Definition replace (a b : ascii) (s : string) : string :=
  map_string (fun c => if Ascii.eqb c a then b else c) s.

(** [re.sub(r"(?<!^)(?=[A-Z])", "_", s)]: an underscore goes in front of
    every capital that is not the first character.  [at_start] tells
    whether the position is the start of the string. *)
Fixpoint sub_before_upper (at_start : bool) (s : string) : string :=
  match s with
  | EmptyString => EmptyString
  | String c r =>
      if negb at_start && is_upper c
      then String "_" (String c (sub_before_upper false r))
      else String c (sub_before_upper false r)
  end.

(** [re.sub(r"[-_]+", "_", s)]: every maximal run of hyphens and
    underscores becomes one underscore.  [in_run] tells whether the
    previous character belonged to a run. *)
Fixpoint sub_dash_runs (in_run : bool) (s : string) : string :=
  match s with
  | EmptyString => EmptyString
  | String c r =>
      if is_dash c
      then (if in_run then sub_dash_runs true r
            else String "_" (sub_dash_runs true r))
      else String c (sub_dash_runs false r)
  end.

Fixpoint lstrip (p : ascii -> bool) (s : string) : string :=
  match s with
  | EmptyString => EmptyString
  | String c r => if p c then lstrip p r else s
  end.

Fixpoint rstrip (p : ascii -> bool) (s : string) : string :=
  match s with
  | EmptyString => EmptyString
  | String c r =>
      match rstrip p r with
      | EmptyString => if p c then EmptyString else String c EmptyString
      | r' => String c r'
      end
  end.

(** [s.strip()] with [p] the whitespace class, [s.strip("-")] with [p]
    the hyphen. *)
Definition strip (p : ascii -> bool) (s : string) : string :=
  rstrip p (lstrip p s).

(** [s.title()]: a letter is capitalised when the character before it is
    not a letter, and lowered otherwise. *)
Fixpoint title_from (previous_is_cased : bool) (s : string) : string :=
  match s with
  | EmptyString => EmptyString
  | String c r =>
      if is_lower c then
        String (if previous_is_cased then c else to_upper c)
               (title_from true r)
      else if is_upper c then
        String (if previous_is_cased then to_lower c else c)
               (title_from true r)
      else String c (title_from false r)
  end.

Definition str_title (s : string) : string := title_from false s.

Definition to_title_case (s : string) : string :=
  let s := lower (sub_before_upper true s) in
  let s := replace " " "_" s in
  let s := sub_dash_runs false s in
  str_title (strip is_space (replace "_" " " s)).

Definition to_kebab_case (s : string) : string :=
  let s := lower (sub_before_upper true s) in
  let s := replace " " "_" s in
  let s := sub_dash_runs false s in
  lower (strip is_hyphen (replace "_" "-" s)).

(** What the body of the [try] of [is_assignable] does,
    [jsonschema.validate(instance=value,
    schema=schema.model_dump(exclude_unset=True))]: it returns, it raises
    [jsonschema.ValidationError], or it raises something else, as
    [jsonschema.SchemaError] for a schema the metaschema rejects. *)
Inductive Validation : Type :=
| Valid
| Invalid
| Raises (e : PyErr).

(** The validator itself is the [jsonschema] library's and a parameter of
    the embedding.  [is_assignable] catches [ValidationError] alone: any
    other exception goes on to the caller. *)
Definition is_assignable (validate : Value -> Schema -> Validation)
           (value : Value) (schema : Schema) : result bool :=
  match validate value schema with
  | Valid => Ok true
  | Invalid => Ok false
  | Raises e => Err e
  end.

(** [unpack_additional_properties]: the items are visited in order and
    written to [result] with Python's item assignment. *)
Fixpoint unpack_value (additional_properties_key : string) (v : Value)
  {struct v} : Value :=
  match v with
  | VDict data =>
      VDict
        (fold_left
           (fun (result : Dict) (item : string * Value) =>
              let (k, v) := item in
              match v with
              | VDict add =>
                  if String.eqb k additional_properties_key then
                    fold_left
                      (fun (result : Dict) (add_item : string * Value) =>
                         let (add_k, add_v) := add_item in
                         match add_v with
                         | VDict _ =>
                             dict_set add_k
                               (unpack_value additional_properties_key add_v)
                               result
                         | _ => dict_set add_k add_v result
                         end)
                      add result
                  else
                    dict_set k (unpack_value additional_properties_key v)
                             result
              | _ => dict_set k v result
              end)
           data [])
  | _ => v
  end.

Definition unpack_additional_properties (data : Dict)
           (additional_properties_key : string) : Dict :=
  match unpack_value additional_properties_key (VDict data) with
  | VDict d => d
  | _ => []
  end.

End Utils.
Import Utils.

(* ================================================================== *)
(** ** config_wizard/mapper.py *)
(* ================================================================== *)

Module Mapper.

Inductive InputType : Type :=
| TEXT | EMAIL | PASSWORD | URI | UUID | FILE_PATH | DIRECTORY_PATH
| IPV4 | IPV6
| INTEGER_INPUT | FLOAT
| DATE | TIME | DATETIME | DURATION
| BOOLEAN_INPUT
| ENUM
| LIST | TUPLE | SET | DICT | OBJECT_INPUT | UNION | DISCRIMINATED_UNION
| ANY | NULL_INPUT.

(** The string each member carries ([InputType] is a [str] enum); the
    members named [INTEGER_INPUT], [BOOLEAN_INPUT], [OBJECT_INPUT] and
    [NULL_INPUT] here are [INTEGER], [BOOLEAN], [OBJECT] and [NULL] in the
    source, where they do not clash with [DataType]. *)
Definition input_type_value (t : InputType) : string :=
  match t with
  | TEXT => "text" | EMAIL => "email" | PASSWORD => "password"
  | URI => "uri" | UUID => "uuid" | FILE_PATH => "file_path"
  | DIRECTORY_PATH => "directory_path" | IPV4 => "ipv4" | IPV6 => "ipv6"
  | INTEGER_INPUT => "integer" | FLOAT => "float"
  | DATE => "date" | TIME => "time" | DATETIME => "datetime"
  | DURATION => "duration"
  | BOOLEAN_INPUT => "boolean"
  | ENUM => "enum"
  | LIST => "list" | TUPLE => "tuple" | SET => "set" | DICT => "dict"
  | OBJECT_INPUT => "object" | UNION => "union"
  | DISCRIMINATED_UNION => "discriminated_union"
  | ANY => "any" | NULL_INPUT => "null"
  end.

Definition all_input_types : list InputType :=
  [TEXT; EMAIL; PASSWORD; URI; UUID; FILE_PATH; DIRECTORY_PATH; IPV4; IPV6;
   INTEGER_INPUT; FLOAT; DATE; TIME; DATETIME; DURATION; BOOLEAN_INPUT; ENUM;
   LIST; TUPLE; SET; DICT; OBJECT_INPUT; UNION; DISCRIMINATED_UNION; ANY;
   NULL_INPUT].

Definition InputType_eqb (a b : InputType) : bool :=
  String.eqb (input_type_value a) (input_type_value b).

Definition is_complex (t : InputType) : bool :=
  match t with
  | LIST | TUPLE | SET | DICT | OBJECT_INPUT | UNION | DISCRIMINATED_UNION =>
      true
  | _ => false
  end.

(** The inner [match prop.schema_format]. *)
Definition string_input_type (schema_format : option string) : InputType :=
  match schema_format with
  | Some f =>
      if String.eqb f "email" then EMAIL
      else if String.eqb f "password" then PASSWORD
      else if String.eqb f "uri" then URI
      else if String.eqb f "uuid" then UUID
      else if String.eqb f "ipv4" then IPV4
      else if String.eqb f "ipv6" then IPV6
      else TEXT
  | None => TEXT
  end.

Definition property_to_input_type (prop : Schema) : InputType :=
  if truthy_list (enum prop) then ENUM
  else if (match discriminator prop with Some _ => true | None => false end)
  then DISCRIMINATED_UNION
  else if truthy_list (anyOf prop) || truthy_list (oneOf prop) then UNION
  else
    match type_ prop with
    | Some (TypeOne STRING) => string_input_type (schema_format prop)
    | Some (TypeOne NUMBER) => FLOAT
    | Some (TypeOne INTEGER) => INTEGER_INPUT
    | Some (TypeOne BOOLEAN) => BOOLEAN_INPUT
    | Some (TypeOne ARRAY) =>
        if truthy_list (prefixItems prop) then TUPLE
        else if truthy_flag (uniqueItems prop) then SET
        else LIST
    | Some (TypeOne OBJECT) =>
        if truthy_list (properties prop) then OBJECT_INPUT
        else if truthy_additional (additionalProperties prop) then DICT
        else ANY
    | Some (TypeOne NULL) => NULL_INPUT
    | Some (TypeMany _) | None => ANY
    end.

End Mapper.
Import Mapper.

(* ================================================================== *)
(** ** config_wizard/schema.py: reference resolution *)
(* ================================================================== *)

Module SettingsSchema.

(** [obj["$ref"].split("/")[-1]] *)
Definition ref_key_of (ref : string) : string :=
  last (split "/" ref) EmptyString.

Definition not_found_message (ref_key : string) : string :=
  String.append "Reference '"
    (String.append ref_key "' not found in ref_map.").

Definition no_ref_map_message : string :=
  "No reference map provided for resolving references.".

Definition circular_message : string :=
  "Circular reference detected in schema resolution.".

(** The nested function [_resolve].  Python bounds the call stack, and a
    call made when nothing is left of it raises [RecursionError]; [depth]
    is what is left, counted in nested calls of [_resolve].  How many
    frames of the interpreter one such call takes (up to Python 3.11 the
    comprehensions have frames of their own) makes the bound that stands
    for a given recursion limit; what is proved of [_resolve] is proved
    for every bound. *)
Fixpoint _resolve (depth : nat) (ref_map : Dict) (obj : Value)
  : result Value :=
  match depth with
  | O => Err RecursionError
  | S d =>
      match obj with
      | VDict o =>
          if has_key "$ref" o then
            match py_getitem obj "$ref" with
            | Ok (VStr ref) =>
                let ref_key := ref_key_of ref in
                match assoc ref_key ref_map with
                | Some target => _resolve d ref_map target
                | None => Err (KeyError (not_found_message ref_key))
                end
            | Ok _ => Err AttributeError
            | Err e => Err e
            end
          else
            bind (mapM (fun kv : string * Value =>
                          bind (_resolve d ref_map (snd kv))
                               (fun v => Ok (fst kv, v))) o)
                 (fun o' => Ok (VDict o'))
      | VList l =>
          bind (mapM (_resolve d ref_map) l) (fun l' => Ok (VList l'))
      | _ => Ok obj
      end
  end.

(** [resolve_refs].  [dumped] is [self.model_dump(by_alias=True,
    exclude_unset=True)], [own_ref_map] is [self._ref_map]; the result is
    the resolved mapping that is handed to
    [ResolvedSettingsSchema.model_validate].  That validation, the last
    step inside the [try], is the work of the pydantic library and no part
    of the embedding: [Ok] says what [_resolve] has returned. *)
Definition resolve_refs (depth : nat) (dumped : Dict)
           (own_ref_map : option Dict) (ref_map : option Dict)
  : result Value :=
  let ref_map := match ref_map with None => own_ref_map | Some _ => ref_map end in
  match ref_map with
  | None => Err (ValueError no_ref_map_message)
  | Some ref_map =>
      match _resolve depth ref_map (VDict dumped) with
      | Err RecursionError => Err (ValueError circular_message)
      | r => r
      end
  end.

End SettingsSchema.
Import SettingsSchema.

(* ================================================================== *)
(** ** config_wizard/backends/base.py *)
(* ================================================================== *)

Module Base.

Definition ADDITIONAL_PROPERTIES_KEY : string := "__additional_properties__".

(** A method of the backend runs on the state store; an exception leaves
    the store as it was when raised. *)
Definition Method (A : Type) : Type := Dict -> result A * Dict.

(** The abstract methods of [SettingsWizardBackend] that [render_schema]
    calls.  A concrete backend supplies them.  The two renderers are
    handed a schema object; as methods of this record they give back a
    result and the state, so a backend is taken here to leave the schema
    it is handed as it is.  Where a renderer of the Streamlit backend
    writes to it, it is embedded with the schema it leaves behind (see
    [_render_object_properties]). *)
Record SettingsWizardBackend : Type := mkBackend {
  _store_value : string -> Value -> Method unit;
  _get_value : string -> Method Value;
  _render_property : string -> Schema -> bool -> bool -> Method Value;
  _render_additional_properties : string -> Schema -> bool -> Method Dict
}.

(** The instance attributes [self.schema] and [self.state]. *)
Record Wizard : Type := mkWizard {
  schema : Schema;
  state : Dict
}.

(** [prop_key in required] *)
Definition in_required (prop_key : string) (required : list string) : bool :=
  existsb (String.eqb prop_key) required.

(** [if not prop.title: prop.title = to_title_case(prop_key)] *)
Definition with_title (prop_key : string) (prop : Schema) : Schema :=
  if truthy_str (title prop) then prop
  else set_title (Some (to_title_case prop_key)) prop.

Section RenderSchema.
Variable backend : SettingsWizardBackend.

(** The loop over [self.schema.properties.items()].  It gives back the
    properties as the loop leaves them (titles filled in as far as it
    got) next to the state. *)
Fixpoint render_properties (required : list string)
         (props : list (string * Schema)) (st : Dict)
  : result unit * list (string * Schema) * Dict :=
  match props with
  | [] => (Ok tt, [], st)
  | (prop_key, prop) :: rest =>
      let prop := with_title prop_key prop in
      match _render_property backend prop_key prop
              (in_required prop_key required) false st with
      | (Err e, st1) => (Err e, (prop_key, prop) :: rest, st1)
      | (Ok value, st1) =>
          match _store_value backend prop_key value st1 with
          | (Err e, st2) => (Err e, (prop_key, prop) :: rest, st2)
          | (Ok _, st2) =>
              match render_properties required rest st2 with
              | (r, rest', st3) => (r, (prop_key, prop) :: rest', st3)
              end
          end
      end
  end.

Definition render_schema (self : Wizard) : result Dict * Wizard :=
  let required :=
    match required (schema self) with Some l => l | None => [] end in
  match properties (schema self) with
  | None | Some [] => (Ok [], self)
  | Some props =>
      match render_properties required props (state self) with
      | (Err e, props', st1) =>
          (Err e, mkWizard (set_properties (Some props') (schema self)) st1)
      | (Ok _, props', st1) =>
          let schema1 := set_properties (Some props') (schema self) in
          if truthy_additional (additionalProperties schema1) then
            match _render_additional_properties backend
                    ADDITIONAL_PROPERTIES_KEY schema1 false st1 with
            | (Err e, st2) => (Err e, mkWizard schema1 st2)
            | (Ok additional_properties, st2) =>
                match _store_value backend ADDITIONAL_PROPERTIES_KEY
                        (VDict additional_properties) st2 with
                | (Err e, st3) => (Err e, mkWizard schema1 st3)
                | (Ok _, st3) =>
                    (Ok (unpack_additional_properties
                           st3 ADDITIONAL_PROPERTIES_KEY),
                     mkWizard schema1 st3)
                end
            end
          else
            (Ok (unpack_additional_properties st1 ADDITIONAL_PROPERTIES_KEY),
             mkWizard schema1 st1)
      end
  end.

End RenderSchema.

End Base.
Import Base.

(* ================================================================== *)
(** ** config_wizard/backends/streamlit.py *)
(* ================================================================== *)

Module Streamlit.

Definition KEY_SEPARATOR : ascii := ".".

Definition _is_add_button_disabled (property_schema : Schema)
           (current_length : Z) : bool :=
  if truthy_flag (readOnly property_schema) then true
  else
    match maxItems property_schema with
    | Some m => if Z.geb current_length m then true else false
    | None => false
    end.

Definition _is_clear_button_disabled (property_schema : Schema) : bool :=
  if truthy_flag (readOnly property_schema) then false
  else true.

Definition _is_remove_button_disabled (property_schema : Schema)
           (current_length : Z) : bool :=
  if truthy_flag (readOnly property_schema) then true
  else
    match minItems property_schema with
    | Some m => if Z.leb current_length m then true else false
    | None => false
    end.

(** [state[part]] becomes [sub]: the nested mapping is the same object in
    Python, so what the loop does below shows in the enclosing one. *)
Definition put_back (state : Value) (part : string) (sub : Value) : Value :=
  match state with
  | VDict d => VDict (dict_set part sub d)
  | _ => state
  end.

(** [if part not in state: state[part] = {}] followed by
    [state = state[part]]: the enclosing mapping as the step leaves it and
    the mapping the loop goes on with. *)
Definition descend (part : string) (state : Value)
  : result (Value * Value) :=
  bind (py_contains part state) (fun present =>
  bind (if present then Ok state else py_setitem state part (VDict []))
       (fun state1 =>
  bind (py_getitem state1 part) (fun sub => Ok (state1, sub)))).

(** The loop of [_store_value] over [key_parts]. *)
Fixpoint store_loop (key_parts : list string) (value : Value)
         (state : Value) : result unit * Value :=
  match key_parts with
  | [] => (Ok tt, state)
  | part :: rest =>
      match rest with
      | [] =>
          match py_setitem state part value with
          | Ok state' => (Ok tt, state')
          | Err e => (Err e, state)
          end
      | _ :: _ =>
          match descend part state with
          | Err e => (Err e, state)
          | Ok (state1, sub) =>
              let (r, sub') := store_loop rest value sub in
              (r, put_back state1 part sub')
          end
      end
  end.

(** The loop of [_get_value] over [key_parts]. *)
Fixpoint get_loop (key_parts : list string) (state : Value)
  : result Value * Value :=
  match key_parts with
  | [] => (Ok VNone, state)
  | part :: rest =>
      match rest with
      | [] =>
          match py_contains part state with
          | Err e => (Err e, state)
          | Ok false => (Ok VNone, state)
          | Ok true => (py_getitem state part, state)
          end
      | _ :: _ =>
          match descend part state with
          | Err e => (Err e, state)
          | Ok (state1, sub) =>
              let (r, sub') := get_loop rest sub in
              (r, put_back state1 part sub')
          end
      end
  end.

Definition as_dict (v : Value) (otherwise : Dict) : Dict :=
  match v with VDict d => d | _ => otherwise end.

Definition _store_value (key : string) (value : Value) : Method unit :=
  fun state =>
    let (r, state') :=
      store_loop (split KEY_SEPARATOR key) value (VDict state) in
    (r, as_dict state' state).

Definition _get_value (key : string) : Method Value :=
  fun state =>
    let (r, state') := get_loop (split KEY_SEPARATOR key) (VDict state) in
    (r, as_dict state' state).

(** [StreamlitSettingsWizard] as a backend: the store is the one above;
    what the widgets give back is the part played by the two renderers. *)
Definition StreamlitSettingsWizard
           (render_property : string -> Schema -> bool -> bool -> Method Value)
           (render_additional_properties :
              string -> Schema -> bool -> Method Dict)
  : SettingsWizardBackend :=
  mkBackend _store_value _get_value render_property
            render_additional_properties.

(** *** Branch pre-selection of [_render_union_input] *)

(** [next(i for i, x in enumerate(l) if p(x))], counting from [i]. *)
Fixpoint next_index {A} (p : A -> result bool) (l : list A) (i : nat)
  : result nat :=
  match l with
  | [] => Err StopIteration
  | x :: r =>
      match p x with
      | Err e => Err e
      | Ok true => Ok i
      | Ok false => next_index p r (S i)
      end
  end.

(** [schema.properties[discriminator].const == value[discriminator]] *)
Definition discriminator_matches (discriminator : string) (value : Value)
           (schema : Schema) : result bool :=
  match properties schema with
  | None => Err TypeError
  | Some props =>
      match assoc discriminator props with
      | None => Err (KeyError discriminator)
      | Some p =>
          bind (py_getitem value discriminator)
               (fun x => Ok (py_eq (const p) x))
      end
  end.

(** [property_schema.anyOf or property_schema.oneOf or []] *)
Definition union_branches (property_schema : Schema) : list Schema :=
  if truthy_list (anyOf property_schema) then
    match anyOf property_schema with Some l => l | None => [] end
  else if truthy_list (oneOf property_schema) then
    match oneOf property_schema with Some l => l | None => [] end
  else [].

(** [union_schemas[selected_index].default = value] *)
Fixpoint set_default_at (i : nat) (value : Value) (l : list Schema)
  : list Schema :=
  match l, i with
  | [], _ => []
  | s :: r, O => set_default value s :: r
  | s :: r, S j => s :: set_default_at j value r
  end.

Section Union.
Variable validate : Value -> Schema -> Validation.

(** The part of [_render_union_input] that handles the default value:
    the branches as it leaves them and [kwargs["index"]] when it sets one. *)
Definition union_preselect (property_schema : Schema)
           (input_type : InputType) : result (list Schema * option nat) :=
  let union_schemas := union_branches property_schema in
  match default property_schema with
  | VNone => Ok (union_schemas, None)
  | value =>
      bind
        (if InputType_eqb input_type DISCRIMINATED_UNION then
           match discriminator property_schema with
           | None => Err AttributeError
           | Some d =>
               next_index (discriminator_matches (propertyName d) value)
                          union_schemas 0
           end
         else
           next_index (fun schema => is_assignable validate value schema)
                      union_schemas 0)
        (fun selected_index =>
           Ok (set_default_at selected_index value union_schemas,
               Some selected_index))
  end.

(** The same part as it runs in [_render_union_input], a method of the
    wizard: [self.state] is at hand, and nothing of it is read or written;
    the value comes from
    [_get_default_streamlit_input_kwargs(...)["value"]], the schema's
    [default]. *)
Definition _render_union_input_preselect (property_key : string)
           (property_schema : Schema) (input_type : InputType)
  : Method (list Schema * option nat) :=
  fun state => (union_preselect property_schema input_type, state).

End Union.

(** *** The dispatch of [_render_property] *)

Inductive Renderer : Type :=
| render_enum_input
| render_datetime_input
| render_boolean_input
| render_number_input
| render_text_input
| render_list_input
| render_dict_input
| render_object_input
| render_union_input
| return_None
| render_any_input.

(** The [match input_type] statement: the case that takes the input
    type, if there is one. *)
Definition render_case (input_type : InputType) : option Renderer :=
  match input_type with
  | ENUM => Some render_enum_input
  | DATE | DATETIME | TIME => Some render_datetime_input
  | BOOLEAN_INPUT => Some render_boolean_input
  | INTEGER_INPUT | FLOAT => Some render_number_input
  | TEXT | PASSWORD | EMAIL | UUID | URI | IPV4 | IPV6 | FILE_PATH
  | DIRECTORY_PATH => Some render_text_input
  | LIST | TUPLE | SET => Some render_list_input
  | DICT => Some render_dict_input
  | OBJECT_INPUT => Some render_object_input
  | UNION | DISCRIMINATED_UNION => Some render_union_input
  | NULL_INPUT => Some return_None
  | ANY => Some render_any_input
  | DURATION => None
  end.

Inductive Route : Type :=
| Rendered (by_ : Renderer) (input_type : InputType)
| Unsupported (warning : string) (raised : PyErr).

Definition unsupported_warning (property_key : string)
           (property_schema : Schema) : string :=
  String.append
    "The type of the following property is currently not supported: "
    (if truthy_str (title property_schema)
     then match title property_schema with Some t => t | None => property_key end
     else property_key).

(** The message holds [f"{input_type}"], here the member's value, as the
    [str] mixed into the enumeration formats it; interpreters from
    Python 3.11 on print the member's name, [InputType.DURATION],
    instead. *)
Definition not_implemented (input_type : InputType) : PyErr :=
  NotImplementedError
    (String.append "Input type '"
       (String.append (input_type_value input_type)
          "' is not implemented for Streamlit backend.")).

(** Where [_render_property] goes for a property: into one of the cases,
    or past them to the warning and the [NotImplementedError]. *)
Definition _render_property_route (property_key : string)
           (property_schema : Schema) : Route :=
  let input_type := property_to_input_type property_schema in
  match render_case input_type with
  | Some r => Rendered r input_type
  | None =>
      Unsupported (unsupported_warning property_key property_schema)
                  (not_implemented input_type)
  end.

End Streamlit.
Import Streamlit.

(* ================================================================== *)
(** ** Notions used to state the properties *)
(* ================================================================== *)

Module Notions.

(** The kinds [property_to_input_type] has no return statement for. *)
Definition unmapped_kinds : list InputType :=
  [FILE_PATH; DIRECTORY_PATH; DATE; TIME; DATETIME; DURATION].

Definition is_unmapped (k : InputType) : bool :=
  existsb (InputType_eqb k) unmapped_kinds.

(** The formats the string case tells apart. *)
Definition known_formats : list string :=
  ["email"; "password"; "uri"; "uuid"; "ipv4"; "ipv6"].

(** A string-typed node with no enum, discriminator, [anyOf] or [oneOf]
    to classify it first. *)
Definition plain_string (s : Schema) : Prop :=
  truthy_list (enum s) = false /\
  discriminator s = None /\
  truthy_list (anyOf s) = false /\
  truthy_list (oneOf s) = false /\
  type_ s = Some (TypeOne STRING).

(** One schema per kind, shaped as in the classifier's test table. *)
Definition schema_for (k : InputType) : Schema :=
  match k with
  | TEXT => typed STRING
  | EMAIL | PASSWORD | URI | UUID | IPV4 | IPV6
  | FILE_PATH | DIRECTORY_PATH =>
      set_format (Some (input_type_value k)) (typed STRING)
  | DATE | TIME | DATETIME | DURATION =>
      set_format (Some (input_type_value k)) (typed STRING)
  | INTEGER_INPUT => typed INTEGER
  | FLOAT => typed NUMBER
  | BOOLEAN_INPUT => typed BOOLEAN
  | ENUM => set_enum (Some [VStr "value1"; VStr "value2"]) empty_schema
  | LIST => set_items (Some (typed STRING)) (typed ARRAY)
  | TUPLE => set_prefixItems (Some [typed STRING]) (typed ARRAY)
  | SET =>
      set_uniqueItems (Some true)
        (set_items (Some (typed STRING)) (typed ARRAY))
  | DICT =>
      set_additionalProperties (Some (inr (typed STRING))) (typed OBJECT)
  | OBJECT_INPUT =>
      set_properties (Some [("key", typed STRING)]) (typed OBJECT)
  | UNION => set_anyOf (Some [typed STRING; typed INTEGER]) empty_schema
  | DISCRIMINATED_UNION =>
      set_discriminator
        (Some (mkDiscriminator "type"
                 (Some [("type1", "Type1Schema"); ("type2", "Type2Schema")])))
        (set_oneOf (Some [set_title (Some "Type1Schema") (typed OBJECT);
                          set_title (Some "Type2Schema") (typed OBJECT)])
                   (typed STRING))
  | ANY => typed OBJECT
  | NULL_INPUT => typed NULL
  end.

(** *** Shapes of strings *)

Fixpoint all_chars (p : ascii -> bool) (s : string) : bool :=
  match s with
  | EmptyString => true
  | String c r => p c && all_chars p r
  end.

(** No two neighbouring characters are both in the class [p]; [prev]
    tells whether the character before the string is in it. *)
Fixpoint no_adjacent (p : ascii -> bool) (prev : bool) (s : string) : bool :=
  match s with
  | EmptyString => true
  | String c r => negb (prev && p c) && no_adjacent p (p c) r
  end.

Definition starts_with (p : ascii -> bool) (s : string) : bool :=
  match s with
  | EmptyString => false
  | String c _ => p c
  end.

Fixpoint ends_with (p : ascii -> bool) (s : string) : bool :=
  match s with
  | EmptyString => false
  | String c EmptyString => p c
  | String _ r => ends_with p r
  end.

Definition is_blank (c : ascii) : bool := Ascii.eqb c " ".
Definition is_underscore (c : ascii) : bool := Ascii.eqb c "_".
Definition is_letter (c : ascii) : bool := is_upper c || is_lower c.

(** Letters, blanks, hyphens and underscores: the characters of a name
    written in camel, snake, kebab or title case. *)
Definition is_name_char (c : ascii) : bool :=
  is_letter c || is_blank c || is_dash c.

Definition kebab_char (c : ascii) : bool :=
  negb (is_upper c) && negb (is_blank c) && negb (is_underscore c).

(** What [to_kebab_case] gives back: no capital, blank or underscore, no
    two hyphens in a row and none at either end. *)
Definition kebab_form (s : string) : bool :=
  all_chars kebab_char s
  && no_adjacent is_hyphen false s
  && negb (starts_with is_hyphen s)
  && negb (ends_with is_hyphen s).

(** The part the two conversions share: capitals split off and lowered,
    blanks, hyphens and underscores merged into single underscores. *)
Definition snake (s : string) : string :=
  sub_dash_runs false (replace " " "_" (lower (sub_before_upper true s))).

(** Lower-case letters and blanks: what is left of a name when
    [to_title_case] comes to capitalise it. *)
Definition is_word_char (c : ascii) : bool := is_lower c || is_blank c.

(** [to_title_case] up to the stripping, run on [title_from cased v] from
    the middle of a string: [at_start] and [in_run] are the flags of the
    two substitutions there. *)
Definition title_round (at_start cased in_run : bool) (v : string) : string :=
  replace "_" " "
    (sub_dash_runs in_run
       (replace " " "_"
          (lower (sub_before_upper at_start (title_from cased v))))).

(** *** Shapes of schemas and reference maps *)

(** No mapping of the tree has a [$ref] key. *)
Fixpoint no_ref_token (v : Value) : bool :=
  match v with
  | VDict o =>
      negb (has_key "$ref" o) && forallb (fun kv => no_ref_token (snd kv)) o
  | VList l => forallb no_ref_token l
  | _ => true
  end.

(** Some mapping of the tree holds a [$ref] whose last path segment is
    [k]. *)
Fixpoint mentions (k : string) (v : Value) : bool :=
  match v with
  | VDict o =>
      match assoc "$ref" o with
      | Some (VStr r) => String.eqb (ref_key_of r) k
      | _ => false
      end
      || existsb (fun kv => mentions k (snd kv)) o
  | VList l => existsb (mentions k) l
  | _ => false
  end.

(** Every [$ref] that resolution can meet in the tree is a string that
    names an entry of the reference map. *)
Fixpoint refs_closed (ref_map : Dict) (v : Value) : bool :=
  match v with
  | VDict o =>
      if has_key "$ref" o then
        match assoc "$ref" o with
        | Some (VStr r) => has_key (ref_key_of r) ref_map
        | _ => false
        end
      else forallb (fun kv => refs_closed ref_map (snd kv)) o
  | VList l => forallb (refs_closed ref_map) l
  | _ => true
  end.

Definition ref_map_closed (ref_map : Dict) : bool :=
  forallb (fun kv => refs_closed ref_map (snd kv)) ref_map.

(** [Reaches ref_map obj k]: walking [obj] the way [_resolve] does, through
    members, items and the targets of references, leads to a [$ref] to the
    name [k]. *)
Inductive Reaches (ref_map : Dict) : Value -> string -> Prop :=
| reach_ref (o : Dict) (r : string) :
    assoc "$ref" o = Some (VStr r) ->
    Reaches ref_map (VDict o) (ref_key_of r)
| reach_target (o : Dict) (r : string) (target : Value) (k : string) :
    assoc "$ref" o = Some (VStr r) ->
    assoc (ref_key_of r) ref_map = Some target ->
    Reaches ref_map target k ->
    Reaches ref_map (VDict o) k
| reach_member (o : Dict) (key : string) (v : Value) (k : string) :
    has_key "$ref" o = false ->
    In (key, v) o ->
    Reaches ref_map v k ->
    Reaches ref_map (VDict o) k
| reach_item (l : list Value) (v : Value) (k : string) :
    In v l ->
    Reaches ref_map v k ->
    Reaches ref_map (VList l) k.

(** A self-referencing pair: the schema leads to a definition that leads
    back to itself. *)
Definition cyclic (ref_map : Dict) (obj : Value) : Prop :=
  exists k target,
    Reaches ref_map obj k /\
    assoc k ref_map = Some target /\
    Reaches ref_map target k.

(** The interpreter's default recursion limit. *)
Definition default_recursion_limit : nat := 1000.

Definition ref_to (name : string) : Value :=
  VDict [("$ref", VStr (String.append "#/$defs/" name))].

(** A linked node: a definition with a reference to itself. *)
Definition node_defs : Dict :=
  [("Node", VDict [("type", VStr "object");
                   ("properties", VDict [("next", ref_to "Node")])])].

(** Two schemas over [node_defs]: one meets a reference to a missing
    definition before the self-referencing one, the other after it. *)
Definition missing_then_cycle : Dict :=
  [("type", VStr "object");
   ("properties", VDict [("a", ref_to "Missing"); ("b", ref_to "Node")])].

Definition cycle_then_missing : Dict :=
  [("type", VStr "object");
   ("properties", VDict [("a", ref_to "Node"); ("b", ref_to "Missing")])].

(** *** Union branches *)

(** [i] is the first position of [l] where [p] answers [True], every
    position before it answering [False]. *)
Definition first_match {A} (p : A -> result bool) (l : list A) (i : nat)
  : Prop :=
  exists x,
    nth_error l i = Some x /\
    p x = Ok true /\
    forall j y, j < i -> nth_error l j = Some y -> p y = Ok false.

(** A stand-in for the validator that checks the [type] keyword alone, the
    way JSON Schema reads it: a boolean is neither an integer nor a
    number. *)
Definition type_validator (value : Value) (schema : Schema) : bool :=
  match type_ schema with
  | Some (TypeOne t) =>
      match t, value with
      | NULL, VNone => true
      | BOOLEAN, VBool _ => true
      | INTEGER, VInt _ => true
      | NUMBER, VInt _ => true
      | STRING, VStr _ => true
      | ARRAY, VList _ => true
      | OBJECT, VDict _ => true
      | _, _ => false
      end
  | _ => true
  end.

Definition type_validation (value : Value) (schema : Schema) : Validation :=
  if type_validator value schema then Valid else Invalid.

(** The same stand-in behind a check of the schema, as the metaschema
    makes it: names listed twice under [required] are a [SchemaError]. *)
Definition checked_validation (value : Value) (schema : Schema)
  : Validation :=
  match required schema with
  | Some names =>
      if Nat.eqb (length (nodup string_dec names)) (length names)
      then type_validation value schema
      else Raises (SchemaError "required has non-unique elements")
  | None => type_validation value schema
  end.

(** [anyOf: [{type: string}, {type: integer}]] with default [5]. *)
Definition string_or_integer : Schema :=
  set_default (VInt 5)
    (set_anyOf (Some [typed STRING; typed INTEGER]) empty_schema).

(** A union of two object branches told apart by the literal of their
    [kind] property. *)
Definition pet_branch (kind : string) : Schema :=
  set_properties (Some [("kind", set_const (VStr kind) (typed STRING))])
                 (typed OBJECT).

(** [anyOf: [{type: string}, {type: integer}]] without a default, and a
    state that holds [5] for it. *)
Definition string_or_integer_plain : Schema :=
  set_anyOf (Some [typed STRING; typed INTEGER]) empty_schema.

Definition port_is_five : Dict := [("port", VInt 5)].

(** [anyOf] with a branch whose [required] lists a name twice before the
    integer branch, and default [5]. *)
Definition broken_or_integer : Schema :=
  set_default (VInt 5)
    (set_anyOf
       (Some [set_required (Some ["a"; "a"]) (typed OBJECT); typed INTEGER])
       empty_schema).

Definition cat_or_dog : Schema :=
  set_default (VDict [("kind", VStr "dog")])
    (set_discriminator (Some (mkDiscriminator "kind" None))
       (set_oneOf (Some [pet_branch "cat"; pet_branch "dog"]) empty_schema)).

(** *** Key paths into the state *)

(** Reading a path without touching the state: the value under the last
    segment when every segment is there, in mappings all the way. *)
Fixpoint lookup_path (parts : list string) (state : Value) : option Value :=
  match parts, state with
  | [], _ => None
  | part :: rest, VDict d =>
      match rest with
      | [] => assoc part d
      | _ :: _ =>
          match assoc part d with
          | Some sub => lookup_path rest sub
          | None => None
          end
      end
  | _ :: _, _ => None
  end.

(** Every segment before the last that is there holds a mapping, and so
    does the state itself. *)
Fixpoint mapping_path (parts : list string) (state : Value) : bool :=
  match state with
  | VDict d =>
      match parts with
      | [] => true
      | part :: rest =>
          match rest with
          | [] => true
          | _ :: _ =>
              match assoc part d with
              | Some sub => mapping_path rest sub
              | None => true
              end
          end
      end
  | _ => false
  end.

Fixpoint is_prefix (q parts : list string) : bool :=
  match q, parts with
  | [], _ => true
  | a :: q', b :: parts' => String.eqb a b && is_prefix q' parts'
  | _ :: _, [] => false
  end.

(** The mappings a read leaves behind for a run of missing segments: each
    one empty but for the next. *)
Fixpoint chain (segments : list string) : Dict :=
  match segments with
  | [] => []
  | part :: rest => [(part, VDict (chain rest))]
  end.

(** The state with a mapping under every segment of [segments], the
    missing ones created. *)
Fixpoint ensure (segments : list string) (d : Dict) : Dict :=
  match segments with
  | [] => d
  | part :: rest =>
      match assoc part d with
      | Some (VDict sub) => dict_set part (VDict (ensure rest sub)) d
      | Some _ => d
      | None => dict_set part (VDict (ensure rest [])) d
      end
  end.

(** The absent marker for a missing value. *)
Definition or_None (o : option Value) : Value :=
  match o with Some v => v | None => VNone end.

(** A list of objects that each hold a list, as the wizard stores it. *)
Definition stored_items : Dict :=
  [("items", VList [VDict [("tags", VList [VStr "a"])]])].

(** *** The walk of [render_schema] *)

Fixpoint contains_char (c : ascii) (s : string) : bool :=
  match s with
  | EmptyString => false
  | String c' r => Ascii.eqb c' c || contains_char c r
  end.

(** What follows the entry of key [k] in a mapping. *)
Fixpoint after_key (k : string) (d : Dict) : Dict :=
  match d with
  | [] => []
  | (k', _) :: r => if String.eqb k k' then r else after_key k r
  end.

(** A sequence of item assignments, carried out in order. *)
Definition assign_all (assignments : Dict) (d : Dict) : Dict :=
  fold_left (fun d kv => dict_set (fst kv) (snd kv) d) assignments d.

(** The item assignments [unpack_additional_properties] makes for one
    item of [data]. *)
Definition unpack_assignments (additional_properties_key : string)
           (item : string * Value) : Dict :=
  match snd item with
  | VDict add =>
      if String.eqb (fst item) additional_properties_key then
        map (fun kv => (fst kv, unpack_value additional_properties_key (snd kv)))
            add
      else [(fst item, unpack_value additional_properties_key (snd item))]
  | v => [(fst item, v)]
  end.

(** A renderer that is a function of its arguments alone: it neither
    reads nor writes the state and raises nothing. *)
Definition fixed_renderer {A} (f : string -> Schema -> bool -> A)
  : string -> Schema -> bool -> Method A :=
  fun key property_schema is_item st => (Ok (f key property_schema is_item), st).

Definition fixed_property_renderer
           (f : string -> Schema -> bool -> bool -> Value)
  : string -> Schema -> bool -> bool -> Method Value :=
  fun key property_schema required is_item st =>
    (Ok (f key property_schema required is_item), st).

(** The assignments the property loop makes with a fixed renderer. *)
Definition property_assignments
           (f : string -> Schema -> bool -> bool -> Value)
           (required : list string) (props : list (string * Schema)) : Dict :=
  map (fun kp =>
         (fst kp,
          f (fst kp) (with_title (fst kp) (snd kp))
            (in_required (fst kp) required) false))
      props.

Definition titled (props : list (string * Schema))
  : list (string * Schema) :=
  map (fun kp => (fst kp, with_title (fst kp) (snd kp))) props.

(** Sample backends: every property answers its own key; the region
    answers one extra entry, or an entry named like the sentinel. *)
Definition echo_key : string -> Schema -> bool -> bool -> Value :=
  fun key _ _ _ => VStr key.

Definition one_extra : string -> Schema -> bool -> Dict :=
  fun _ _ _ => [("extra", VInt 1)].

Definition sentinel_named : string -> Schema -> bool -> Dict :=
  fun _ _ _ => [(ADDITIONAL_PROPERTIES_KEY, VInt 1)].

(** [{type: object, additionalProperties: true}], without and with a
    declared property. *)
Definition open_object : Schema :=
  set_additionalProperties (Some (inl true)) (typed OBJECT).

Definition open_object_with_name : Schema :=
  set_properties (Some [("name", typed STRING)]) open_object.



(** The schema as a walk leaves it, and the assignments the walk makes
    to the state when both renderers are fixed. *)
Definition walked_schema (s : Schema) : Schema :=
  match properties s with
  | Some (p :: ps) => set_properties (Some (titled (p :: ps))) s
  | _ => s
  end.

Definition walk_assignments
           (f : string -> Schema -> bool -> bool -> Value)
           (g : string -> Schema -> bool -> Dict) (s : Schema) : Dict :=
  match properties s with
  | Some (p :: ps) =>
      (property_assignments f
         (match required s with Some l => l | None => [] end) (p :: ps)
       ++ (if truthy_additional (additionalProperties s)
           then [(ADDITIONAL_PROPERTIES_KEY,
                  VDict (g ADDITIONAL_PROPERTIES_KEY (walked_schema s) false))]
           else []))%list
  | _ => []
  end.

(** No declared property has the key separator in its name. *)
Definition plain_keys (s : Schema) : Prop :=
  forall props k p,
    properties s = Some props -> In (k, p) props ->
    contains_char KEY_SEPARATOR k = false.

End Notions.
Import Notions.

(* ================================================================== *)
(** ** config_wizard/utils.py: keys for new entries *)
(* ================================================================== *)

Module NewKeys.

Definition is_digit (c : ascii) : bool :=
  Nat.leb 48 (nat_of_ascii c) && Nat.leb (nat_of_ascii c) 57.

(** The longest run of digits a string starts with: what [(\d+)] takes. *)
Fixpoint leading_digits (s : string) : string :=
  match s with
  | EmptyString => EmptyString
  | String c r => if is_digit c then String c (leading_digits r) else EmptyString
  end.

(** What is left of [s] behind the prefix [p], if [s] starts with it. *)
Fixpoint after_prefix (p s : string) : option string :=
  match p, s with
  | EmptyString, _ => Some s
  | String a p', String b s' =>
      if Ascii.eqb a b then after_prefix p' s' else None
  | String _ _, EmptyString => None
  end.

(** [int(digits)] for a string of digits. *)
Definition int_of_digits (digits : string) : Z :=
  match NilEmpty.uint_of_string digits with
  | Some d => Z.of_N (N.of_uint d)
  | None => 0%Z
  end.

(** [str(n)] for an integer. *)
Definition str_of_int (n : Z) : string := NilZero.string_of_int (Z.to_int n).

(** [m.group(1)] when [re.match(r"new_item_(\d+)", k)] succeeds. *)
Definition item_digits (k : string) : option string :=
  match after_prefix "new_item_" k with
  | Some rest =>
      match leading_digits rest with
      | EmptyString => None
      | digits => Some digits
      end
  | None => None
  end.

(** The number [int(m.group(1))] stands for. *)
Definition item_index (k : string) : option Z :=
  match after_prefix "new_item_" k with
  | Some rest =>
      match leading_digits rest with
      | EmptyString => None
      | digits => Some (int_of_digits digits)
      end
  | None => None
  end.

(** The interpreter limits the conversions between [int] and [str]:
    with [sys.get_int_max_str_digits()] set (it is [0] for no limit and at
    least 640 otherwise, 4300 by default), a conversion of more digits
    than that raises a [ValueError].  An interpreter without the limit is
    one where it is [0]. *)
Definition exceeds (max_str_digits n : nat) : bool :=
  Nat.ltb 0 max_str_digits && Nat.ltb max_str_digits n.

(** The message, which spells the limit out, is cut down to its fixed
    part. *)
Definition conversion_error : PyErr :=
  ValueError "Exceeds the limit for integer string conversion".

(** [int(digits)] *)
Definition int_of_str (max_str_digits : nat) (digits : string) : result Z :=
  if exceeds max_str_digits (String.length digits)
  then Err conversion_error
  else Ok (int_of_digits digits).

(** [f"{n}"]; the sign does not count. *)
Definition str_of (max_str_digits : nat) (n : Z) : result string :=
  if exceeds max_str_digits (String.length (str_of_int (Z.abs n)))
  then Err conversion_error
  else Ok (str_of_int n).

(** The generator [(int(m.group(1)) for k in keys if (m := ...))]. *)
Definition item_indices (keys : list string) : list Z :=
  flat_map (fun k => match item_index k with
                     | Some i => [i]
                     | None => []
                     end) keys.

(** [max(values, default=default)] *)
Definition max_or (values : list Z) (default : Z) : Z :=
  match values with
  | [] => default
  | x :: r => fold_left Z.max r x
  end.

(** The generator as [max] consumes it: the conversion of a key is made
    when its turn comes, and the first that fails ends it. *)
Fixpoint converted_indices (max_str_digits : nat) (keys : list string)
  : result (list Z) :=
  match keys with
  | [] => Ok []
  | k :: rest =>
      match item_digits k with
      | Some digits =>
          bind (int_of_str max_str_digits digits)
               (fun i => bind (converted_indices max_str_digits rest)
                              (fun l => Ok (i :: l)))
      | None => converted_indices max_str_digits rest
      end
  end.

Definition get_next_key (max_str_digits : nat) (keys : list string)
  : result string :=
  bind (converted_indices max_str_digits keys)
       (fun indices =>
          bind (str_of max_str_digits (max_or indices (-1) + 1))
               (fun text => Ok (String.append "new_item_" text))).

End NewKeys.
Import NewKeys.

(* ================================================================== *)
(** ** Further notions: shapes of values *)
(* ================================================================== *)

Module Shapes.

(** No name occurs twice. *)
Fixpoint distinct (names : list string) : bool :=
  match names with
  | [] => true
  | x :: r => negb (existsb (String.eqb x) r) && distinct r
  end.

Definition is_dict (v : Value) : bool :=
  match v with VDict _ => true | _ => false end.

(** A mapping holds an entry under [key] whose value is a mapping: the
    kind of entry [unpack_additional_properties] dissolves. *)
Definition has_block (key : string) (d : Dict) : bool :=
  existsb (fun kv => String.eqb (fst kv) key && is_dict (snd kv)) d.

(** No mapping reached through mappings holds such an entry. *)
Fixpoint block_free (key : string) (v : Value) : bool :=
  match v with
  | VDict d =>
      forallb (fun kv =>
                 negb (String.eqb (fst kv) key && is_dict (snd kv))
                 && block_free key (snd kv)) d
  | _ => true
  end.

(** Every mapping reached through mappings has its keys once each, as a
    Python [dict] does. *)
Fixpoint well_keyed (v : Value) : bool :=
  match v with
  | VDict d => distinct (keys d) && forallb (fun kv => well_keyed (snd kv)) d
  | _ => true
  end.

(** The nesting of a tree: one for a leaf, one more than its deepest
    member or item for a mapping or a list. *)
Fixpoint height (v : Value) : nat :=
  match v with
  | VDict d => S (fold_right (fun kv m => Nat.max (height (snd kv)) m) 0 d)
  | VList l => S (fold_right (fun x m => Nat.max (height x) m) 0 l)
  | _ => 1
  end.

(** The state with [value] under the path, the missing mappings on the
    way created. *)
Fixpoint set_path (parts : list string) (value : Value) (d : Dict) : Dict :=
  match parts with
  | [] => d
  | part :: rest =>
      match rest with
      | [] => dict_set part value d
      | _ :: _ =>
          match assoc part d with
          | Some (VDict sub) =>
              dict_set part (VDict (set_path rest value sub)) d
          | Some _ => d
          | None => dict_set part (VDict (set_path rest value [])) d
          end
      end
  end.

End Shapes.
Import Shapes.

(* ================================================================== *)
(** ** config_wizard/backends/streamlit.py: the collecting renderers *)
(* ================================================================== *)

Module Renderers.

(** [set(names)]: every name once. *)
Definition py_set (names : list string) : list string :=
  nodup string_dec names.

(** [s.union({name})] *)
Definition set_union_one (s : list string) (name : string) : list string :=
  if in_dec string_dec name s then s else (s ++ [name])%list.

(** [f"{property_key}{KEY_SEPARATOR}{key}"] *)
Definition extend_key (property_key key : string) : string :=
  String.append property_key (String KEY_SEPARATOR key).

(** The schema of the items of a dictionary: the [additionalProperties]
    schema, or the catch-all [ResolvedSchema(type=OBJECT, title="Value")]
    when it is a boolean; with none there is nothing to classify and the
    attribute access fails. *)
Definition dict_item_schema (property_schema : Schema) : result Schema :=
  match additionalProperties property_schema with
  | Some (inr item_schema) => Ok item_schema
  | Some (inl _) => Ok (set_title (Some "Value") (typed OBJECT))
  | None => Err AttributeError
  end.

(** The statement that files one rendered item of a dictionary in
    [output_dict]: [key] is the item's key in [data_dict],
    [output_item_key] the one its key field gave back. *)
Definition file_item (output_dict : Dict) (key output_item_key : string)
           (output_item_value : Value) : Dict :=
  if negb (Nat.eqb (length (py_set (keys output_dict)))
                   (length (set_union_one (py_set (keys output_dict))
                                          output_item_key)))
  then dict_set key output_item_value output_dict
  else dict_set output_item_key output_item_value output_dict.

Section DictItems.
(** [_render_dict_item_input], with the widgets it draws: given the
    length, the item's key and value, its key path and schema, it answers
    the key, the value and whether the item was removed. *)
Variable render_dict_item_input :
  nat -> string -> Value -> string -> Schema -> Method (string * Value * bool).

(** The loop of [_render_dict_items] over [data_dict.items()]. *)
Fixpoint dict_items_loop (current_length : nat) (items : Dict)
         (property_key : string) (item_schema : Schema)
         (output_dict : Dict) (st : Dict) : result Dict * Dict :=
  match items with
  | [] => (Ok output_dict, st)
  | (key, value) :: rest =>
      match render_dict_item_input current_length key value
              (extend_key property_key key) item_schema st with
      | (Err e, st1) => (Err e, st1)
      | (Ok (output_item_key, output_item_value, is_removed), st1) =>
          dict_items_loop current_length rest property_key item_schema
            (if is_removed then output_dict
             else file_item output_dict key output_item_key output_item_value)
            st1
      end
  end.

(** [_render_dict_items]; [add_pressed] and [clear_pressed] are what the
    two buttons answer.  It gives back [data_dict] as it leaves it next to
    the output: the key added on [add_pressed] is written to the very
    mapping it was handed. *)
Definition _render_dict_items (max_str_digits : nat)
           (add_pressed clear_pressed : bool)
           (data_dict : Dict) (property_key : string)
           (property_schema : Schema) (st : Dict)
  : result Dict * Dict * Dict :=
  match (if add_pressed
         then bind (get_next_key max_str_digits (keys data_dict))
                   (fun new_key => Ok (dict_set new_key VNone data_dict))
         else Ok data_dict) with
  | Err e => (Err e, data_dict, st)
  | Ok handed =>
      let data_dict := if clear_pressed then [] else handed in
      match dict_item_schema property_schema with
      | Err e => (Err e, handed, st)
      | Ok item_schema =>
          let (r, st') :=
            dict_items_loop (length data_dict) data_dict property_key
                            item_schema [] st in
          (r, handed, st')
      end
  end.

End DictItems.

Section ObjectProperties.
(** [self._render_property] and [self._render_additional_properties] as
    [_render_object_properties] calls them.  Each is handed a schema
    object and can write to it, as the renderers of this class do (a
    nested object has the titles of its properties filled in, a mapping
    whose data is the schema's default has a key added to it): next to its
    result and the state it gives back the schema as it leaves it. *)
Variable render_property :
  string -> Schema -> bool -> bool -> Dict -> result Value * Schema * Dict.
Variable render_additional_properties :
  string -> Schema -> bool -> Dict -> result Dict * Schema * Dict.

(** [f"{parent_property_key}{KEY_SEPARATOR}additionalProperties"] *)
Definition additional_key (parent_property_key : string) : string :=
  extend_key parent_property_key "additionalProperties".

(** The loop of [_render_object_properties] over the declared
    properties: what it collects, the properties as it leaves them and the
    state. *)
Fixpoint object_properties_loop (parent_property_key : string)
         (required : list string) (is_item : bool)
         (props : list (string * Schema)) (output_object : Dict) (st : Dict)
  : result Dict * list (string * Schema) * Dict :=
  match props with
  | [] => (Ok output_object, [], st)
  | (property_key, property_schema) :: rest =>
      match render_property
              (extend_key parent_property_key property_key)
              (with_title property_key property_schema)
              (in_required property_key required) is_item st with
      | (Err e, property_schema', st1) =>
          (Err e, (property_key, property_schema') :: rest, st1)
      | (Ok value, property_schema', st1) =>
          match object_properties_loop parent_property_key required is_item
                  rest (dict_set property_key value output_object) st1 with
          | (r, rest', st2) =>
              (r, (property_key, property_schema') :: rest', st2)
          end
      end
  end.

(** [_render_object_properties]: the declared properties, then
    [output_object.update(...)] with the additional ones. *)
Definition _render_object_properties (parent_property_key : string)
           (parent_property_schema : Schema) (is_item : bool) (st : Dict)
  : result Dict * Schema * Dict :=
  match properties parent_property_schema with
  | None => (Err AttributeError, parent_property_schema, st)
  | Some props =>
      match object_properties_loop parent_property_key
              (match required parent_property_schema with
               | Some l => l
               | None => []
               end)
              is_item props [] st with
      | (Err e, props', st1) =>
          (Err e, set_properties (Some props') parent_property_schema, st1)
      | (Ok output_object, props', st1) =>
          let parent := set_properties (Some props') parent_property_schema in
          if truthy_additional (additionalProperties parent) then
            match render_additional_properties
                    (additional_key parent_property_key) parent is_item st1
            with
            | (Err e, parent', st2) => (Err e, parent', st2)
            | (Ok additional, parent', st2) =>
                (Ok (assign_all additional output_object), parent', st2)
            end
          else (Ok output_object, parent, st1)
      end
  end.

End ObjectProperties.

(** *** [_render_enum_input] *)

(** [options.index(value)]: the first position whose element equals the
    value. *)
Fixpoint list_index (options : list Value) (value : Value) (i : nat)
  : option nat :=
  match options with
  | [] => None
  | x :: r => if py_eq x value then Some i else list_index r value (S i)
  end.

(** What [_render_enum_input] does: it answers a value itself, or hands
    the options, with the index of the default if there is one, to a
    select box. *)
Inductive EnumInput : Type :=
| Answered (value : Value)
| Selectbox (options : list Value) (index : option nat).

(** The message of the [ValueError] of [list.index], which spells the
    value out, is cut down to its fixed part. *)
Definition not_in_list : PyErr := ValueError "is not in list".

Definition _render_enum_input (property_schema : Schema)
  : result EnumInput :=
  let options := match enum property_schema with
                 | Some (x :: r) => x :: r
                 | _ => []
                 end in
  let default_value := default property_schema in
  bind
    (match default_value with
     | VNone => Ok None
     | _ =>
         match list_index options default_value 0 with
         | Some i => Ok (Some i)
         | None => Err not_in_list
         end
     end)
    (fun index =>
       match options with
       | [only] => Ok (Answered only)
       | _ => Ok (Selectbox options index)
       end).

(** *** The labels of union branches *)

Definition data_type_value (t : DataType) : string :=
  match t with
  | NULL => "null" | STRING => "string" | NUMBER => "number"
  | INTEGER => "integer" | BOOLEAN => "boolean" | ARRAY => "array"
  | OBJECT => "object"
  end.

(** The key a branch gets in [schemas_mapping]: its title in kebab case,
    or its type followed by its format in brackets. *)
Definition branch_label (schema : Schema) : result string :=
  if truthy_str (title schema) then
    Ok (to_kebab_case
          (match title schema with Some t => t | None => EmptyString end))
  else
    match type_ schema with
    | Some (TypeOne t) =>
        Ok (strip is_space
              (String.append (data_type_value t)
                 (String " "
                    (if truthy_str (schema_format schema) then
                       String.append "("
                         (String.append
                            (match schema_format schema with
                             | Some f => f
                             | None => EmptyString
                             end) ")")
                     else EmptyString))))
    | _ => Err AttributeError
    end.

(** The dictionary comprehension that builds [schemas_mapping]. *)
Fixpoint schemas_mapping_from (union_schemas : list Schema)
         (mapping : list (string * Schema))
  : result (list (string * Schema)) :=
  match union_schemas with
  | [] => Ok mapping
  | schema :: rest =>
      bind (branch_label schema)
           (fun label =>
              schemas_mapping_from rest (dict_set label schema mapping))
  end.

Definition schemas_mapping (union_schemas : list Schema)
  : result (list (string * Schema)) :=
  schemas_mapping_from union_schemas [].

End Renderers.
Import Renderers.

(* ================================================================== *)
(** ** Sample widgets and schemas for the collecting renderers *)
(* ================================================================== *)

Module Samples.

(** An item whose key field gives one name back whatever the item, and
    one whose key field is left alone; neither is removed. *)
Definition answers_key (name : string)
  : nat -> string -> Value -> string -> Schema
    -> Method (string * Value * bool) :=
  fun _ _ value _ _ st => (Ok (name, value, false), st).

Definition keeps_key
  : nat -> string -> Value -> string -> Schema
    -> Method (string * Value * bool) :=
  fun _ key value _ _ st => (Ok (key, value, false), st).

(** A region that answers a [port] of its own and one more entry. *)
Definition port_region
  : string -> Schema -> bool -> Dict -> result Dict * Schema * Dict :=
  fun _ s _ st => (Ok [("port", VInt 8080); ("extra", VInt 1)], s, st).

(** A renderer of properties that answers the key it is asked under and
    fills in the titles of the properties of the schema it is handed, as
    the renderer of a nested object does. *)
Definition echo_and_title
  : string -> Schema -> bool -> bool -> Dict -> result Value * Schema * Dict :=
  fun key s _ _ st =>
    (Ok (VStr key),
     match properties s with
     | Some props => set_properties (Some (titled props)) s
     | None => s
     end,
     st).

(** An object that holds an object. *)
Definition nested_server : Schema :=
  set_additionalProperties (Some (inl true))
    (set_properties
       (Some [("name", typed STRING);
              ("port",
               set_properties (Some [("number", typed INTEGER)])
                              (typed OBJECT))])
       (typed OBJECT)).

(** Branches of a union: two untitled strings, an untitled e-mail
    string and a titled object. *)
Definition email_string : Schema :=
  set_format (Some "email") (typed STRING).

Definition titled_object : Schema :=
  set_title (Some "My Object") (typed OBJECT).

End Samples.
Import Samples.

(* ================================================================== *)
(** ** The first failure of a resolution *)
(* ================================================================== *)

Module FirstFailure.

(** [MeetsMissing ref_map d obj k]: within the depth bound [d], the walk of
    [_resolve] over [obj] comes to a [$ref] to the name [k], which the map
    lacks, before anything else fails: in a mapping or a list every member
    before the one that leads there resolves, and the target of a
    reference on the way is where the walk goes on. *)
Inductive MeetsMissing (ref_map : Dict) : nat -> Value -> string -> Prop :=
| meets_ref (d : nat) (o : Dict) (r : string) :
    assoc "$ref" o = Some (VStr r) ->
    assoc (ref_key_of r) ref_map = None ->
    MeetsMissing ref_map (S d) (VDict o) (ref_key_of r)
| meets_target (d : nat) (o : Dict) (r : string) (target : Value)
               (k : string) :
    assoc "$ref" o = Some (VStr r) ->
    assoc (ref_key_of r) ref_map = Some target ->
    MeetsMissing ref_map d target k ->
    MeetsMissing ref_map (S d) (VDict o) k
| meets_member (d : nat) (before : Dict) (key : string) (v : Value)
               (after : Dict) (k : string) :
    has_key "$ref" (before ++ (key, v) :: after)%list = false ->
    (forall kv, In kv before ->
                exists res, _resolve d ref_map (snd kv) = Ok res) ->
    MeetsMissing ref_map d v k ->
    MeetsMissing ref_map (S d) (VDict (before ++ (key, v) :: after)%list) k
| meets_item (d : nat) (before : list Value) (v : Value)
             (after : list Value) (k : string) :
    (forall x, In x before -> exists res, _resolve d ref_map x = Ok res) ->
    MeetsMissing ref_map d v k ->
    MeetsMissing ref_map (S d) (VList (before ++ v :: after)%list) k.

(** A model with a nested model that is defined and one whose definition
    was taken out of the map. *)
Definition nested_defs : Dict :=
  [("NestedSchema",
    VDict [("properties",
            VDict [("nested_field", VDict [("type", VStr "string")])]);
           ("type", VStr "object")])].

Definition main_with_missing : Dict :=
  [("properties",
    VDict [("nested", ref_to "NestedSchema");
           ("invalid_ref", ref_to "NonExistentSchema")]);
   ("type", VStr "object")].

End FirstFailure.
Import FirstFailure.

(* ================================================================== *)
(** ** Renderers that read the state *)
(* ================================================================== *)

Module Stability.










End Stability.
Import Stability.

(* ================================================================== *)
(** ** Names in the order they first come *)
(* ================================================================== *)

Module Order.

(** The names of a list, each once, in the order in which they first
    come: the keys of a mapping that is filled by assigning under them in
    turn. *)
Definition first_seen (names : list string) : list string :=
  fold_left
    (fun seen name =>
       if existsb (String.eqb name) seen then seen
       else (seen ++ [name])%list)
    names [].

End Order.
Import Order.

(* ================================================================== *)
(** ** Properties of the classifier *)
(* ================================================================== *)

Lemma InputType_eqb_eq (a b : InputType) :
  InputType_eqb a b = true <-> a = b.
Proof.
  split.
  - destruct a, b; intro H; solve [reflexivity | discriminate H].
  - intros ->. destruct b; reflexivity.
Qed.

Lemma is_unmapped_In (k : InputType) :
  is_unmapped k = true <-> In k unmapped_kinds.
Proof.
  unfold is_unmapped. rewrite existsb_exists. split.
  - intros [x [Hin Heq]]. apply InputType_eqb_eq in Heq. now subst.
  - intro Hin. exists k. split; [assumption | now apply InputType_eqb_eq].
Qed.

Lemma string_input_type_mapped (f : option string) :
  is_unmapped (string_input_type f) = false.
Proof.
  destruct f as [f|]; [|reflexivity]. unfold string_input_type.
  repeat match goal with
         | |- context [String.eqb ?a ?b] => destruct (String.eqb a b)
         end; reflexivity.
Qed.

(** No schema is classified as one of the six kinds without a return
    statement. *)
Lemma property_to_input_type_mapped (prop : Schema) :
  is_unmapped (property_to_input_type prop) = false.
Proof.
  unfold property_to_input_type.
  destruct (truthy_list (enum prop)); [reflexivity|].
  destruct (discriminator prop); [reflexivity|].
  destruct (truthy_list (anyOf prop) || truthy_list (oneOf prop));
    [reflexivity|].
  destruct (type_ prop) as [[[]|]|]; try reflexivity.
  - apply string_input_type_mapped.
  - destruct (truthy_list (prefixItems prop)); [reflexivity|].
    destruct (truthy_flag (uniqueItems prop)); reflexivity.
  - destruct (truthy_list (properties prop)); [reflexivity|].
    destruct (truthy_additional (additionalProperties prop)); reflexivity.
Qed.

Lemma plain_string_classified (s : Schema) :
  plain_string s ->
  property_to_input_type s = string_input_type (schema_format s).
Proof.
  intros (He & Hd & Ha & Ho & Ht). unfold property_to_input_type.
  now rewrite He, Hd, Ha, Ho, Ht.
Qed.

(** C1 fails as stated: a plain string node whose format is [file_path] is
    classified as text, not as the file-path kind. *)
Lemma C1_file_path_format_is_text :
  plain_string (schema_for FILE_PATH) /\
  schema_format (schema_for FILE_PATH) = Some "file_path" /\
  property_to_input_type (schema_for FILE_PATH) <> FILE_PATH.
Proof.
  repeat split; discriminate.
Qed.

(** C1 (amended): every kind other than file_path, directory_path, date,
    time, datetime and duration is the class of the schema shaped for it,
    and those six are the class of no schema; a plain string node whose
    format is one of email, password, uri, uuid, ipv4, ipv6 gets the
    like-named kind, and with any other format, or none, it is text. *)
Theorem C1_classifier_kinds :
  (forall k, is_unmapped k = false ->
             property_to_input_type (schema_for k) = k) /\
  (forall s k, In k unmapped_kinds -> property_to_input_type s <> k) /\
  (forall s f, plain_string s -> schema_format s = Some f ->
               In f known_formats ->
               input_type_value (property_to_input_type s) = f) /\
  (forall s, plain_string s ->
             (forall f, schema_format s = Some f -> ~ In f known_formats) ->
             property_to_input_type s = TEXT).
Proof.
  split; [|split; [|split]].
  - intros k Hk. destruct k; solve [reflexivity | discriminate Hk].
  - intros s k Hin Heq. apply is_unmapped_In in Hin.
    rewrite <- Heq, property_to_input_type_mapped in Hin. discriminate.
  - intros s f Hs Hf Hin. rewrite (plain_string_classified s Hs), Hf.
    simpl in Hin.
    repeat (destruct Hin as [<- | Hin]; [reflexivity|]). contradiction.
  - intros s Hs Hf. rewrite (plain_string_classified s Hs).
    destruct (schema_format s) as [f|]; [|reflexivity].
    specialize (Hf f eq_refl). unfold string_input_type.
    repeat match goal with
           | |- context [String.eqb ?a ?b] =>
               destruct (String.eqb_spec a b) as [->|_];
               [exfalso; apply Hf; simpl; tauto|]
           end.
    reflexivity.
Qed.

Lemma C1_classifier_kinds_witness :
  property_to_input_type (schema_for SET) = SET /\
  property_to_input_type (schema_for DATE) <> DATE /\
  input_type_value (property_to_input_type (schema_for UUID)) = "uuid" /\
  property_to_input_type (schema_for DIRECTORY_PATH) = TEXT.
Proof.
  destruct C1_classifier_kinds as (H1 & H2 & H3 & H4).
  split; [|split; [|split]].
  - apply H1. reflexivity.
  - apply H2. simpl. tauto.
  - apply H3.
    + repeat split; reflexivity.
    + reflexivity.
    + simpl. tauto.
  - apply H4.
    + repeat split; reflexivity.
    + intros f Hf. injection Hf as <-. simpl.
      intros [H|[H|[H|[H|[H|[H|[]]]]]]]; discriminate H.
Defined.

(** C10: no schema is classified as duration, the one kind that no case
    of [_render_property] takes, so every property goes into one of the
    cases and never on to the warning and the [NotImplementedError]. *)
Theorem C10_unsupported_branch_unreachable :
  forall (property_key : string) (property_schema : Schema),
    property_to_input_type property_schema <> DURATION /\
    (forall k, render_case k = None <-> k = DURATION) /\
    exists r, _render_property_route property_key property_schema
              = Rendered r (property_to_input_type property_schema).
Proof.
  intros property_key property_schema.
  assert (Hd : property_to_input_type property_schema <> DURATION).
  { intro Heq. pose proof (property_to_input_type_mapped property_schema) as H.
    rewrite Heq in H. discriminate H. }
  split; [exact Hd|]. split.
  - intro k. split.
    + destruct k; intro H; solve [reflexivity | discriminate H].
    + intros ->. reflexivity.
  - unfold _render_property_route.
    destruct (property_to_input_type property_schema);
      try (eexists; reflexivity).
    now contradiction Hd.
Qed.

(* ================================================================== *)
(** ** Properties of the collection buttons *)
(* ================================================================== *)

Lemma add_button_disabled_iff (property_schema : Schema) (n : Z) :
  _is_add_button_disabled property_schema n = true <->
  (readOnly property_schema = Some true \/
   exists m, maxItems property_schema = Some m /\ (m <= n)%Z).
Proof.
  unfold _is_add_button_disabled, truthy_flag.
  assert (Hro : forall b : bool,
             true = true <->
             (Some true = Some true \/
              exists m, maxItems property_schema = Some m /\ (m <= n)%Z))
    by (intros _; split; auto).
  assert (Hmax : forall o : option bool, o <> Some true ->
             (match maxItems property_schema with
              | Some m => if Z.geb n m then true else false
              | None => false
              end = true <->
              (o = Some true \/
               exists m, maxItems property_schema = Some m /\ (m <= n)%Z))).
  { intros o Ho. destruct (maxItems property_schema) as [m|].
    - destruct (Z.geb_spec n m) as [Hge|Hlt]; split; intro H.
      + right. exists m. split; [reflexivity | lia].
      + reflexivity.
      + discriminate H.
      + destruct H as [H | [m' [H Hle]]]; [contradiction|].
        injection H as <-. lia.
    - split; intro H; [discriminate H|].
      destruct H as [H | [m' [H _]]]; [contradiction | discriminate H]. }
  destruct (readOnly property_schema) as [[]|].
  - apply (Hro true).
  - apply Hmax. discriminate.
  - apply Hmax. discriminate.
Qed.

(** Removing one of [n] items leaves [n - 1], fewer than [minItems]
    exactly when [n <= minItems]. *)
Lemma remove_button_disabled_iff (property_schema : Schema) (n : Z) :
  _is_remove_button_disabled property_schema n = true <->
  (readOnly property_schema = Some true \/
   exists m, minItems property_schema = Some m /\ (n - 1 < m)%Z).
Proof.
  unfold _is_remove_button_disabled, truthy_flag.
  assert (Hmin : forall o : option bool, o <> Some true ->
             (match minItems property_schema with
              | Some m => if Z.leb n m then true else false
              | None => false
              end = true <->
              (o = Some true \/
               exists m, minItems property_schema = Some m /\ (n - 1 < m)%Z))).
  { intros o Ho. destruct (minItems property_schema) as [m|].
    - destruct (Z.leb_spec n m) as [Hle|Hgt]; split; intro H.
      + right. exists m. split; [reflexivity | lia].
      + reflexivity.
      + discriminate H.
      + destruct H as [H | [m' [H Hlt]]]; [contradiction|].
        injection H as <-. lia.
    - split; intro H; [discriminate H|].
      destruct H as [H | [m' [H _]]]; [contradiction | discriminate H]. }
  destruct (readOnly property_schema) as [[]|].
  - split; auto.
  - apply Hmin. discriminate.
  - apply Hmin. discriminate.
Qed.

Lemma clear_button_disabled_iff (property_schema : Schema) :
  _is_clear_button_disabled property_schema = true <->
  readOnly property_schema <> Some true.
Proof.
  unfold _is_clear_button_disabled, truthy_flag.
  destruct (readOnly property_schema) as [[]|]; split; intro H;
    try reflexivity; try discriminate; try discriminate H.
  now contradiction H.
Qed.

(** C4: on a read-only list the add and remove buttons are disabled, yet
    [_is_clear_button_disabled] answers [False]; on the same list not
    read-only it answers [True]. *)
Theorem C4_clear_button_of_read_only_list :
  let read_only_list := set_readOnly (Some true) (schema_for LIST) in
  _is_add_button_disabled read_only_list 1 = true /\
  _is_remove_button_disabled read_only_list 1 = true /\
  _is_clear_button_disabled read_only_list = false /\
  _is_clear_button_disabled (schema_for LIST) = true.
Proof.
  repeat split.
Qed.

(* ================================================================== *)
(** ** Properties of the case conversions *)
(* ================================================================== *)

Ltac ascii_cases c := destruct c as [[] [] [] [] [] [] [] []].

Lemma to_lower_not_upper (c : ascii) : is_upper (to_lower c) = false.
Proof. ascii_cases c; reflexivity. Qed.

Lemma to_lower_fixed (c : ascii) : is_upper c = false -> to_lower c = c.
Proof. unfold to_lower. now intros ->. Qed.

Lemma all_chars_map (p : ascii -> bool) (f : ascii -> ascii) (s : string) :
  all_chars p (map_string f s) = all_chars (fun c => p (f c)) s.
Proof.
  induction s as [|c r IH]; simpl; [reflexivity | now rewrite IH].
Qed.

Lemma all_chars_impl (p q : ascii -> bool) (s : string) :
  (forall c, p c = true -> q c = true) ->
  all_chars p s = true -> all_chars q s = true.
Proof.
  intro Hpq. induction s as [|c r IH]; simpl; [reflexivity|].
  intro H. apply andb_true_iff in H as [Hc Hr].
  now rewrite (Hpq c Hc), (IH Hr).
Qed.

Lemma all_chars_true (p : ascii -> bool) (s : string) :
  (forall c, p c = true) -> all_chars p s = true.
Proof.
  intro Hp. induction s as [|c r IH]; simpl; [reflexivity|].
  now rewrite Hp, IH.
Qed.

Lemma map_string_fixed (f : ascii -> ascii) (s : string) :
  all_chars (fun c => Ascii.eqb (f c) c) s = true -> map_string f s = s.
Proof.
  induction s as [|c r IH]; simpl; [reflexivity|].
  intro H. apply andb_true_iff in H as [Hc Hr].
  apply Ascii.eqb_eq in Hc. now rewrite Hc, (IH Hr).
Qed.

Lemma no_adjacent_map (p : ascii -> bool) (f : ascii -> ascii) (b : bool)
      (s : string) :
  no_adjacent p b (map_string f s) = no_adjacent (fun c => p (f c)) b s.
Proof.
  revert b. induction s as [|c r IH]; intro b; simpl;
    [reflexivity | now rewrite IH].
Qed.

Lemma no_adjacent_weaken (p : ascii -> bool) (b : bool) (s : string) :
  no_adjacent p b s = true -> no_adjacent p false s = true.
Proof.
  destruct s as [|c r]; simpl; [reflexivity|].
  intro H. apply andb_true_iff in H as [_ Hr]. exact Hr.
Qed.

Lemma no_adjacent_ext (p q : ascii -> bool) (b : bool) (s : string) :
  (forall c, p c = q c) -> no_adjacent p b s = no_adjacent q b s.
Proof.
  intro Hpq. revert b. induction s as [|c r IH]; intro b; simpl;
    [reflexivity | now rewrite Hpq, IH].
Qed.

(** *** The stages of the conversions, one by one *)

Lemma lower_no_upper (s : string) :
  all_chars (fun c => negb (is_upper c)) (lower s) = true.
Proof.
  unfold lower. rewrite all_chars_map. apply all_chars_true.
  intro c. now rewrite to_lower_not_upper.
Qed.

Lemma lower_fixed (s : string) :
  all_chars (fun c => negb (is_upper c)) s = true -> lower s = s.
Proof.
  intro H. apply map_string_fixed. revert H. apply all_chars_impl.
  intros c Hc. apply negb_true_iff in Hc. rewrite (to_lower_fixed c Hc).
  apply Ascii.eqb_refl.
Qed.

Lemma sub_before_upper_fixed (b : bool) (s : string) :
  all_chars (fun c => negb (is_upper c)) s = true ->
  sub_before_upper b s = s.
Proof.
  revert b. induction s as [|c r IH]; intros b H; simpl in *; [reflexivity|].
  apply andb_true_iff in H as [Hc Hr]. apply negb_true_iff in Hc.
  now rewrite Hc, andb_false_r, (IH false Hr).
Qed.

Lemma replace_fixed (a b : ascii) (s : string) :
  all_chars (fun c => negb (Ascii.eqb c a)) s = true -> replace a b s = s.
Proof.
  intro H. apply map_string_fixed. revert H. apply all_chars_impl.
  intros c Hc. apply negb_true_iff in Hc. rewrite Hc. apply Ascii.eqb_refl.
Qed.

(** What [sub_dash_runs] writes: what it read, less the hyphens. *)
Lemma sub_dash_runs_chars (p : ascii -> bool) (b : bool) (s : string) :
  p "_"%char = true ->
  all_chars (fun c => is_dash c || p c) s = true ->
  all_chars (fun c => negb (is_hyphen c) && p c) (sub_dash_runs b s) = true.
Proof.
  intros Hp. revert b. induction s as [|c r IH]; intros b H; simpl in *;
    [reflexivity|].
  apply andb_true_iff in H as [Hc Hr].
  destruct (is_dash c) eqn:Hd.
  - destruct b; simpl; [now apply IH|]. rewrite Hp. now apply IH.
  - simpl in *. rewrite Hc, (IH false Hr).
    unfold is_dash in Hd. apply orb_false_iff in Hd as [Hh _].
    unfold is_hyphen. now rewrite Hh.
Qed.

Lemma sub_dash_runs_no_adjacent (b : bool) (s : string) :
  no_adjacent is_underscore b (sub_dash_runs b s) = true.
Proof.
  revert b. induction s as [|c r IH]; intro b; simpl; [reflexivity|].
  destruct (is_dash c) eqn:Hd.
  - destruct b; [apply IH|]. simpl. apply IH.
  - simpl. unfold is_dash in Hd. apply orb_false_iff in Hd as [_ Hu].
    fold (is_underscore c) in Hu. rewrite Hu, andb_false_r. simpl. apply IH.
Qed.

(** On a string with single hyphens and no underscore, [sub_dash_runs]
    only turns each hyphen into an underscore. *)
Lemma sub_dash_runs_single (b : bool) (s : string) :
  all_chars (fun c => negb (is_underscore c)) s = true ->
  no_adjacent is_hyphen b s = true ->
  sub_dash_runs b s = replace "-" "_" s.
Proof.
  revert b. induction s as [|c r IH]; intros b Hu Ha; simpl in *;
    [reflexivity|].
  apply andb_true_iff in Hu as [Hc Hr].
  apply andb_true_iff in Ha as [Hb Ha].
  apply negb_true_iff in Hc. unfold is_underscore in Hc.
  unfold is_dash. rewrite Hc, orb_false_r.
  fold (is_hyphen c). destruct (is_hyphen c) eqn:Hh.
  - rewrite andb_true_r in Hb. apply negb_true_iff in Hb. subst b.
    rewrite (IH true Hr Ha). unfold replace. simpl.
    unfold is_hyphen in Hh. now rewrite Hh.
  - rewrite (IH false Hr Ha). unfold replace. simpl.
    unfold is_hyphen in Hh. now rewrite Hh.
Qed.

Lemma replace_round (s : string) :
  all_chars (fun c => negb (is_underscore c)) s = true ->
  replace "_" "-" (replace "-" "_" s) = s.
Proof.
  unfold replace. induction s as [|c r IH]; simpl; [reflexivity|].
  intro H. apply andb_true_iff in H as [Hc Hr].
  rewrite (IH Hr). f_equal.
  apply negb_true_iff in Hc. unfold is_underscore in Hc.
  destruct (Ascii.eqb_spec c "-") as [->|Hn]; [reflexivity|].
  now rewrite Hc.
Qed.

(** *** Stripping *)

Lemma lstrip_chars (p q : ascii -> bool) (s : string) :
  all_chars p s = true -> all_chars p (lstrip q s) = true.
Proof.
  induction s as [|c r IH]; simpl; [reflexivity|].
  intro H. destruct (q c); [|exact H].
  apply andb_true_iff in H as [_ Hr]. now apply IH.
Qed.

Lemma rstrip_chars (p q : ascii -> bool) (s : string) :
  all_chars p s = true -> all_chars p (rstrip q s) = true.
Proof.
  induction s as [|c r IH]; simpl; [reflexivity|].
  intro H. apply andb_true_iff in H as [Hc Hr]. specialize (IH Hr).
  destruct (rstrip q r) as [|c' r'].
  - destruct (q c); simpl; [reflexivity | now rewrite Hc].
  - simpl in *. now rewrite Hc, IH.
Qed.

Lemma strip_chars (p q : ascii -> bool) (s : string) :
  all_chars p s = true -> all_chars p (strip q s) = true.
Proof.
  intro H. unfold strip. now apply rstrip_chars, lstrip_chars.
Qed.

Lemma lstrip_no_adjacent (p q : ascii -> bool) (b : bool) (s : string) :
  no_adjacent p b s = true -> no_adjacent p false (lstrip q s) = true.
Proof.
  revert b. induction s as [|c r IH]; intros b H; simpl; [reflexivity|].
  destruct (q c).
  - simpl in H. apply andb_true_iff in H as [_ Hr]. now apply (IH (p c)).
  - now apply (no_adjacent_weaken p b).
Qed.

Lemma rstrip_no_adjacent (p q : ascii -> bool) (b : bool) (s : string) :
  no_adjacent p b s = true -> no_adjacent p b (rstrip q s) = true.
Proof.
  revert b. induction s as [|c r IH]; intros b H; simpl; [reflexivity|].
  simpl in H. apply andb_true_iff in H as [Hc Hr].
  specialize (IH (p c) Hr).
  destruct (rstrip q r) as [|c' r'].
  - destruct (q c); simpl; [reflexivity | now rewrite Hc].
  - change (no_adjacent p b (String c (String c' r')) = true).
    simpl. simpl in IH. now rewrite Hc, IH.
Qed.

Lemma lstrip_start (p : ascii -> bool) (s : string) :
  starts_with p (lstrip p s) = false.
Proof.
  induction s as [|c r IH]; simpl; [reflexivity|].
  destruct (p c) eqn:Hc; [exact IH | exact Hc].
Qed.

Lemma rstrip_start (p : ascii -> bool) (s : string) :
  starts_with p s = false -> starts_with p (rstrip p s) = false.
Proof.
  destruct s as [|c r]; simpl; [reflexivity|]. intro Hc.
  destruct (rstrip p r); rewrite ?Hc; simpl; exact Hc.
Qed.

Lemma rstrip_end (p : ascii -> bool) (s : string) :
  ends_with p (rstrip p s) = false.
Proof.
  induction s as [|c r IH]; simpl; [reflexivity|].
  destruct (rstrip p r) as [|c' r'] eqn:Hr.
  - destruct (p c) eqn:Hc; simpl; [reflexivity | exact Hc].
  - exact IH.
Qed.

Lemma lstrip_fixed (p : ascii -> bool) (s : string) :
  starts_with p s = false -> lstrip p s = s.
Proof.
  destruct s as [|c r]; simpl; [reflexivity|]. now intros ->.
Qed.

Lemma rstrip_fixed (p : ascii -> bool) (s : string) :
  ends_with p s = false -> rstrip p s = s.
Proof.
  induction s as [|c r IH]; [reflexivity|].
  intro H. simpl. destruct r as [|c' r'].
  - simpl in *. now rewrite H.
  - rewrite (IH H). reflexivity.
Qed.

Lemma strip_fixed (p : ascii -> bool) (s : string) :
  starts_with p s = false -> ends_with p s = false -> strip p s = s.
Proof.
  intros Hs He. unfold strip. rewrite (lstrip_fixed p s Hs).
  now apply rstrip_fixed.
Qed.

Lemma strip_ends (p : ascii -> bool) (s : string) :
  starts_with p (strip p s) = false /\ ends_with p (strip p s) = false.
Proof.
  unfold strip. split.
  - apply rstrip_start, lstrip_start.
  - apply rstrip_end.
Qed.

Lemma no_adjacent_agree (p q : ascii -> bool) (b : bool) (s : string) :
  all_chars (fun c => Bool.eqb (p c) (q c)) s = true ->
  no_adjacent p b s = no_adjacent q b s.
Proof.
  revert b. induction s as [|c r IH]; intros b H; simpl in *; [reflexivity|].
  apply andb_true_iff in H as [Hc Hr]. apply Bool.eqb_prop in Hc.
  now rewrite Hc, (IH _ Hr).
Qed.

Lemma snake_chars (s : string) :
  all_chars (fun c => negb (is_hyphen c)
                      && (negb (is_upper c) && negb (is_blank c)))
            (snake s) = true.
Proof.
  unfold snake.
  apply (sub_dash_runs_chars
           (fun c => negb (is_upper c) && negb (is_blank c)));
    [reflexivity|].
  unfold replace. rewrite all_chars_map.
  generalize (lower_no_upper (sub_before_upper true s)).
  apply all_chars_impl. intro c. ascii_cases c; intro H;
    solve [reflexivity | discriminate H].
Qed.

Lemma snake_no_adjacent (s : string) :
  no_adjacent is_underscore false (snake s) = true.
Proof. apply sub_dash_runs_no_adjacent. Qed.

Lemma to_kebab_case_form (s : string) :
  kebab_form (to_kebab_case s) = true.
Proof.
  unfold to_kebab_case. fold (snake s).
  set (y := strip is_hyphen (replace "_" "-" (snake s))).
  assert (Hy : all_chars kebab_char y = true).
  { apply strip_chars. unfold replace. rewrite all_chars_map.
    generalize (snake_chars s). apply all_chars_impl.
    intro c. ascii_cases c; intro H; solve [reflexivity | discriminate H]. }
  assert (Hl : lower y = y).
  { apply lower_fixed. revert Hy. apply all_chars_impl.
    intros c Hc. unfold kebab_char in Hc.
    apply andb_true_iff in Hc as [Hc _]. now apply andb_true_iff in Hc as [Hc _]. }
  rewrite Hl. unfold kebab_form. rewrite Hy.
  destruct (strip_ends is_hyphen (replace "_" "-" (snake s))) as [Hs He].
  fold y in Hs, He. rewrite Hs, He. simpl. rewrite !andb_true_r.
  unfold y, strip. apply rstrip_no_adjacent.
  apply (lstrip_no_adjacent is_hyphen is_hyphen false).
  unfold replace. rewrite no_adjacent_map.
  rewrite (no_adjacent_agree _ is_underscore).
  - apply snake_no_adjacent.
  - generalize (snake_chars s). apply all_chars_impl.
    intro c. ascii_cases c; intro H; solve [reflexivity | discriminate H].
Qed.

Lemma kebab_form_fixed (s : string) :
  kebab_form s = true -> to_kebab_case s = s.
Proof.
  unfold kebab_form. intro H.
  apply andb_true_iff in H as [H He]. apply andb_true_iff in H as [H Hs].
  apply andb_true_iff in H as [Hc Ha].
  apply negb_true_iff in He, Hs.
  assert (Hup : all_chars (fun c => negb (is_upper c)) s = true).
  { revert Hc. apply all_chars_impl. intros c Hk. unfold kebab_char in Hk.
    apply andb_true_iff in Hk as [Hk _]. now apply andb_true_iff in Hk as [Hk _]. }
  assert (Hbl : all_chars (fun c => negb (Ascii.eqb c " ")) s = true).
  { revert Hc. apply all_chars_impl. intros c Hk. unfold kebab_char in Hk.
    apply andb_true_iff in Hk as [Hk _]. now apply andb_true_iff in Hk as [_ Hk]. }
  assert (Hus : all_chars (fun c => negb (is_underscore c)) s = true).
  { revert Hc. apply all_chars_impl. intros c Hk. unfold kebab_char in Hk.
    now apply andb_true_iff in Hk as [_ Hk]. }
  unfold to_kebab_case.
  rewrite (sub_before_upper_fixed true s Hup), (lower_fixed s Hup).
  rewrite (replace_fixed " " "_" s Hbl).
  rewrite (sub_dash_runs_single false s Hus Ha).
  rewrite (replace_round s Hus).
  rewrite (strip_fixed is_hyphen s Hs He).
  apply lower_fixed, Hup.
Qed.

Lemma to_kebab_case_idempotent (s : string) :
  to_kebab_case (to_kebab_case s) = to_kebab_case s.
Proof. apply kebab_form_fixed, to_kebab_case_form. Qed.

(** *** Title case of a name *)

Lemma lower_letter_facts (c : ascii) :
  is_lower c = true ->
  is_upper c = false /\ is_upper (to_upper c) = true /\
  to_lower (to_upper c) = c /\ to_lower c = c /\
  Ascii.eqb c " " = false /\ Ascii.eqb c "_" = false /\ is_dash c = false.
Proof.
  ascii_cases c; intro H; solve [discriminate H | repeat split].
Qed.

Lemma title_from_lower (b : bool) (c : ascii) (r : string) :
  is_lower c = true ->
  title_from b (String c r)
  = String (if b then c else to_upper c) (title_from true r).
Proof. intro H. simpl. now rewrite H. Qed.

Lemma sub_before_upper_cons (b : bool) (c : ascii) (r : string) :
  sub_before_upper b (String c r)
  = if negb b && is_upper c
    then String "_" (String c (sub_before_upper false r))
    else String c (sub_before_upper false r).
Proof. reflexivity. Qed.

Lemma sub_dash_runs_cons (b : bool) (c : ascii) (r : string) :
  sub_dash_runs b (String c r)
  = if is_dash c
    then (if b then sub_dash_runs true r else String "_" (sub_dash_runs true r))
    else String c (sub_dash_runs false r).
Proof. reflexivity. Qed.

Lemma title_round_lower (at_start cased in_run : bool) (c : ascii)
      (r : string) :
  is_lower c = true ->
  (at_start = true \/ cased = true \/ in_run = true) ->
  (cased = true -> in_run = false) ->
  (at_start = true -> in_run = false) ->
  title_round at_start cased in_run (String c r)
  = String c (title_round false true false r).
Proof.
  intros Hc Hst Hci Hai.
  destruct (lower_letter_facts c Hc) as (Hu & Huu & Hlu & Hl & Hb & Hus & Hd).
  unfold title_round. rewrite (title_from_lower cased c r Hc).
  rewrite sub_before_upper_cons.
  destruct cased.
  - rewrite Hu, andb_false_r. rewrite (Hci eq_refl).
    unfold lower, replace. cbn [map_string]. rewrite Hl, Hb.
    rewrite sub_dash_runs_cons, Hd. cbn [map_string]. now rewrite Hus.
  - rewrite Huu, andb_true_r. destruct at_start.
    + rewrite (Hai eq_refl). unfold lower, replace. cbn [negb map_string].
      rewrite Hlu, Hb. rewrite sub_dash_runs_cons, Hd. cbn [map_string].
      now rewrite Hus.
    + destruct Hst as [H | [H | ->]]; try discriminate H.
      unfold lower, replace. cbn [negb map_string].
      rewrite Hlu, Hb. change (to_lower "_") with "_"%char.
      change (Ascii.eqb "_" " ") with false. cbv iota.
      rewrite sub_dash_runs_cons. change (is_dash "_") with true. cbv iota.
      rewrite sub_dash_runs_cons, Hd. cbn [map_string]. now rewrite Hus.
Qed.

Lemma title_round_blank (at_start cased : bool) (r : string) :
  title_round at_start cased false (String " " r)
  = String " " (title_round false false true r).
Proof. destruct at_start; reflexivity. Qed.

Lemma title_round_fixed (v : string) :
  all_chars is_word_char v = true ->
  (no_adjacent is_blank false v = true -> title_round true false false v = v)
  /\ (no_adjacent is_blank false v = true ->
      title_round false true false v = v)
  /\ (no_adjacent is_blank true v = true ->
      title_round false false true v = v).
Proof.
  induction v as [|c r IH]; [intros _; repeat split|].
  intro H. cbn [all_chars] in H. apply andb_true_iff in H as [Hc Hr].
  destruct (IH Hr) as (_ & IHletter & IHblank).
  unfold is_word_char in Hc. apply orb_true_iff in Hc as [Hc | Hc].
  - assert (Hb : is_blank c = false).
    { unfold is_blank. now destruct (lower_letter_facts c Hc) as (_&_&_&_&Hb&_). }
    assert (Hnext : forall b, no_adjacent is_blank b (String c r) = true ->
                              String c (title_round false true false r)
                              = String c r).
    { intros b Ha. cbn [no_adjacent] in Ha. rewrite Hb in Ha.
      apply andb_true_iff in Ha as [_ Ha]. now rewrite (IHletter Ha). }
    repeat split; intro Ha.
    + rewrite (title_round_lower true false false c r Hc); eauto.
    + rewrite (title_round_lower false true false c r Hc); eauto.
    + rewrite (title_round_lower false false true c r Hc); eauto.
  - unfold is_blank in Hc. apply Ascii.eqb_eq in Hc. subst c.
    assert (Hnext : no_adjacent is_blank false (String " " r) = true ->
                    String " " (title_round false false true r)
                    = String " "%char r).
    { intro Ha. cbn [no_adjacent] in Ha.
      apply andb_true_iff in Ha as [_ Ha]. now rewrite (IHblank Ha). }
    repeat split; intro Ha.
    + rewrite title_round_blank. auto.
    + rewrite title_round_blank. auto.
    + discriminate Ha.
Qed.

Lemma sub_before_upper_chars (p : ascii -> bool) (b : bool) (s : string) :
  p "_"%char = true ->
  all_chars p s = true -> all_chars p (sub_before_upper b s) = true.
Proof.
  intro Hp. revert b. induction s as [|c r IH]; intros b H; [reflexivity|].
  cbn [all_chars] in H. apply andb_true_iff in H as [Hc Hr].
  rewrite sub_before_upper_cons.
  destruct (negb b && is_upper c); cbn [all_chars];
    now rewrite ?Hp, Hc, (IH false Hr).
Qed.

(** The name as [to_title_case] has it just before capitalising. *)
Lemma title_words (s : string) :
  all_chars is_name_char s = true ->
  let v := strip is_space (replace "_" " " (snake s)) in
  all_chars is_word_char v = true /\ no_adjacent is_blank false v = true.
Proof.
  intros Hs v.
  assert (Hsn : all_chars (fun c => negb (is_hyphen c)
                                    && (is_lower c || is_underscore c))
                          (snake s) = true).
  { unfold snake.
    apply (sub_dash_runs_chars (fun c => is_lower c || is_underscore c));
      [reflexivity|].
    unfold replace, lower. rewrite !all_chars_map.
    generalize (sub_before_upper_chars is_name_char true s eq_refl Hs).
    apply all_chars_impl. intro c.
    ascii_cases c; intro H; solve [reflexivity | discriminate H]. }
  split.
  - apply strip_chars. unfold replace. rewrite all_chars_map.
    revert Hsn. apply all_chars_impl. intro c.
    ascii_cases c; intro H; solve [reflexivity | discriminate H].
  - unfold v, strip. apply rstrip_no_adjacent.
    apply (lstrip_no_adjacent is_blank is_space false).
    unfold replace. rewrite no_adjacent_map.
    rewrite (no_adjacent_agree _ is_underscore).
    + apply snake_no_adjacent.
    + generalize (snake_chars s). apply all_chars_impl. intro c.
      ascii_cases c; intro H; solve [reflexivity | discriminate H].
Qed.

Lemma to_title_case_idempotent_on_names (s : string) :
  all_chars is_name_char s = true ->
  to_title_case (to_title_case s) = to_title_case s.
Proof.
  intro Hs. destruct (title_words s Hs) as [Hw Ha].
  set (v := strip is_space (replace "_" " " (snake s))) in *.
  assert (Ht : to_title_case s = title_from false v) by reflexivity.
  rewrite Ht.
  change (to_title_case (title_from false v))
    with (str_title (strip is_space (title_round true false false v))).
  destruct (title_round_fixed v Hw) as (Hround & _ & _).
  rewrite (Hround Ha).
  destruct (strip_ends is_space (replace "_" " " (snake s))) as [Hst Hen].
  fold v in Hst, Hen. now rewrite (strip_fixed is_space v Hst Hen).
Qed.

(** C9 fails as stated: [to_title_case] is not idempotent.  It turns
    "a1b" into "A1B", where the capital after the digit starts a new word
    the second time: "A1 B". *)
Lemma C9_title_case_not_idempotent :
  to_title_case "a1b" = "A1B" /\
  to_title_case (to_title_case "a1b") = "A1 B" /\
  to_title_case (to_title_case "a1b") <> to_title_case "a1b".
Proof.
  repeat split. discriminate.
Qed.

(** C9 (amended): the two examples and the empty string are as claimed;
    [to_kebab_case] is idempotent on every ASCII string; [to_title_case] is
    idempotent on every string of letters, blanks, hyphens and
    underscores. *)
Theorem C9_case_conversion :
  to_title_case "camelCaseTest" = "Camel Case Test" /\
  to_kebab_case "with_multiple_words" = "with-multiple-words" /\
  to_title_case "" = "" /\
  to_kebab_case "" = "" /\
  (forall s, is_ascii s = true ->
             to_kebab_case (to_kebab_case s) = to_kebab_case s) /\
  (forall s, all_chars is_name_char s = true ->
             to_title_case (to_title_case s) = to_title_case s).
Proof.
  repeat split.
  - intros s _. apply to_kebab_case_idempotent.
  - apply to_title_case_idempotent_on_names.
Qed.

Lemma C9_case_conversion_witness :
  to_kebab_case (to_kebab_case "  My-HTTP_server 2 ")
  = to_kebab_case "  My-HTTP_server 2 " /\
  to_title_case (to_title_case "with-Mixed_case andBlanks")
  = to_title_case "with-Mixed_case andBlanks".
Proof.
  destruct C9_case_conversion as (_ & _ & _ & _ & Hk & Ht).
  split.
  - apply Hk. reflexivity.
  - apply Ht. reflexivity.
Defined.

(* ================================================================== *)
(** ** Properties of reference resolution *)
(* ================================================================== *)

Lemma assoc_In {V : Type} (k : string) (d : list (string * V)) (v : V) :
  assoc k d = Some v -> In (k, v) d.
Proof.
  induction d as [|[k' v'] r IH]; simpl; [discriminate|].
  destruct (String.eqb_spec k k') as [->|Hn].
  - intro H. injection H as ->. now left.
  - intro H. right. now apply IH.
Qed.

Lemma has_key_assoc {V : Type} (k : string) (d : list (string * V)) :
  has_key k d = true <-> exists v, assoc k d = Some v.
Proof.
  unfold has_key. destruct (assoc k d) as [v|]; split.
  - intros _. now exists v.
  - reflexivity.
  - discriminate.
  - intros [v H]. discriminate H.
Qed.

Lemma has_key_false {V : Type} (k : string) (d : list (string * V)) :
  has_key k d = false <-> assoc k d = None.
Proof.
  unfold has_key. destruct (assoc k d); split; intro H;
    solve [reflexivity | discriminate H].
Qed.

Lemma mapM_ok_In {A B} (f : A -> result B) (l : list A) (ys : list B) (x : A) :
  mapM f l = Ok ys -> In x l -> exists y, f x = Ok y /\ In y ys.
Proof.
  revert ys. induction l as [|a r IH]; intros ys H Hin; [contradiction|].
  simpl in H. destruct (f a) as [y|e] eqn:Hfa; [|discriminate H].
  destruct (mapM f r) as [ys'|e] eqn:Hr; [|discriminate H].
  injection H as <-. destruct Hin as [->|Hin].
  - exists y. split; [assumption | now left].
  - destruct (IH ys' eq_refl Hin) as [y' [Hy Hin']].
    exists y'. split; [assumption | now right].
Qed.

Lemma mapM_ok_each {A B} (f : A -> result B) (l : list A) (ys : list B) :
  mapM f l = Ok ys -> Forall2 (fun x y => f x = Ok y) l ys.
Proof.
  revert ys. induction l as [|a r IH]; intros ys H; simpl in H.
  - injection H as <-. constructor.
  - destruct (f a) as [y|e] eqn:Hfa; [|discriminate H].
    destruct (mapM f r) as [ys'|e] eqn:Hr; [|discriminate H].
    injection H as <-. constructor; [assumption | now apply IH].
Qed.

(** The equations of [_resolve], case by case. *)
Lemma _resolve_ref (d : nat) (ref_map o : Dict) (r : string) :
  assoc "$ref" o = Some (VStr r) ->
  _resolve (S d) ref_map (VDict o)
  = match assoc (ref_key_of r) ref_map with
    | Some target => _resolve d ref_map target
    | None => Err (KeyError (not_found_message (ref_key_of r)))
    end.
Proof.
  intro H. cbn [_resolve]. unfold has_key, py_getitem. now rewrite H.
Qed.

Lemma _resolve_members (d : nat) (ref_map o : Dict) :
  has_key "$ref" o = false ->
  _resolve (S d) ref_map (VDict o)
  = bind (mapM (fun kv : string * Value =>
                  bind (_resolve d ref_map (snd kv))
                       (fun v => Ok (fst kv, v))) o)
         (fun o' => Ok (VDict o')).
Proof. intro H. cbn [_resolve]. now rewrite H. Qed.

Lemma _resolve_items (d : nat) (ref_map : Dict) (l : list Value) :
  _resolve (S d) ref_map (VList l)
  = bind (mapM (_resolve d ref_map) l) (fun l' => Ok (VList l')).
Proof. reflexivity. Qed.

(** If resolution returns although the walk leads to a reference to [k],
    then [k] is defined and its definition resolves at a smaller depth. *)
Lemma reaches_resolved (ref_map : Dict) (obj : Value) (k : string) :
  Reaches ref_map obj k ->
  forall depth res,
    _resolve depth ref_map obj = Ok res ->
    exists target d res',
      assoc k ref_map = Some target /\ d < depth /\
      _resolve d ref_map target = Ok res'.
Proof.
  induction 1 as [o r Hr | o r target k Hr Ht _ IH
                  | o key v k Hno Hin _ IH | l v k Hin _ IH];
    intros [|d] res Hres; try discriminate Hres.
  - rewrite (_resolve_ref d ref_map o r Hr) in Hres.
    destruct (assoc (ref_key_of r) ref_map) as [target|]; [|discriminate Hres].
    exists target, d, res. repeat split; [lia | assumption].
  - rewrite (_resolve_ref d ref_map o r Hr), Ht in Hres.
    destruct (IH d res Hres) as (t & d' & res' & Hk & Hlt & Hok).
    exists t, d', res'. repeat split; [assumption | lia | assumption].
  - rewrite (_resolve_members d ref_map o Hno) in Hres.
    destruct (mapM _ o) as [o'|e] eqn:Hm; [|discriminate Hres].
    destruct (mapM_ok_In _ _ _ _ Hm Hin) as [y [Hy _]]. simpl in Hy.
    destruct (_resolve d ref_map v) as [v'|e] eqn:Hv; [|discriminate Hy].
    destruct (IH d v' Hv) as (t & d' & res' & Hk & Hlt & Hok).
    exists t, d', res'. repeat split; [assumption | lia | assumption].
  - rewrite _resolve_items in Hres.
    destruct (mapM _ l) as [l'|e] eqn:Hm; [|discriminate Hres].
    destruct (mapM_ok_In _ _ _ _ Hm Hin) as [v' [Hv _]].
    destruct (IH d v' Hv) as (t & d' & res' & Hk & Hlt & Hok).
    exists t, d', res'. repeat split; [assumption | lia | assumption].
Qed.

(** A definition that leads back to itself resolves at no depth. *)
Lemma self_reference_never_resolves (ref_map : Dict) (k : string)
      (target : Value) :
  assoc k ref_map = Some target ->
  Reaches ref_map target k ->
  forall depth res, _resolve depth ref_map target <> Ok res.
Proof.
  intros Hk Hreach depth.
  induction depth as [depth IH] using lt_wf_ind. intros res Hres.
  destruct (reaches_resolved ref_map target k Hreach depth res Hres)
    as (t & d & res' & Hk' & Hlt & Hok).
  rewrite Hk in Hk'. injection Hk' as <-.
  exact (IH d Hlt res' Hok).
Qed.

Lemma cyclic_never_resolves (ref_map : Dict) (obj : Value) :
  cyclic ref_map obj ->
  forall depth res, _resolve depth ref_map obj <> Ok res.
Proof.
  intros (k & target & Hobj & Hk & Hself) depth res Hres.
  destruct (reaches_resolved ref_map obj k Hobj depth res Hres)
    as (t & d & res' & Hk' & _ & Hok).
  rewrite Hk in Hk'. injection Hk' as <-.
  exact (self_reference_never_resolves ref_map k target Hk Hself d res' Hok).
Qed.

Lemma reaches_missing_never_resolves (ref_map : Dict) (obj : Value)
      (k : string) :
  Reaches ref_map obj k -> assoc k ref_map = None ->
  forall depth res, _resolve depth ref_map obj <> Ok res.
Proof.
  intros Hreach Hk depth res Hres.
  destruct (reaches_resolved ref_map obj k Hreach depth res Hres)
    as (t & _ & _ & Hk' & _).
  rewrite Hk in Hk'. discriminate Hk'.
Qed.

(** With every reference closed, the only way to fail is to run out of
    depth. *)
Lemma closed_resolve_outcome (ref_map : Dict) :
  ref_map_closed ref_map = true ->
  forall depth obj,
    refs_closed ref_map obj = true ->
    _resolve depth ref_map obj = Err RecursionError \/
    exists res, _resolve depth ref_map obj = Ok res.
Proof.
  intros Hmap. induction depth as [|d IH]; intros obj Hobj; [now left|].
  destruct obj as [| b | z | s | l | o]; try (right; eexists; reflexivity).
  - rewrite _resolve_items. cbn [refs_closed] in Hobj.
    induction l as [|v l IHl]; [right; eexists; reflexivity|].
    cbn [forallb] in Hobj. apply andb_true_iff in Hobj as [Hv Hl].
    cbn [mapM]. destruct (IH v Hv) as [Hrec | [v' Hok]].
    + rewrite Hrec. now left.
    + rewrite Hok. destruct (IHl Hl) as [Hrec | [res Hres]].
      * destruct (mapM (_resolve d ref_map) l); [discriminate Hrec|].
        simpl in Hrec. simpl. now left.
      * destruct (mapM (_resolve d ref_map) l); [|discriminate Hres].
        right. eexists. reflexivity.
  - cbn [refs_closed] in Hobj.
    destruct (has_key "$ref" o) eqn:Href.
    + destruct (assoc "$ref" o) as [[| | | r | |]|] eqn:Hr;
        try discriminate Hobj.
      rewrite (_resolve_ref d ref_map o r Hr).
      apply has_key_assoc in Hobj as [target Ht]. rewrite Ht.
      apply IH. unfold ref_map_closed in Hmap.
      rewrite forallb_forall in Hmap.
      exact (Hmap (ref_key_of r, target) (assoc_In _ _ _ Ht)).
    + rewrite (_resolve_members d ref_map o Href). clear Href.
      induction o as [|[key v] o IHo]; [right; eexists; reflexivity|].
      cbn [forallb snd] in Hobj. apply andb_true_iff in Hobj as [Hv Ho].
      cbn [mapM snd fst]. destruct (IH v Hv) as [Hrec | [v' Hok]].
      * rewrite Hrec. now left.
      * rewrite Hok. cbn [bind]. destruct (IHo Ho) as [Hrec | [res Hres]].
        -- destruct (mapM _ o); [discriminate Hrec|].
           simpl in Hrec. simpl. now left.
        -- destruct (mapM _ o); [|discriminate Hres].
           right. eexists. reflexivity.
Qed.

Lemma mapM_err {A B} (f : A -> result B) (l : list A) (e : PyErr) :
  mapM f l = Err e -> exists x, In x l /\ f x = Err e.
Proof.
  induction l as [|a r IH]; simpl; [discriminate|].
  destruct (f a) as [y|e'] eqn:Hfa.
  - destruct (mapM f r) as [ys|e'] eqn:Hr; [discriminate|].
    intro H. injection H as ->. destruct (IH eq_refl) as [x [Hin Hx]].
    exists x. split; [now right | assumption].
  - intro H. injection H as ->. exists a. split; [now left | assumption].
Qed.

(** A reference-not-found error names a reference that the map lacks. *)
Lemma key_error_names_absent (ref_map : Dict) :
  forall depth obj msg,
    _resolve depth ref_map obj = Err (KeyError msg) ->
    exists k, msg = not_found_message k /\ assoc k ref_map = None.
Proof.
  induction depth as [|d IH]; intros obj msg H; [discriminate H|].
  destruct obj as [| b | z | s | l | o]; try discriminate H.
  - rewrite _resolve_items in H.
    destruct (mapM (_resolve d ref_map) l) as [l'|e] eqn:Hm;
      [discriminate H|].
    simpl in H. injection H as ->.
    destruct (mapM_err _ _ _ Hm) as [x [_ Hx]]. exact (IH x msg Hx).
  - destruct (has_key "$ref" o) eqn:Href.
    + apply has_key_assoc in Href as [v Hv].
      destruct v as [| b | z | r | l | o'];
        try (cbn [_resolve] in H; unfold has_key, py_getitem in H;
             rewrite Hv in H; discriminate H).
      rewrite (_resolve_ref d ref_map o r Hv) in H.
      destruct (assoc (ref_key_of r) ref_map) as [target|] eqn:Ht.
      * exact (IH target msg H).
      * injection H as <-. now exists (ref_key_of r).
    + rewrite (_resolve_members d ref_map o Href) in H.
      destruct (mapM _ o) as [o'|e] eqn:Hm; [discriminate H|].
      simpl in H. injection H as ->.
      destruct (mapM_err _ _ _ Hm) as [[key v] [_ Hx]]. simpl in Hx.
      destruct (_resolve d ref_map v) as [v'|e] eqn:Hv; [discriminate Hx|].
      simpl in Hx. injection Hx as ->. exact (IH v msg Hv).
Qed.

Lemma assoc_members_resolved (f : Value -> result Value) (o o' : Dict)
      (k : string) :
  Forall2 (fun (x y : string * Value) =>
             bind (f (snd x)) (fun v => Ok (fst x, v)) = Ok y) o o' ->
  has_key k o' = has_key k o.
Proof.
  induction 1 as [|[kx vx] [ky vy] o o' Hxy _ IH]; [reflexivity|].
  simpl in Hxy. destruct (f vx) as [v|e]; [|discriminate Hxy].
  simpl in Hxy. injection Hxy as <- <-.
  unfold has_key in *. simpl. destruct (String.eqb k kx); [reflexivity|].
  exact IH.
Qed.

(** What resolution returns has no [$ref] left. *)
Lemma resolved_no_ref_token (ref_map : Dict) :
  forall depth obj res,
    _resolve depth ref_map obj = Ok res -> no_ref_token res = true.
Proof.
  induction depth as [|d IH]; intros obj res H; [discriminate H|].
  destruct obj as [| b | z | s | l | o];
    try (injection H as <-; reflexivity).
  - rewrite _resolve_items in H.
    destruct (mapM (_resolve d ref_map) l) as [l'|e] eqn:Hm;
      [|discriminate H].
    simpl in H. injection H as <-. cbn [no_ref_token].
    apply mapM_ok_each in Hm. clear -Hm IH.
    induction Hm as [|x y l l' Hxy _ IHl]; [reflexivity|].
    cbn [forallb]. now rewrite (IH x y Hxy), IHl.
  - destruct (has_key "$ref" o) eqn:Href.
    + pose proof Href as Hv. apply has_key_assoc in Hv as [v Hv].
      destruct v as [| b | z | r | l | o'];
        try (cbn [_resolve] in H; unfold has_key, py_getitem in H;
             rewrite Hv in H; discriminate H).
      rewrite (_resolve_ref d ref_map o r Hv) in H.
      destruct (assoc (ref_key_of r) ref_map) as [target|];
        [|discriminate H].
      exact (IH target res H).
    + rewrite (_resolve_members d ref_map o Href) in H.
      destruct (mapM _ o) as [o'|e] eqn:Hm; [|discriminate H].
      simpl in H. injection H as <-. cbn [no_ref_token].
      apply mapM_ok_each in Hm.
      rewrite (assoc_members_resolved (_resolve d ref_map) o o' "$ref" Hm).
      rewrite Href. simpl. clear -Hm IH.
      induction Hm as [|[kx vx] [ky vy] o o' Hxy _ IHo]; [reflexivity|].
      simpl in Hxy. destruct (_resolve d ref_map vx) as [v|e] eqn:Hv;
        [|discriminate Hxy].
      simpl in Hxy. injection Hxy as <- <-.
      cbn [forallb snd]. now rewrite (IH vx v Hv), IHo.
Qed.

Lemma resolve_refs_outcome (depth : nat) (dumped : Dict)
      (own : option Dict) (ref_map : Dict) :
  resolve_refs depth dumped own (Some ref_map)
  = match _resolve depth ref_map (VDict dumped) with
    | Err RecursionError => Err (ValueError circular_message)
    | r => r
    end.
Proof. reflexivity. Qed.

(** The resolution of the test suite: a model with one nested model. *)
Example resolve_nested_model :
  resolve_refs default_recursion_limit
    [("properties", VDict [("nested", ref_to "NestedSchema")]);
     ("required", VList [VStr "nested"]);
     ("title", VStr "MainSchema");
     ("type", VStr "object")]
    (Some [("NestedSchema",
            VDict [("properties",
                    VDict [("nested_property",
                            VDict [("title", VStr "Nested Property");
                                   ("type", VStr "string")])]);
                   ("required", VList [VStr "nested_property"]);
                   ("title", VStr "NestedSchema");
                   ("type", VStr "object")])])
    None
  = Ok (VDict
          [("properties",
            VDict [("nested",
                    VDict [("properties",
                            VDict [("nested_property",
                                    VDict [("title", VStr "Nested Property");
                                           ("type", VStr "string")])]);
                           ("required", VList [VStr "nested_property"]);
                           ("title", VStr "NestedSchema");
                           ("type", VStr "object")])]);
           ("required", VList [VStr "nested"]);
           ("title", VStr "MainSchema");
           ("type", VStr "object")]).
Proof. vm_compute. reflexivity. Qed.

Lemma node_defs_cyclic (dumped : Dict) (key : string) (rest : Dict) :
  assoc "properties" dumped = Some (VDict rest) ->
  has_key "$ref" dumped = false ->
  has_key "$ref" rest = false ->
  In (key, ref_to "Node") rest ->
  cyclic node_defs (VDict dumped).
Proof.
  intros Hp Hd Hr Hin.
  assert (Hself : Reaches node_defs
                    (VDict [("type", VStr "object");
                            ("properties", VDict [("next", ref_to "Node")])])
                    "Node").
  { apply (reach_member node_defs _ "properties"
             (VDict [("next", ref_to "Node")])); [reflexivity | simpl; tauto|].
    apply (reach_member node_defs _ "next" (ref_to "Node"));
      [reflexivity | simpl; tauto|].
    exact (reach_ref node_defs [("$ref", VStr "#/$defs/Node")]
                     "#/$defs/Node" eq_refl). }
  exists "Node". eexists. split; [|split; [reflexivity | exact Hself]].
  apply (reach_member node_defs dumped "properties" (VDict rest));
    [assumption | now apply assoc_In |].
  apply (reach_member node_defs rest key (ref_to "Node")); [assumption..|].
  exact (reach_ref node_defs [("$ref", VStr "#/$defs/Node")]
                     "#/$defs/Node" eq_refl).
Qed.

(** C5 fails as stated: a self-referencing pair whose schema meets a
    reference to a missing definition first fails with the
    reference-not-found error, not the circular-reference one. *)
Lemma C5_missing_reference_before_cycle :
  cyclic node_defs (VDict missing_then_cycle) /\
  resolve_refs default_recursion_limit missing_then_cycle None
               (Some node_defs)
  = Err (KeyError "Reference 'Missing' not found in ref_map.").
Proof.
  split.
  - apply (node_defs_cyclic missing_then_cycle "b"
             [("a", ref_to "Missing"); ("b", ref_to "Node")]);
      try reflexivity.
    simpl. tauto.
  - vm_compute. reflexivity.
Qed.

(** C5 (amended): a self-referencing pair never resolves, whatever the
    depth bound; whenever resolution runs out of depth the failure is the
    circular-reference error, and it does so for every self-referencing
    pair in which every reference resolution can meet names a definition
    of the map; on every input [resolve_refs] returns or raises, and the
    interpreter's [RecursionError] is never what it raises. *)
Theorem C5_circular_reference :
  forall (depth : nat) (dumped : Dict) (own : option Dict) (ref_map : Dict),
    (cyclic ref_map (VDict dumped) ->
     forall res, resolve_refs depth dumped own (Some ref_map) <> Ok res) /\
    (_resolve depth ref_map (VDict dumped) = Err RecursionError ->
     resolve_refs depth dumped own (Some ref_map)
     = Err (ValueError circular_message)) /\
    (cyclic ref_map (VDict dumped) ->
     ref_map_closed ref_map = true ->
     refs_closed ref_map (VDict dumped) = true ->
     resolve_refs depth dumped own (Some ref_map)
     = Err (ValueError circular_message)) /\
    (forall given : option Dict,
        (exists res, resolve_refs depth dumped own given = Ok res) \/
        (exists e, resolve_refs depth dumped own given = Err e /\
                   e <> RecursionError)).
Proof.
  intros depth dumped own ref_map.
  split; [|split; [|split]]; rewrite ?resolve_refs_outcome.
  - intros Hc res Hres.
    apply (cyclic_never_resolves ref_map (VDict dumped) Hc depth res).
    destruct (_resolve depth ref_map (VDict dumped)) as [v|[]];
      solve [assumption | discriminate Hres].
  - now intros ->.
  - intros Hc Hmap Hobj.
    destruct (closed_resolve_outcome ref_map Hmap depth (VDict dumped) Hobj)
      as [-> | [res Hres]]; [reflexivity|].
    now destruct (cyclic_never_resolves ref_map _ Hc depth res).
  - intro given. unfold resolve_refs.
    destruct (match given with None => own | Some _ => given end) as [m|].
    + destruct (_resolve depth m (VDict dumped)) as [v|[]];
        solve [left; eexists; reflexivity
              | right; eexists; split; [reflexivity | discriminate]].
    + right. eexists. split; [reflexivity | discriminate].
Qed.

Lemma C5_circular_reference_witness :
  cyclic node_defs (VDict [("properties", VDict [("head", ref_to "Node")])])
  /\ resolve_refs default_recursion_limit
       [("properties", VDict [("head", ref_to "Node")])] None (Some node_defs)
     = Err (ValueError circular_message).
Proof.
  assert (Hc : cyclic node_defs
                 (VDict [("properties", VDict [("head", ref_to "Node")])])).
  { apply (node_defs_cyclic _ "head" [("head", ref_to "Node")]);
      try reflexivity.
    simpl. tauto. }
  split; [exact Hc|].
  destruct (C5_circular_reference default_recursion_limit
              [("properties", VDict [("head", ref_to "Node")])] None
              node_defs) as (_ & _ & Hcircular & _).
  apply Hcircular.
  - exact Hc.
  - reflexivity.
  - reflexivity.
Defined.

Lemma resolve_refs_ok (depth : nat) (dumped : Dict) (own : option Dict)
      (ref_map : Dict) (res : Value) :
  resolve_refs depth dumped own (Some ref_map) = Ok res ->
  _resolve depth ref_map (VDict dumped) = Ok res.
Proof.
  rewrite resolve_refs_outcome.
  destruct (_resolve depth ref_map (VDict dumped)) as [v|[]];
    solve [trivial | discriminate].
Qed.

Lemma resolve_refs_key_error (depth : nat) (dumped : Dict)
      (own : option Dict) (ref_map : Dict) (msg : string) :
  resolve_refs depth dumped own (Some ref_map) = Err (KeyError msg) ->
  _resolve depth ref_map (VDict dumped) = Err (KeyError msg).
Proof.
  rewrite resolve_refs_outcome.
  destruct (_resolve depth ref_map (VDict dumped)) as [v|[]];
    solve [trivial | discriminate].
Qed.

(** C6 fails as stated: a schema that holds a reference to a missing
    definition behind a self-referencing one fails with the
    circular-reference error, and the missing reference is never named. *)
Lemma C6_missing_reference_behind_cycle :
  mentions "Missing" (VDict cycle_then_missing) = true /\
  assoc "Missing" node_defs = None /\
  resolve_refs default_recursion_limit cycle_then_missing None
               (Some node_defs)
  = Err (ValueError "Circular reference detected in schema resolution.").
Proof.
  split; [reflexivity | split; [reflexivity | vm_compute; reflexivity]].
Qed.

Lemma mapM_first_error {A B} (f : A -> result B) (before : list A) (x : A)
      (after : list A) (e : PyErr) :
  (forall y, In y before -> exists b, f y = Ok b) ->
  f x = Err e ->
  mapM f (before ++ x :: after)%list = Err e.
Proof.
  induction before as [|a before IH]; intros Hall Hx; cbn [app mapM].
  - now rewrite Hx.
  - destruct (Hall a (or_introl eq_refl)) as [b ->].
    now rewrite (IH (fun y Hin => Hall y (or_intror Hin)) Hx).
Qed.

(** A missing reference met first is the failure of the resolution. *)
Lemma meets_missing_raises (ref_map : Dict) (d : nat) (obj : Value)
      (k : string) :
  MeetsMissing ref_map d obj k ->
  _resolve d ref_map obj = Err (KeyError (not_found_message k)).
Proof.
  induction 1 as [d o r Hr Hk
                 | d o r target k Hr Hk _ IH
                 | d before key v after k Href Hbefore _ IH
                 | d before v after k Hbefore _ IH].
  - now rewrite (_resolve_ref d ref_map o r Hr), Hk.
  - now rewrite (_resolve_ref d ref_map o r Hr), Hk.
  - rewrite (_resolve_members d ref_map _ Href).
    rewrite (mapM_first_error _ before (key, v) after
               (KeyError (not_found_message k))); [reflexivity | |].
    + intros kv Hin. destruct (Hbefore kv Hin) as [res ->]. now eexists.
    + cbn [fst snd]. now rewrite IH.
  - rewrite _resolve_items.
    now rewrite (mapM_first_error _ before v after
                   (KeyError (not_found_message k)) Hbefore IH).
Qed.

(** C6 (amended): a [$ref] node whose target name is absent from the map
    raises the reference-not-found error naming it, and so does every
    schema whose walk comes to such a reference before anything else
    fails, wherever the reference lies; a schema whose walk leads to such
    a reference at all never resolves, and whenever the
    reference-not-found error is raised it names a reference the map
    lacks; a [$ref] node whose target is present resolves to what the
    definition resolves to, and a resolved schema has no [$ref] left. *)
Theorem C6_reference_resolution :
  forall (ref_map : Dict),
    (forall d o r,
        assoc "$ref" o = Some (VStr r) ->
        assoc (ref_key_of r) ref_map = None ->
        _resolve (S d) ref_map (VDict o)
        = Err (KeyError (not_found_message (ref_key_of r)))) /\
    (forall depth obj k,
        MeetsMissing ref_map depth obj k ->
        _resolve depth ref_map obj = Err (KeyError (not_found_message k))) /\
    (forall depth dumped own k,
        MeetsMissing ref_map depth (VDict dumped) k ->
        resolve_refs depth dumped own (Some ref_map)
        = Err (KeyError (not_found_message k))) /\
    (forall depth dumped own k res,
        Reaches ref_map (VDict dumped) k ->
        assoc k ref_map = None ->
        resolve_refs depth dumped own (Some ref_map) <> Ok res) /\
    (forall depth dumped own msg,
        resolve_refs depth dumped own (Some ref_map) = Err (KeyError msg) ->
        exists k, msg = not_found_message k /\ assoc k ref_map = None) /\
    (forall d o r target,
        assoc "$ref" o = Some (VStr r) ->
        assoc (ref_key_of r) ref_map = Some target ->
        _resolve (S d) ref_map (VDict o) = _resolve d ref_map target) /\
    (forall depth dumped own res,
        resolve_refs depth dumped own (Some ref_map) = Ok res ->
        no_ref_token res = true).
Proof.
  intro ref_map. repeat split.
  - intros d o r Hr Hk. now rewrite (_resolve_ref d ref_map o r Hr), Hk.
  - intros depth obj k. apply meets_missing_raises.
  - intros depth dumped own k H. unfold resolve_refs.
    now rewrite (meets_missing_raises ref_map depth _ k H).
  - intros depth dumped own k res Hreach Hk Hres.
    apply resolve_refs_ok in Hres.
    exact (reaches_missing_never_resolves ref_map _ k Hreach Hk depth res Hres).
  - intros depth dumped own msg H. apply resolve_refs_key_error in H.
    exact (key_error_names_absent ref_map depth _ msg H).
  - intros d o r target Hr Hk.
    now rewrite (_resolve_ref d ref_map o r Hr), Hk.
  - intros depth dumped own res H. apply resolve_refs_ok in H.
    exact (resolved_no_ref_token ref_map depth _ res H).
Qed.

Lemma C6_reference_resolution_witness :
  _resolve 5 node_defs (ref_to "Missing")
  = Err (KeyError "Reference 'Missing' not found in ref_map.") /\
  resolve_refs default_recursion_limit main_with_missing None
               (Some nested_defs)
  = Err (KeyError "Reference 'NonExistentSchema' not found in ref_map.") /\
  resolve_refs default_recursion_limit missing_then_cycle None
               (Some node_defs)
  = Err (KeyError "Reference 'Missing' not found in ref_map.") /\
  resolve_refs default_recursion_limit missing_then_cycle None
               (Some node_defs)
  <> Ok VNone /\
  (exists k, "Reference 'Missing' not found in ref_map."
             = not_found_message k /\ assoc k node_defs = None) /\
  _resolve 3 [("Leaf", VDict [("type", VStr "string")])] (ref_to "Leaf")
  = Ok (VDict [("type", VStr "string")]) /\
  no_ref_token (VDict [("items", VDict [("type", VStr "string")])]) = true.
Proof.
  destruct (C6_reference_resolution node_defs)
    as (H1 & _ & H2 & H3 & H4 & _ & _).
  destruct (C6_reference_resolution nested_defs) as (_ & _ & H2' & _).
  destruct (C6_reference_resolution [("Leaf", VDict [("type", VStr "string")])])
    as (_ & _ & _ & _ & _ & H5 & H6).
  split; [|split; [|split; [|split; [|split; [|split]]]]].
  - apply (H1 4 [("$ref", VStr "#/$defs/Missing")] "#/$defs/Missing");
      reflexivity.
  - apply (H2' default_recursion_limit main_with_missing None
               "NonExistentSchema").
    apply (meets_member nested_defs 999 [] "properties"
             (VDict [("nested", ref_to "NestedSchema");
                     ("invalid_ref", ref_to "NonExistentSchema")])
             [("type", VStr "object")] "NonExistentSchema");
      [reflexivity | intros kv [] |].
    apply (meets_member nested_defs 998 [("nested", ref_to "NestedSchema")]
             "invalid_ref" (ref_to "NonExistentSchema") []
             "NonExistentSchema"); [reflexivity | |].
    + intros kv [<-|[]]. eexists. vm_compute. reflexivity.
    + exact (meets_ref nested_defs 997
               [("$ref", VStr "#/$defs/NonExistentSchema")]
               "#/$defs/NonExistentSchema" eq_refl eq_refl).
  - apply (H2 default_recursion_limit missing_then_cycle None "Missing").
    apply (meets_member node_defs 999 [("type", VStr "object")] "properties"
             (VDict [("a", ref_to "Missing"); ("b", ref_to "Node")])
             [] "Missing"); [reflexivity | |].
    + intros kv [<-|[]]. eexists. reflexivity.
    + apply (meets_member node_defs 998 [] "a" (ref_to "Missing")
               [("b", ref_to "Node")] "Missing");
        [reflexivity | intros kv [] |].
      exact (meets_ref node_defs 997 [("$ref", VStr "#/$defs/Missing")]
                       "#/$defs/Missing" eq_refl eq_refl).
  - apply (H3 default_recursion_limit missing_then_cycle None "Missing").
    + apply (reach_member node_defs missing_then_cycle "properties"
               (VDict [("a", ref_to "Missing"); ("b", ref_to "Node")]));
        [reflexivity | simpl; tauto |].
      apply (reach_member node_defs _ "a" (ref_to "Missing"));
        [reflexivity | simpl; tauto |].
      exact (reach_ref node_defs [("$ref", VStr "#/$defs/Missing")]
                       "#/$defs/Missing" eq_refl).
    + reflexivity.
  - apply (H4 default_recursion_limit missing_then_cycle None).
    vm_compute. reflexivity.
  - transitivity (_resolve 2 [("Leaf", VDict [("type", VStr "string")])]
                           (VDict [("type", VStr "string")]));
      [|reflexivity].
    apply (H5 2 [("$ref", VStr "#/$defs/Leaf")] "#/$defs/Leaf"
              (VDict [("type", VStr "string")])); reflexivity.
  - apply (H6 default_recursion_limit
              [("items", ref_to "Leaf")] None).
    vm_compute. reflexivity.
Defined.

(* ================================================================== *)
(** ** Properties of union branch pre-selection *)
(* ================================================================== *)

Lemma next_index_first_match {A} (p : A -> result bool) (l : list A) :
  forall i0 i,
    next_index p l i0 = Ok i <->
    exists j, i = i0 + j /\ first_match p l j.
Proof.
  induction l as [|a r IH]; intros i0 i; simpl.
  - split; [discriminate|].
    intros (j & _ & x & Hx & _). destruct j; discriminate Hx.
  - destruct (p a) as [[|]|e] eqn:Hpa.
    + split.
      * intro H. injection H as <-. exists 0. split; [lia|].
        exists a. repeat split; [assumption|]. intros j y Hj. lia.
      * intros (j & -> & x & Hx & Hpx & Hbefore). destruct j as [|j].
        -- f_equal. lia.
        -- specialize (Hbefore 0 a (Nat.lt_0_succ j) eq_refl).
           rewrite Hpa in Hbefore. discriminate Hbefore.
    + rewrite IH. split.
      * intros (j & -> & x & Hx & Hpx & Hbefore). exists (S j).
        split; [lia|]. exists x. repeat split; [assumption..|].
        intros [|j'] y Hj Hy.
        -- injection Hy as <-. assumption.
        -- apply (Hbefore j' y); [lia | assumption].
      * intros (j & -> & x & Hx & Hpx & Hbefore). destruct j as [|j].
        -- injection Hx as <-. rewrite Hpa in Hpx. discriminate Hpx.
        -- exists j. split; [lia|]. exists x. repeat split; [assumption..|].
           intros j' y Hj Hy. apply (Hbefore (S j') y); [lia | assumption].
    + split; [discriminate|].
      intros (j & _ & x & Hx & Hpx & Hbefore). destruct j as [|j].
      * injection Hx as <-. rewrite Hpa in Hpx. discriminate Hpx.
      * specialize (Hbefore 0 a (Nat.lt_0_succ j) eq_refl).
        rewrite Hpa in Hbefore. discriminate Hbefore.
Qed.

(** When the comparison of [discriminator_matches] holds. *)
Lemma discriminator_matches_true (name : string) (value : Value)
      (branch : Schema) :
  discriminator_matches name value branch = Ok true <->
  exists props p x,
    properties branch = Some props /\
    assoc name props = Some p /\
    py_getitem value name = Ok x /\
    py_eq (const p) x = true.
Proof.
  unfold discriminator_matches. split.
  - destruct (properties branch) as [props|]; [|discriminate].
    destruct (assoc name props) as [p|] eqn:Hp; [|discriminate].
    destruct (py_getitem value name) as [x|e]; [|discriminate].
    simpl. intro H. injection H as H. exists props, p, x.
    repeat split; assumption.
  - intros (props & p & x & -> & -> & -> & Heq). simpl. now rewrite Heq.
Qed.

Lemma union_preselect_value (validate : Value -> Schema -> Validation)
      (property_schema : Schema) (input_type : InputType) :
  default property_schema <> VNone ->
  union_preselect validate property_schema input_type
  = bind
      (if InputType_eqb input_type DISCRIMINATED_UNION then
         match discriminator property_schema with
         | None => Err AttributeError
         | Some d =>
             next_index
               (discriminator_matches (propertyName d)
                                      (default property_schema))
               (union_branches property_schema) 0
         end
       else
         next_index
           (fun schema =>
              is_assignable validate (default property_schema) schema)
           (union_branches property_schema) 0)
      (fun selected_index =>
         Ok (set_default_at selected_index (default property_schema)
                            (union_branches property_schema),
             Some selected_index)).
Proof.
  intro Hv. unfold union_preselect.
  destruct (default property_schema); solve [reflexivity | contradiction].
Qed.

(* ================================================================== *)
(** ** Properties of the key-path state store *)
(* ================================================================== *)

Lemma assoc_dict_set_same {V : Type} (k : string) (v : V)
      (d : list (string * V)) :
  assoc k (dict_set k v d) = Some v.
Proof.
  induction d as [|[k' v'] r IH]; simpl.
  - now rewrite String.eqb_refl.
  - destruct (String.eqb k k') eqn:He; simpl; now rewrite He.
Qed.

Lemma assoc_dict_set_other {V : Type} (k k' : string) (v : V)
      (d : list (string * V)) :
  k' <> k -> assoc k' (dict_set k v d) = assoc k' d.
Proof.
  intro Hn. induction d as [|[k2 v2] r IH]; simpl.
  - destruct (String.eqb_spec k' k); [contradiction | reflexivity].
  - destruct (String.eqb_spec k k2) as [->|Hk]; simpl.
    + destruct (String.eqb_spec k' k2); [contradiction | reflexivity].
    + now rewrite IH.
Qed.

Lemma dict_set_twice {V : Type} (k : string) (v w : V)
      (d : list (string * V)) :
  dict_set k v (dict_set k w d) = dict_set k v d.
Proof.
  induction d as [|[k' v'] r IH]; simpl.
  - now rewrite String.eqb_refl.
  - destruct (String.eqb k k') eqn:He; simpl; rewrite He; [reflexivity|].
    now rewrite IH.
Qed.

Lemma dict_set_same {V : Type} (k : string) (v : V) (d : list (string * V)) :
  assoc k d = Some v -> dict_set k v d = d.
Proof.
  induction d as [|[k' v'] r IH]; simpl; [discriminate|].
  destruct (String.eqb_spec k k') as [->|Hn].
  - intro H. now injection H as ->.
  - intro H. now rewrite (IH H).
Qed.

Lemma ensure_nothing (segments : list string) :
  ensure segments [] = chain segments.
Proof.
  induction segments as [|p rest IH]; [reflexivity|].
  simpl. now rewrite IH.
Qed.

Lemma mapping_path_step (p p2 : string) (rest : list string) (d : Dict) :
  mapping_path (p :: p2 :: rest) (VDict d)
  = match assoc p d with
    | Some sub => mapping_path (p2 :: rest) sub
    | None => true
    end.
Proof. reflexivity. Qed.

Lemma lookup_path_step (p p2 : string) (rest : list string) (d : Dict) :
  lookup_path (p :: p2 :: rest) (VDict d)
  = match assoc p d with
    | Some sub => lookup_path (p2 :: rest) sub
    | None => None
    end.
Proof. reflexivity. Qed.

Lemma get_loop_step (p p2 : string) (rest : list string) (state : Value) :
  get_loop (p :: p2 :: rest) state
  = match descend p state with
    | Err e => (Err e, state)
    | Ok (state1, sub) =>
        let (r, sub') := get_loop (p2 :: rest) sub in
        (r, put_back state1 p sub')
    end.
Proof. reflexivity. Qed.

Lemma mapping_path_empty (parts : list string) :
  mapping_path parts (VDict []) = true.
Proof. destruct parts as [|p [|p2 rest]]; reflexivity. Qed.

Lemma mapping_path_is_dict (parts : list string) (v : Value) :
  mapping_path parts v = true -> exists d, v = VDict d.
Proof.
  destruct v; try (destruct parts; discriminate). intros _. now eexists.
Qed.

(** Along a path of mappings the loop of [_get_value] reads what
    [lookup_path] reads and leaves what [ensure] builds. *)
Lemma get_loop_mapping (parts : list string) :
  forall d,
    mapping_path parts (VDict d) = true ->
    get_loop parts (VDict d)
    = (Ok (or_None (lookup_path parts (VDict d))),
       VDict (ensure (removelast parts) d)).
Proof.
  induction parts as [|p rest IH]; intros d Hm; [reflexivity|].
  destruct rest as [|p2 rest].
  - cbn [get_loop lookup_path removelast ensure py_contains].
    unfold has_key, py_getitem. now destruct (assoc p d).
  - change (removelast (p :: p2 :: rest))
      with (p :: removelast (p2 :: rest)).
    rewrite get_loop_step, lookup_path_step. cbn [ensure].
    rewrite mapping_path_step in Hm.
    unfold descend. cbn [py_contains bind]. unfold has_key.
    destruct (assoc p d) as [sub|] eqn:Hp.
    + destruct (mapping_path_is_dict _ _ Hm) as [d' ->].
      cbn [bind py_getitem]. rewrite Hp. cbn [bind].
      rewrite (IH d' Hm). reflexivity.
    + cbn [py_setitem bind py_getitem].
      rewrite assoc_dict_set_same. cbn [bind].
      rewrite (IH [] (mapping_path_empty _)). cbn [put_back].
      rewrite dict_set_twice. f_equal.
      destruct rest; reflexivity.
Qed.

Lemma _get_value_mapping (key : string) (state : Dict) :
  mapping_path (split KEY_SEPARATOR key) (VDict state) = true ->
  _get_value key state
  = (Ok (or_None (lookup_path (split KEY_SEPARATOR key) (VDict state))),
     ensure (removelast (split KEY_SEPARATOR key)) state).
Proof.
  intro Hm. unfold _get_value. now rewrite (get_loop_mapping _ state Hm).
Qed.

(** What [ensure] leaves alone: every path that is not one of the
    segments' prefixes. *)
Lemma ensure_frame (segments : list string) :
  forall d q v,
    lookup_path q (VDict d) = Some v ->
    is_prefix q segments = false ->
    lookup_path q (VDict (ensure segments d)) = Some v.
Proof.
  induction segments as [|p rest IH]; intros d q v Hq Hpre; [exact Hq|].
  destruct q as [|q0 qr]; [discriminate Hq|].
  cbn [is_prefix] in Hpre. cbn [ensure].
  destruct (String.eqb_spec q0 p) as [->|Hn].
  - cbn [andb] in Hpre.
    destruct qr as [|q1 qr]; [discriminate Hpre|].
    rewrite lookup_path_step in Hq.
    destruct (assoc p d) as [sub|] eqn:Hp; [|discriminate Hq].
    destruct sub as [| b | z | s | l | d'];
      try (rewrite lookup_path_step, Hp; exact Hq).
    rewrite lookup_path_step, assoc_dict_set_same.
    exact (IH d' (q1 :: qr) v Hq Hpre).
  - assert (Hsame : forall x,
               lookup_path (q0 :: qr) (VDict (dict_set p x d))
               = lookup_path (q0 :: qr) (VDict d)).
    { intro x. cbn [lookup_path].
      now rewrite (assoc_dict_set_other p q0 x d Hn). }
    destruct (assoc p d) as [[| b | z | s | l | d']|];
      rewrite ?Hsame; exact Hq.
Qed.

(** What [ensure] creates: under a missing prefix, the chain of the
    segments that follow. *)
Lemma ensure_creates (q : list string) :
  forall rest last d,
    q <> [] ->
    mapping_path (q ++ rest ++ [last]) (VDict d) = true ->
    lookup_path q (VDict d) = None ->
    lookup_path q (VDict (ensure (q ++ rest) d)) = Some (VDict (chain rest)).
Proof.
  induction q as [|p q IH]; intros rest last d Hne Hm Hq; [contradiction|].
  destruct q as [|p2 q].
  - cbn [lookup_path app] in *. cbn [ensure]. rewrite Hq.
    now rewrite assoc_dict_set_same, ensure_nothing.
  - change (((p :: p2 :: q) ++ rest)%list)
      with (p :: ((p2 :: q) ++ rest)%list).
    change (((p :: p2 :: q) ++ rest ++ [last])%list)
      with (p :: p2 :: (q ++ rest ++ [last])%list) in Hm.
    cbn [ensure]. rewrite lookup_path_step in Hq.
    rewrite mapping_path_step in Hm.
    destruct (assoc p d) as [sub|] eqn:Hp.
    + destruct (mapping_path_is_dict _ _ Hm) as [d' ->].
      rewrite lookup_path_step, assoc_dict_set_same.
      apply (IH rest last d'); [discriminate | exact Hm | exact Hq].
    + rewrite lookup_path_step, assoc_dict_set_same.
      apply (IH rest last []); [discriminate | | ].
      * apply mapping_path_empty.
      * destruct q; reflexivity.
Qed.

(** With a mapping under every segment already, [ensure] changes
    nothing. *)
Lemma ensure_present (segments : list string) :
  forall last d,
    mapping_path (segments ++ [last]) (VDict d) = true ->
    (forall q, q <> [] -> is_prefix q segments = true ->
               lookup_path q (VDict d) <> None) ->
    ensure segments d = d.
Proof.
  induction segments as [|p rest IH]; intros last d Hm Hall; [reflexivity|].
  cbn [ensure].
  assert (Hp : lookup_path [p] (VDict d) <> None).
  { apply Hall; [discriminate|]. simpl. now rewrite String.eqb_refl. }
  cbn [lookup_path] in Hp.
  destruct (assoc p d) as [sub|] eqn:Hsub; [|contradiction].
  assert (Hm' : mapping_path (rest ++ [last]) sub = true).
  { destruct rest as [|r0 rest'].
    - change (mapping_path [p; last] (VDict d) = true) in Hm.
      rewrite mapping_path_step, Hsub in Hm. exact Hm.
    - change (mapping_path (p :: r0 :: (rest' ++ [last])%list)
                           (VDict d) = true) in Hm.
      rewrite mapping_path_step, Hsub in Hm. exact Hm. }
  destruct (mapping_path_is_dict _ _ Hm') as [d' ->].
  rewrite (IH last d' Hm').
  - now apply dict_set_same.
  - intros q Hne Hpre. specialize (Hall (p :: q)).
    cbn [is_prefix lookup_path] in Hall.
    rewrite String.eqb_refl, Hsub in Hall. destruct q; [contradiction|].
    apply Hall; [discriminate | exact Hpre].
Qed.

Lemma split_not_nil (sep : ascii) (s : string) : split sep s <> [].
Proof.
  destruct s as [|c r]; simpl; [discriminate|].
  destruct (Ascii.eqb c sep); [discriminate|].
  destruct (split sep r); discriminate.
Qed.

(** C8 fails as stated: with the list of objects the wizard has stored
    under [items], reading [items.0.tags] finds no segment [0] and raises
    a [TypeError] instead of answering [None]. *)
Lemma C8_get_value_through_list :
  lookup_path (split KEY_SEPARATOR "items.0.tags") (VDict stored_items) = None
  /\ _get_value "items.0.tags" stored_items = (Err TypeError, stored_items).
Proof. split; reflexivity. Qed.

(** C8 (amended): when the state holds a mapping under every segment
    before the last that is there, [_get_value] answers the stored value
    if every segment is there and [None] otherwise, without an error; it
    leaves every other path as it was, puts under each missing
    intermediate segment a mapping that is empty but for the next such
    mapping, and changes nothing when none is missing. *)
Theorem C8_get_value :
  forall (key : string) (state : Dict),
    let parts := split KEY_SEPARATOR key in
    mapping_path parts (VDict state) = true ->
    exists state',
      _get_value key state
      = (Ok (or_None (lookup_path parts (VDict state))), state') /\
      (forall q v,
          lookup_path q (VDict state) = Some v ->
          is_prefix q (removelast parts) = false ->
          lookup_path q (VDict state') = Some v) /\
      (forall q rest,
          q <> [] ->
          removelast parts = (q ++ rest)%list ->
          lookup_path q (VDict state) = None ->
          lookup_path q (VDict state') = Some (VDict (chain rest))) /\
      ((forall q, q <> [] -> is_prefix q (removelast parts) = true ->
                  lookup_path q (VDict state) <> None) ->
       state' = state).
Proof.
  intros key state parts Hm.
  exists (ensure (removelast parts) state).
  assert (Hparts : parts = (removelast parts ++ [last parts EmptyString])%list)
    by (apply app_removelast_last, split_not_nil).
  split; [exact (_get_value_mapping key state Hm)|]. split; [|split].
  - intros q v Hq Hpre. now apply ensure_frame.
  - intros q rest Hne Hsplit Hq. rewrite Hsplit.
    apply (ensure_creates q rest (last parts EmptyString) state Hne);
      [|exact Hq].
    rewrite Hparts, Hsplit, <- app_assoc in Hm. exact Hm.
  - intro Hall.
    apply (ensure_present (removelast parts) (last parts EmptyString) state);
      [|exact Hall].
    rewrite <- Hparts. exact Hm.
Qed.

Lemma C8_get_value_witness :
  exists state',
    _get_value "server.tls.port" [("name", VStr "x")] = (Ok VNone, state') /\
    lookup_path ["name"] (VDict state') = Some (VStr "x") /\
    lookup_path ["server"] (VDict state') = Some (VDict [("tls", VDict [])]) /\
    (_get_value "name" [("name", VStr "x")]
     = (Ok (VStr "x"), [("name", VStr "x")])).
Proof.
  destruct (C8_get_value "server.tls.port" [("name", VStr "x")] eq_refl)
    as (state' & Hget & Hframe & Hnew & _).
  destruct (C8_get_value "name" [("name", VStr "x")] eq_refl)
    as (state2 & Hget2 & _ & _ & Hsame).
  exists state'. split; [exact Hget|]. split; [|split].
  - apply Hframe; reflexivity.
  - apply (Hnew ["server"] ["tls"]); [discriminate | reflexivity..].
  - rewrite Hget2. f_equal. apply Hsame.
    intros [|q0 q] Hne Hpre; [contradiction | discriminate Hpre].
Defined.

(* ================================================================== *)
(** ** Properties of [render_schema] *)
(* ================================================================== *)

Lemma split_plain (sep : ascii) (s : string) :
  contains_char sep s = false -> split sep s = [s].
Proof.
  induction s as [|c r IH]; simpl; [reflexivity|].
  intro H. apply orb_false_iff in H as [Hc Hr].
  now rewrite Hc, (IH Hr).
Qed.

(** A key without separator is stored at the top level. *)
Lemma _store_value_plain (key : string) (value : Value) (st : Dict) :
  contains_char KEY_SEPARATOR key = false ->
  _store_value key value st = (Ok tt, dict_set key value st).
Proof.
  intro H. unfold _store_value. now rewrite (split_plain _ _ H).
Qed.

Lemma assoc_app {V : Type} (k : string) (a b : list (string * V)) :
  assoc k (a ++ b)%list
  = match assoc k a with Some v => Some v | None => assoc k b end.
Proof.
  induction a as [|[k' v'] a IH]; simpl; [reflexivity|].
  now destruct (String.eqb k k').
Qed.

Lemma assoc_none_iff {V : Type} (k : string) (d : list (string * V)) :
  assoc k d = None <-> ~ In k (keys d).
Proof.
  induction d as [|[k' v'] r IH]; simpl; [tauto|].
  destruct (String.eqb_spec k k') as [->|Hn].
  - split; [discriminate | intro H; exfalso; apply H; now left].
  - rewrite IH. split.
    + intros H [He|Hin]; [now apply Hn | now apply H].
    + intros H Hin. apply H. now right.
Qed.

Lemma keys_app {V : Type} (a b : list (string * V)) :
  keys (a ++ b)%list = (keys a ++ keys b)%list.
Proof. apply map_app. Qed.

Lemma keys_rev {V : Type} (a : list (string * V)) :
  keys (rev a) = rev (keys a).
Proof. apply map_rev. Qed.

Lemma assoc_rev_nodup {V : Type} (k : string) (d : list (string * V)) :
  NoDup (keys d) -> assoc k (rev d) = assoc k d.
Proof.
  induction d as [|[k' v'] r IH]; [reflexivity|].
  intro Hnd. inversion Hnd as [|? ? Hnotin Hnd']; subst.
  cbn [rev]. rewrite assoc_app, (IH Hnd'). cbn [assoc].
  destruct (String.eqb_spec k k') as [->|Hn].
  - apply assoc_none_iff in Hnotin. now rewrite Hnotin.
  - now destruct (assoc k r).
Qed.

Lemma assoc_map_value {V W : Type} (f : V -> W) (k : string)
      (d : list (string * V)) :
  assoc k (map (fun kv => (fst kv, f (snd kv))) d)
  = option_map f (assoc k d).
Proof.
  induction d as [|[k' v'] r IH]; simpl; [reflexivity|].
  now destruct (String.eqb k k').
Qed.

Lemma keys_map_value {V W : Type} (f : V -> W) (d : list (string * V)) :
  keys (map (fun kv => (fst kv, f (snd kv))) d) = keys d.
Proof.
  unfold keys. rewrite map_map. reflexivity.
Qed.

(** After a run of assignments a key holds what was assigned to it last,
    or what it held before when nothing was. *)
Lemma assoc_assign_all (k : string) (assignments : Dict) :
  forall d,
    assoc k (assign_all assignments d)
    = match assoc k (rev assignments) with
      | Some v => Some v
      | None => assoc k d
      end.
Proof.
  unfold assign_all.
  induction assignments as [|[k0 v0] r IH]; intro d; [reflexivity|].
  cbn [fold_left rev fst snd]. rewrite IH, assoc_app. cbn [assoc].
  destruct (assoc k (rev r)); [reflexivity|].
  destruct (String.eqb_spec k k0) as [->|Hn].
  - apply assoc_dict_set_same.
  - now apply assoc_dict_set_other.
Qed.

Lemma assign_all_app (a b : Dict) (d : Dict) :
  assign_all (a ++ b)%list d = assign_all b (assign_all a d).
Proof. apply fold_left_app. Qed.

Lemma unpack_value_scalar (key : string) (v : Value) :
  (forall d, v <> VDict d) -> unpack_value key v = v.
Proof.
  destruct v; try reflexivity. intro H. now contradiction (H d).
Qed.

(** [unpack_additional_properties] is the run of the assignments of its
    items, from the empty mapping. *)
Lemma unpack_as_assignments (data : Dict) (key : string) :
  unpack_additional_properties data key
  = assign_all (flat_map (unpack_assignments key) data) [].
Proof.
  unfold unpack_additional_properties. cbn [unpack_value].
  generalize (@nil (string * Value)) as result.
  induction data as [|[k v] data IH]; intro result; [reflexivity|].
  cbn [fold_left flat_map]. rewrite assign_all_app, IH. f_equal.
  unfold unpack_assignments. cbn [fst snd].
  destruct v as [| b | z | s | l | add]; try reflexivity.
  destruct (String.eqb k key); [|reflexivity].
  clear. revert result.
  induction add as [|[add_k add_v] add IH]; intro result; [reflexivity|].
  cbn [fold_left map fst snd]. unfold assign_all in *. cbn [fold_left fst snd].
  rewrite IH. f_equal. now destruct add_v.
Qed.

Lemma unpack_assignments_keys (key : string) (items : Dict) :
  ~ In key (keys items) ->
  keys (flat_map (unpack_assignments key) items) = keys items.
Proof.
  induction items as [|[k v] items IH]; [reflexivity|].
  intro Hnot. cbn [flat_map]. rewrite keys_app.
  assert (Hk : k <> key) by (intros ->; apply Hnot; now left).
  rewrite IH by (intro Hin; apply Hnot; now right).
  unfold unpack_assignments. cbn [fst snd].
  apply String.eqb_neq in Hk. rewrite Hk. now destruct v.
Qed.

Lemma assoc_split (k : string) (d : Dict) (v : Value) :
  assoc k d = Some v ->
  exists before,
    d = (before ++ (k, v) :: after_key k d)%list /\ ~ In k (keys before).
Proof.
  induction d as [|[k' v'] r IH]; simpl; [discriminate|].
  destruct (String.eqb_spec k k') as [->|Hn].
  - intro H. injection H as ->. exists []. split; [reflexivity | tauto].
  - intro H. destruct (IH H) as [before [Hd Hnot]].
    exists ((k', v') :: before). split.
    + simpl. now rewrite <- Hd.
    + simpl. intros [He|Hin]; [now apply Hn | now apply Hnot].
Qed.

(** Where the sentinel's contents end up in the unpacked mapping. *)
Lemma unpack_sentinel (key : string) (data region : Dict) :
  NoDup (keys data) ->
  assoc key data = Some (VDict region) ->
  NoDup (keys region) ->
  (forall k v,
      assoc k region = Some v ->
      has_key k (after_key key data) = false ->
      assoc k (unpack_additional_properties data key)
      = Some (unpack_value key v)) /\
  (has_key key region = false ->
   has_key key (unpack_additional_properties data key) = false).
Proof.
  intros Hnd Hkey Hreg.
  destruct (assoc_split key data _ Hkey) as [before [Hdata Hbefore]].
  set (after := after_key key data) in *.
  assert (Hafter : ~ In key (keys after)).
  { rewrite Hdata, keys_app in Hnd. apply NoDup_remove_2 in Hnd.
    intro Hin. apply Hnd. apply in_or_app. now right. }
  assert (Hflat : flat_map (unpack_assignments key) data
                  = (flat_map (unpack_assignments key) before
                     ++ map (fun kv => (fst kv, unpack_value key (snd kv)))
                            region
                     ++ flat_map (unpack_assignments key) after)%list).
  { rewrite Hdata at 1. rewrite flat_map_app. cbn [flat_map]. f_equal.
    unfold unpack_assignments at 1. cbn [fst snd].
    now rewrite String.eqb_refl. }
  rewrite unpack_as_assignments, Hflat. split.
  - intros k v Hk Hka. rewrite assoc_assign_all.
    rewrite !rev_app_distr, !assoc_app.
    assert (Hnone : assoc k (rev (flat_map (unpack_assignments key) after))
                    = None).
    { apply assoc_none_iff. rewrite keys_rev, <- in_rev.
      rewrite (unpack_assignments_keys key after Hafter).
      apply assoc_none_iff. now apply has_key_false. }
    rewrite Hnone, assoc_rev_nodup by (now rewrite keys_map_value).
    now rewrite assoc_map_value, Hk.
  - intro Hnot. apply has_key_false. rewrite assoc_assign_all.
    assert (Hnone : forall l : Dict, ~ In key (keys l) ->
                                     assoc key (rev l) = None).
    { intros l Hl. apply assoc_none_iff. now rewrite keys_rev, <- in_rev. }
    rewrite Hnone; [reflexivity|].
    rewrite !keys_app, keys_map_value.
    rewrite (unpack_assignments_keys key before Hbefore).
    rewrite (unpack_assignments_keys key after Hafter).
    intro Hin. apply in_app_or in Hin as [Hin|Hin]; [now apply Hbefore|].
    apply in_app_or in Hin as [Hin|Hin]; [|now apply Hafter].
    apply has_key_false, assoc_none_iff in Hnot. now apply Hnot.
Qed.

Lemma render_schema_with_region
      (backend : SettingsWizardBackend) (self : Wizard)
      (props props' : list (string * Schema)) (st1 st2 st3 : Dict)
      (region : Dict) :
  properties (schema self) = Some props ->
  props <> [] ->
  truthy_additional (additionalProperties (schema self)) = true ->
  render_properties backend
    (match required (schema self) with Some l => l | None => [] end)
    props (state self) = (Ok tt, props', st1) ->
  _render_additional_properties backend ADDITIONAL_PROPERTIES_KEY
    (set_properties (Some props') (schema self)) false st1
  = (Ok region, st2) ->
  Base._store_value backend ADDITIONAL_PROPERTIES_KEY (VDict region) st2
  = (Ok tt, st3) ->
  render_schema backend self
  = (Ok (unpack_additional_properties st3 ADDITIONAL_PROPERTIES_KEY),
     mkWizard (set_properties (Some props') (schema self)) st3).
Proof.
  intros Hp Hne Ha Hloop Hreg Hst. unfold render_schema. rewrite Hp.
  destruct props as [|p props]; [contradiction|].
  rewrite Hloop. cbn [additionalProperties set_properties].
  now rewrite Ha, Hreg, Hst.
Qed.

(** C2 fails as stated, twice over: a schema that declares
    [additionalProperties] and no property is answered [{}] at once, with
    no region rendered and nothing stored; and a region that holds an
    entry named like the sentinel puts the sentinel key into the returned
    tree. *)
Lemma C2_no_region_without_properties_and_sentinel_entry :
  (truthy_additional (additionalProperties open_object) = true /\
   render_schema
     (StreamlitSettingsWizard (fixed_property_renderer echo_key)
                              (fixed_renderer one_extra))
     (mkWizard open_object [])
   = (Ok [], mkWizard open_object [])) /\
  (exists self',
      render_schema
        (StreamlitSettingsWizard (fixed_property_renderer echo_key)
                                 (fixed_renderer sentinel_named))
        (mkWizard open_object_with_name [])
      = (Ok [("name", VStr "name"); (ADDITIONAL_PROPERTIES_KEY, VInt 1)],
         self')).
Proof.
  split; [split; reflexivity|]. eexists. reflexivity.
Qed.

(** C2 (amended): for a schema with at least one declared property that
    declares [additionalProperties], once the properties and the region
    under the sentinel key are rendered, [render_schema] stores the region
    in the state under the sentinel key and returns the state unpacked:
    every entry of the region that no later key of the state overrides is
    at the top level of the returned mapping, and the sentinel key is not
    in it unless the region itself has an entry of that name. *)
Theorem C2_additional_properties :
  forall (render_property : string -> Schema -> bool -> bool -> Method Value)
         (render_region : string -> Schema -> bool -> Method Dict)
         (self : Wizard) (props props' : list (string * Schema))
         (st1 st2 : Dict) (region : Dict),
    let backend := StreamlitSettingsWizard render_property render_region in
    let schema1 := set_properties (Some props') (schema self) in
    properties (schema self) = Some props ->
    props <> [] ->
    truthy_additional (additionalProperties (schema self)) = true ->
    render_properties backend
      (match required (schema self) with Some l => l | None => [] end)
      props (state self) = (Ok tt, props', st1) ->
    render_region ADDITIONAL_PROPERTIES_KEY schema1 false st1
    = (Ok region, st2) ->
    exists tree st3,
      render_schema backend self = (Ok tree, mkWizard schema1 st3) /\
      st3 = dict_set ADDITIONAL_PROPERTIES_KEY (VDict region) st2 /\
      assoc ADDITIONAL_PROPERTIES_KEY st3 = Some (VDict region) /\
      tree = unpack_additional_properties st3 ADDITIONAL_PROPERTIES_KEY /\
      (NoDup (keys st3) -> NoDup (keys region) ->
       (forall k v,
           assoc k region = Some v ->
           has_key k (after_key ADDITIONAL_PROPERTIES_KEY st3) = false ->
           assoc k tree = Some (unpack_value ADDITIONAL_PROPERTIES_KEY v)) /\
       (has_key ADDITIONAL_PROPERTIES_KEY region = false ->
        has_key ADDITIONAL_PROPERTIES_KEY tree = false)).
Proof.
  intros render_property render_region self props props' st1 st2 region
         backend schema1 Hp Hne Ha Hloop Hreg.
  exists (unpack_additional_properties
            (dict_set ADDITIONAL_PROPERTIES_KEY (VDict region) st2)
            ADDITIONAL_PROPERTIES_KEY),
         (dict_set ADDITIONAL_PROPERTIES_KEY (VDict region) st2).
  split; [|split; [reflexivity | split; [|split; [reflexivity|]]]].
  - apply (render_schema_with_region backend self props props' st1 st2
             (dict_set ADDITIONAL_PROPERTIES_KEY (VDict region) st2) region);
      try assumption.
    apply _store_value_plain. reflexivity.
  - apply assoc_dict_set_same.
  - intros Hnd Hreg'.
    apply unpack_sentinel; [assumption | apply assoc_dict_set_same | assumption].
Qed.

Lemma C2_additional_properties_witness :
  exists tree st3,
    render_schema
      (StreamlitSettingsWizard (fixed_property_renderer echo_key)
                               (fixed_renderer one_extra))
      (mkWizard open_object_with_name [])
    = (Ok tree,
       mkWizard (set_properties (Some (titled [("name", typed STRING)]))
                                open_object_with_name) st3) /\
    assoc ADDITIONAL_PROPERTIES_KEY st3 = Some (VDict [("extra", VInt 1)]) /\
    assoc "extra" tree = Some (VInt 1) /\
    has_key ADDITIONAL_PROPERTIES_KEY tree = false.
Proof.
  destruct (C2_additional_properties
              (fixed_property_renderer echo_key) (fixed_renderer one_extra)
              (mkWizard open_object_with_name [])
              [("name", typed STRING)] (titled [("name", typed STRING)])
              [("name", VStr "name")] [("name", VStr "name")]
              [("extra", VInt 1)])
    as (tree & st3 & Hrun & Hst & Hkey & Htree & Hunpacked);
    try reflexivity; try discriminate.
  exists tree, st3. split; [exact Hrun|]. split; [exact Hkey|].
  assert (Hnd3 : NoDup (keys st3)).
  { rewrite Hst. simpl. repeat constructor; simpl; intuition discriminate. }
  assert (Hndr : NoDup (keys [("extra", VInt 1)])).
  { simpl. repeat constructor; simpl; tauto. }
  destruct (Hunpacked Hnd3 Hndr) as [Hin Hout]. split.
  - apply (Hin "extra" (VInt 1)); [reflexivity|]. rewrite Hst. reflexivity.
  - apply Hout. reflexivity.
Defined.

(** *** Two walks in a row *)

Lemma has_key_dict_set {V : Type} (k k' : string) (v : V)
      (d : list (string * V)) :
  has_key k (dict_set k' v d) = String.eqb k k' || has_key k d.
Proof.
  unfold has_key. destruct (String.eqb_spec k k') as [->|Hn].
  - now rewrite assoc_dict_set_same.
  - now rewrite (assoc_dict_set_other k' k v d Hn).
Qed.

Lemma dict_set_new {V : Type} (k : string) (v : V) (d : list (string * V)) :
  has_key k d = false -> dict_set k v d = (d ++ [(k, v)])%list.
Proof.
  unfold has_key. induction d as [|[k' v'] r IH]; simpl; [reflexivity|].
  destruct (String.eqb k k'); [discriminate|]. intro H. now rewrite IH.
Qed.




Lemma assign_all_keeps_key (k : string) (assignments d : Dict) :
  has_key k d = true -> has_key k (assign_all assignments d) = true.
Proof.
  unfold assign_all. revert d.
  induction assignments as [|[k0 v0] r IH]; intros d H; [exact H|].
  cbn [fold_left fst snd]. apply IH. rewrite has_key_dict_set, H.
  apply orb_true_r.
Qed.

Lemma assign_all_has_key (k : string) (assignments d : Dict) :
  In k (keys assignments) -> has_key k (assign_all assignments d) = true.
Proof.
  unfold assign_all. revert d.
  induction assignments as [|[k0 v0] r IH]; intros d Hin; [contradiction|].
  cbn [fold_left fst snd]. destruct Hin as [<-|Hin].
  - apply (assign_all_keeps_key k0 r). rewrite has_key_dict_set.
    now rewrite String.eqb_refl.
  - now apply IH.
Qed.








(** The property loop with a fixed renderer over plain keys. *)
Lemma render_properties_fixed
      (f : string -> Schema -> bool -> bool -> Value)
      (region : string -> Schema -> bool -> Method Dict)
      (required : list string) (props : list (string * Schema)) :
  (forall k p, In (k, p) props -> contains_char KEY_SEPARATOR k = false) ->
  forall st,
    render_properties
      (StreamlitSettingsWizard (fixed_property_renderer f) region)
      required props st
    = (Ok tt, titled props,
       assign_all (property_assignments f required props) st).
Proof.
  induction props as [|[k p] props IH]; intros Hplain st; [reflexivity|].
  cbn [render_properties Base._render_property Base._store_value
       StreamlitSettingsWizard].
  unfold fixed_property_renderer at 1.
  rewrite _store_value_plain by (apply (Hplain k p); now left).
  rewrite IH by (intros k' p' Hin; apply (Hplain k' p'); now right).
  reflexivity.
Qed.





(** One walk with fixed renderers over plain keys: it always returns,
    and leaves the walked schema and the state with the walk's
    assignments made. *)
Lemma render_schema_fixed
      (f : string -> Schema -> bool -> bool -> Value)
      (g : string -> Schema -> bool -> Dict) (self : Wizard) :
  plain_keys (schema self) ->
  match properties (schema self) with
  | Some (_ :: _) =>
      render_schema
        (StreamlitSettingsWizard (fixed_property_renderer f)
                                 (fixed_renderer g)) self
      = (Ok (unpack_additional_properties
               (assign_all (walk_assignments f g (schema self)) (state self))
               ADDITIONAL_PROPERTIES_KEY),
         mkWizard (walked_schema (schema self))
                  (assign_all (walk_assignments f g (schema self))
                              (state self)))
  | _ =>
      render_schema
        (StreamlitSettingsWizard (fixed_property_renderer f)
                                 (fixed_renderer g)) self
      = (Ok [], self)
  end.
Proof.
  intro Hplain. unfold render_schema, walk_assignments, walked_schema.
  destruct (properties (schema self)) as [[|p ps]|] eqn:Hp; try reflexivity.
  rewrite render_properties_fixed
    by (intros k q Hin; exact (Hplain (p :: ps) k q Hp Hin)).
  destruct (schema self) as [].
  cbn [additionalProperties set_properties OpenApi.required].
  destruct (truthy_additional additionalProperties0); [|now rewrite app_nil_r].
  cbn [Base._render_additional_properties Base._store_value
       StreamlitSettingsWizard].
  unfold fixed_renderer at 1.
  rewrite _store_value_plain by reflexivity.
  rewrite assign_all_app. reflexivity.
Qed.














(* ================================================================== *)
(** ** Properties of the keys for new entries *)
(* ================================================================== *)

Lemma after_prefix_append (p s : string) :
  after_prefix p (String.append p s) = Some s.
Proof.
  induction p as [|c p IH]; simpl; [now destruct s|].
  now rewrite Ascii.eqb_refl.
Qed.

Lemma leading_digits_of_uint (d : Decimal.uint) :
  leading_digits (NilEmpty.string_of_uint d) = NilEmpty.string_of_uint d.
Proof.
  induction d; simpl; try reflexivity; now rewrite IHd.
Qed.

Lemma str_of_int_nonneg (z : Z) :
  (0 <= z)%Z ->
  str_of_int z = NilEmpty.string_of_uint (N.to_uint (Z.to_N z)) /\
  NilEmpty.string_of_uint (N.to_uint (Z.to_N z)) <> EmptyString.
Proof.
  intro Hz. destruct z as [|p|p]; [split; [reflexivity | discriminate] | | lia].
  unfold str_of_int. cbn [Z.to_int Z.to_N N.to_uint NilZero.string_of_int].
  unfold NilZero.string_of_uint.
  assert (Hnz : Pos.to_uint p <> Decimal.Nil).
  { intro H. pose proof (DecimalPos.Unsigned.of_to p) as Hp.
    rewrite H in Hp. discriminate Hp. }
  destruct (Pos.to_uint p) eqn:Hp; try contradiction; split;
    solve [reflexivity | discriminate].
Qed.

Lemma item_index_of_generated (z : Z) :
  (0 <= z)%Z ->
  item_index (String.append "new_item_" (str_of_int z)) = Some z.
Proof.
  intro Hz. unfold item_index. rewrite after_prefix_append.
  destruct (str_of_int_nonneg z Hz) as [-> Hne].
  rewrite leading_digits_of_uint.
  destruct (NilEmpty.string_of_uint (N.to_uint (Z.to_N z))) eqn:Hs;
    [contradiction|].
  rewrite <- Hs. unfold int_of_digits. rewrite NilEmpty.usu.
  rewrite DecimalN.Unsigned.of_to. f_equal. lia.
Qed.

Lemma item_index_nonneg (k : string) (i : Z) :
  item_index k = Some i -> (0 <= i)%Z.
Proof.
  unfold item_index.
  destruct (after_prefix "new_item_" k) as [rest|]; [|discriminate].
  destruct (leading_digits rest) as [|c digits]; [discriminate|].
  intro H. injection H as <-. unfold int_of_digits.
  destruct (NilEmpty.uint_of_string (String c digits));
    [apply N2Z.is_nonneg | discriminate].
Qed.

Lemma fold_max_ge (l : list Z) :
  forall x, (x <= fold_left Z.max l x)%Z /\
            (forall y, In y l -> (y <= fold_left Z.max l x)%Z).
Proof.
  induction l as [|a l IH]; intro x; simpl; [split; [lia | tauto]|].
  destruct (IH (Z.max x a)) as [Hx Hl]. split; [lia|].
  intros y [<-|Hin]; [lia | now apply Hl].
Qed.

Lemma max_or_ge (l : list Z) (default y : Z) :
  In y l -> (y <= max_or l default)%Z.
Proof.
  destruct l as [|x l]; [contradiction|]. simpl.
  destruct (fold_max_ge l x) as [Hx Hl].
  intros [<-|Hin]; [exact Hx | now apply Hl].
Qed.

Lemma max_or_bound (l : list Z) (default : Z) :
  (forall y, In y l -> (default <= y)%Z) -> (default <= max_or l default)%Z.
Proof.
  destruct l as [|x l]; simpl; [lia|]. intro H.
  destruct (fold_max_ge l x) as [Hx _]. specialize (H x (or_introl eq_refl)).
  lia.
Qed.

Lemma item_indices_In (keys : list string) (k : string) (i : Z) :
  In k keys -> item_index k = Some i -> In i (item_indices keys).
Proof.
  intros Hin Hi. unfold item_indices. apply in_flat_map.
  exists k. split; [exact Hin|]. rewrite Hi. now left.
Qed.

Lemma item_index_digits (k : string) :
  item_index k = option_map int_of_digits (item_digits k).
Proof.
  unfold item_index, item_digits.
  destruct (after_prefix "new_item_" k) as [rest|]; [|reflexivity].
  now destruct (leading_digits rest).
Qed.

Lemma exceeds_spec (max_str_digits n : nat) :
  exceeds max_str_digits n = true <-> 0 < max_str_digits /\ max_str_digits < n.
Proof.
  unfold exceeds. now rewrite andb_true_iff, !Nat.ltb_lt.
Qed.

(** The conversions of the keys: when they all go through the numbers are
    those of the pattern, and one that does not has a key with more digits
    than the limit behind it. *)
Lemma converted_indices_outcome (max_str_digits : nat) (keys : list string) :
  match converted_indices max_str_digits keys with
  | Ok indices => indices = item_indices keys
  | Err e =>
      e = conversion_error /\ 0 < max_str_digits /\
      exists k digits,
        In k keys /\ item_digits k = Some digits /\
        max_str_digits < String.length digits
  end.
Proof.
  induction keys as [|k keys IH]; [reflexivity|].
  cbn [converted_indices]. unfold item_indices. cbn [flat_map].
  rewrite (item_index_digits k).
  destruct (item_digits k) as [digits|] eqn:Hd; cbn [option_map].
  - unfold int_of_str.
    destruct (exceeds max_str_digits (String.length digits)) eqn:Hx;
      cbn [bind].
    + apply exceeds_spec in Hx as [Hpos Hlong].
      split; [reflexivity|]. split; [exact Hpos|].
      exists k, digits. split; [now left | now split].
    + destruct (converted_indices max_str_digits keys) as [l|e]; cbn [bind].
      * cbn [app]. now rewrite IH.
      * destruct IH as (He & Hpos & k' & digits' & Hin & Hd' & Hlong).
        split; [exact He|]. split; [exact Hpos|].
        exists k', digits'. split; [now right | now split].
  - cbn [app].
    destruct (converted_indices max_str_digits keys) as [l|e]; [exact IH|].
    destruct IH as (He & Hpos & k' & digits' & Hin & Hd' & Hlong).
    split; [exact He|]. split; [exact Hpos|].
    exists k', digits'. split; [now right | now split].
Qed.

Lemma next_index_nonneg (keys : list string) :
  (0 <= max_or (item_indices keys) (-1) + 1)%Z.
Proof.
  assert (-1 <= max_or (item_indices keys) (-1))%Z; [|lia].
  apply max_or_bound. intros y Hy. unfold item_indices in Hy.
  apply in_flat_map in Hy as [k [_ Hk]].
  destruct (item_index k) as [i|] eqn:Hi; [|contradiction].
  destruct Hk as [<-|[]]. pose proof (item_index_nonneg k i Hi). lia.
Qed.

Lemma next_key_is_new (keys : list string) :
  ~ In (String.append "new_item_"
          (str_of_int (max_or (item_indices keys) (-1) + 1))) keys.
Proof.
  intro Hin.
  pose proof (max_or_ge _ (-1)%Z _
                (item_indices_In keys _ _ Hin
                   (item_index_of_generated _ (next_index_nonneg keys)))).
  lia.
Qed.

Lemma get_next_key_ok (max_str_digits : nat) (keys : list string)
      (key : string) :
  get_next_key max_str_digits keys = Ok key ->
  key = String.append "new_item_"
          (str_of_int (max_or (item_indices keys) (-1) + 1)).
Proof.
  unfold get_next_key.
  pose proof (converted_indices_outcome max_str_digits keys) as Hc.
  destruct (converted_indices max_str_digits keys) as [l|e];
    [|discriminate]. subst l. cbn [bind]. unfold str_of.
  destruct (exceeds _ _); [discriminate|]. cbn [bind].
  intro H. now injection H as <-.
Qed.

(** X1: on keys of ASCII characters, the key [get_next_key] returns
    matches the pattern itself, with an index above that of every key it
    was given, so it is none of them, whatever they are.  It returns
    unless a conversion runs into the interpreter's limit on digits: then
    a key has more digits than the limit, or the new index has, and what
    is raised is the [ValueError] of that conversion.  Without a limit it
    returns always. *)
Theorem get_next_key_fresh :
  forall (max_str_digits : nat) (keys : list string),
    Forall (fun k => all_chars is_ascii_char k = true) keys ->
    let next := (max_or (item_indices keys) (-1) + 1)%Z in
    (forall key,
        get_next_key max_str_digits keys = Ok key ->
        item_index key = Some next /\
        (forall k i, In k keys -> item_index k = Some i -> (i < next)%Z) /\
        ~ In key keys) /\
    (forall e,
        get_next_key max_str_digits keys = Err e ->
        e = conversion_error /\ 0 < max_str_digits /\
        ((exists k digits,
             In k keys /\ item_digits k = Some digits /\
             max_str_digits < String.length digits) \/
         max_str_digits < String.length (str_of_int next))) /\
    (max_str_digits = 0 ->
     exists key, get_next_key max_str_digits keys = Ok key).
Proof.
  intros max_str_digits keys _ next.
  assert (Hnext : (0 <= next)%Z) by apply next_index_nonneg.
  split; [|split].
  - intros key Hkey. apply get_next_key_ok in Hkey. subst key.
    fold next. split; [now apply item_index_of_generated|]. split.
    + intros k i Hin Hi. unfold next.
      pose proof (max_or_ge _ (-1)%Z i (item_indices_In keys k i Hin Hi)).
      lia.
    + apply next_key_is_new.
  - intros e. unfold get_next_key.
    pose proof (converted_indices_outcome max_str_digits keys) as Hc.
    destruct (converted_indices max_str_digits keys) as [l|e0]; cbn [bind].
    + subst l. fold next. unfold str_of.
      rewrite (Z.abs_eq next Hnext).
      destruct (exceeds max_str_digits (String.length (str_of_int next)))
        eqn:Hx; cbn [bind]; [|discriminate].
      apply exceeds_spec in Hx as [Hpos Hlong].
      intro H. injection H as <-. split; [reflexivity|].
      split; [exact Hpos | now right].
    + destruct Hc as (He & Hpos & Hkey). intro H. injection H as <-.
      split; [exact He|]. split; [exact Hpos | now left].
  - intros ->. unfold get_next_key.
    pose proof (converted_indices_outcome 0 keys) as Hc.
    destruct (converted_indices 0 keys) as [l|e0].
    + cbn [bind]. unfold str_of. cbn [exceeds Nat.ltb Nat.leb andb bind].
      eexists. reflexivity.
    + destruct Hc as (_ & Hpos & _). lia.
Qed.

Lemma get_next_key_fresh_witness :
  (forall key,
      get_next_key 4300 ["a"; "new_item_3"; "new_item_12x"] = Ok key ->
      item_index key = Some 13%Z /\
      (forall k i, In k ["a"; "new_item_3"; "new_item_12x"] ->
                   item_index k = Some i -> (i < 13)%Z) /\
      ~ In key ["a"; "new_item_3"; "new_item_12x"]) /\
  (forall e,
      get_next_key 4300 ["a"; "new_item_3"; "new_item_12x"] = Err e ->
      e = conversion_error /\ 0 < 4300 /\
      ((exists k digits,
           In k ["a"; "new_item_3"; "new_item_12x"] /\
           item_digits k = Some digits /\
           4300 < String.length digits) \/
       4300 < String.length (str_of_int 13))) /\
  (4300 = 0 ->
   exists key, get_next_key 4300 ["a"; "new_item_3"; "new_item_12x"] = Ok key).
Proof.
  apply (get_next_key_fresh 4300 ["a"; "new_item_3"; "new_item_12x"]).
  repeat constructor.
Defined.

(* ================================================================== *)
(** ** Further properties of [unpack_additional_properties] *)
(* ================================================================== *)

Lemma Value_nested_ind (P : Value -> Prop) :
  P VNone ->
  (forall b, P (VBool b)) ->
  (forall z, P (VInt z)) ->
  (forall s, P (VStr s)) ->
  (forall l, Forall P l -> P (VList l)) ->
  (forall d, Forall (fun kv => P (snd kv)) d -> P (VDict d)) ->
  forall v, P v.
Proof.
  intros HN HB HI HS HL HD. fix IH 1. intros [| b | z | s | l | d].
  - exact HN.
  - apply HB.
  - apply HI.
  - apply HS.
  - apply HL. induction l as [|x l IHl]; constructor; [apply IH | exact IHl].
  - apply HD. induction d as [|[k x] d IHd]; constructor;
      [apply IH | exact IHd].
Qed.

Lemma distinct_NoDup (names : list string) :
  distinct names = true -> NoDup names.
Proof.
  induction names as [|x r IH]; simpl; [constructor|].
  intro H. apply andb_true_iff in H as [Hx Hr]. constructor; [|now apply IH].
  intro Hin. apply negb_true_iff in Hx.
  assert (Hex : existsb (String.eqb x) r = true).
  { apply existsb_exists. exists x. split; [exact Hin | apply String.eqb_refl]. }
  rewrite Hex in Hx. discriminate Hx.
Qed.

(** Assignments to keys that are new and distinct only add entries, in
    order. *)
Lemma assign_all_fresh (assignments : Dict) :
  forall d,
    NoDup (keys (d ++ assignments)%list) ->
    assign_all assignments d = (d ++ assignments)%list.
Proof.
  induction assignments as [|[k v] r IH]; intros d Hnd.
  - now rewrite app_nil_r.
  - unfold assign_all. cbn [fold_left fst snd]. fold (assign_all r).
    assert (Hk : has_key k d = false).
    { apply has_key_false, assoc_none_iff. rewrite keys_app in Hnd.
      cbn [keys map fst] in Hnd. apply NoDup_remove_2 in Hnd.
      intro Hin. apply Hnd. apply in_or_app. now left. }
    rewrite (dict_set_new k v d Hk), IH.
    + now rewrite <- app_assoc.
    + now rewrite <- app_assoc.
Qed.

Lemma unpack_value_dict (key : string) (d : Dict) :
  unpack_value key (VDict d) = VDict (unpack_additional_properties d key).
Proof. reflexivity. Qed.

Lemma unpack_assignments_plain (key : string) (data : Dict) :
  has_block key data = false ->
  flat_map (unpack_assignments key) data
  = map (fun kv => (fst kv, unpack_value key (snd kv))) data.
Proof.
  induction data as [|[k v] data IH]; [reflexivity|].
  cbn [has_block existsb fst snd]. intro H.
  apply orb_false_iff in H as [Hk Hrest].
  cbn [flat_map map fst snd]. rewrite (IH Hrest).
  unfold unpack_assignments. cbn [fst snd].
  destruct v; try reflexivity.
  cbn [is_dict] in Hk. rewrite andb_true_r in Hk. now rewrite Hk.
Qed.

Lemma unpack_plain_mapping (key : string) (data : Dict) :
  NoDup (keys data) ->
  has_block key data = false ->
  unpack_additional_properties data key
  = map (fun kv => (fst kv, unpack_value key (snd kv))) data.
Proof.
  intros Hnd Hb.
  rewrite unpack_as_assignments, (unpack_assignments_plain key data Hb).
  apply (assign_all_fresh _ []). cbn [app]. now rewrite keys_map_value.
Qed.

(** X2: a mapping with distinct keys and no entry under the reserved key
    that is itself a mapping keeps its keys in their order, and each value
    is unpacked in turn. *)
Theorem unpack_without_block :
  forall (key : string) (data : Dict),
    NoDup (keys data) ->
    has_block key data = false ->
    unpack_additional_properties data key
    = map (fun kv => (fst kv, unpack_value key (snd kv))) data.
Proof.
  intros key data Hnd Hb.
  rewrite unpack_as_assignments, (unpack_assignments_plain key data Hb).
  apply (assign_all_fresh _ []). cbn [app]. now rewrite keys_map_value.
Qed.

Lemma unpack_without_block_witness :
  unpack_additional_properties
    [("a", VDict [("_add", VDict [("b", VInt 2)])]); ("n", VInt 1)] "_add"
  = [("a", VDict [("b", VInt 2)]); ("n", VInt 1)].
Proof.
  apply (unpack_without_block "_add"
           [("a", VDict [("_add", VDict [("b", VInt 2)])]); ("n", VInt 1)]).
  - apply distinct_NoDup. reflexivity.
  - reflexivity.
Defined.

(** X3: an entry under the reserved key whose mapping is empty adds
    nothing: the result is that of the data without the entry. *)
Theorem unpack_empty_block :
  forall (key : string) (before after : Dict),
    unpack_additional_properties (before ++ (key, VDict []) :: after)%list key
    = unpack_additional_properties (before ++ after)%list key.
Proof.
  intros key before after. rewrite !unpack_as_assignments, !flat_map_app.
  cbn [flat_map]. unfold unpack_assignments at 2. cbn [fst snd].
  now rewrite String.eqb_refl.
Qed.

Lemma unpack_value_plain (key : string) :
  forall (v : Value),
    well_keyed v = true ->
    block_free key v = true ->
    unpack_value key v = v.
Proof.
  induction v as [| b | z | s | l _ | d IH] using Value_nested_ind;
    try reflexivity.
  intros Hw Hf. cbn [well_keyed] in Hw. cbn [block_free] in Hf.
  apply andb_true_iff in Hw as [Hd Hw].
  rewrite unpack_value_dict, unpack_plain_mapping.
  - f_equal. clear Hd.
    induction d as [|[k x] d IHd]; [reflexivity|].
    inversion IH as [|? ? Hx IH']; subst.
    cbn [forallb fst snd] in Hw, Hf.
    apply andb_true_iff in Hw as [Hwx Hw].
    apply andb_true_iff in Hf as [Hfx Hf].
    apply andb_true_iff in Hfx as [_ Hfx].
    cbn [snd] in Hx. cbn [map fst snd].
    rewrite (Hx Hwx Hfx), (IHd IH' Hw Hf). reflexivity.
  - now apply distinct_NoDup.
  - clear -Hf. induction d as [|[k x] d IHd]; [reflexivity|].
    cbn [forallb fst snd] in Hf. apply andb_true_iff in Hf as [Hx Hf].
    apply andb_true_iff in Hx as [Hx _]. apply negb_true_iff in Hx.
    cbn [has_block existsb fst snd]. rewrite Hx. exact (IHd Hf).
Qed.

(** X4: a tree whose mappings have distinct keys and hold no mapping
    under the reserved key, at any depth reached through mappings, is
    returned as it is; so [unpack_additional_properties] returns such a
    mapping unchanged. *)
Theorem unpack_identity :
  forall (key : string) (v : Value),
    well_keyed v = true ->
    block_free key v = true ->
    unpack_value key v = v /\
    forall data, v = VDict data ->
                 unpack_additional_properties data key = data.
Proof.
  intros key v Hw Hf.
  pose proof (unpack_value_plain key v Hw Hf) as H.
  split; [exact H|]. intros data ->.
  rewrite unpack_value_dict in H. now injection H.
Qed.

Lemma unpack_identity_witness :
  unpack_value "__additional_properties__"
    (VDict [("name", VStr "x");
            ("server", VDict [("port", VInt 80);
                              ("__additional_properties__", VInt 1)]);
            ("tags", VList [VDict [("__additional_properties__", VDict [])]])])
  = VDict [("name", VStr "x");
           ("server", VDict [("port", VInt 80);
                             ("__additional_properties__", VInt 1)]);
           ("tags", VList [VDict [("__additional_properties__", VDict [])]])]
  /\
  forall data,
    VDict [("name", VStr "x");
           ("server", VDict [("port", VInt 80);
                             ("__additional_properties__", VInt 1)]);
           ("tags", VList [VDict [("__additional_properties__", VDict [])]])]
    = VDict data ->
    unpack_additional_properties data "__additional_properties__" = data.
Proof.
  apply (unpack_identity "__additional_properties__"); reflexivity.
Defined.

(* ================================================================== *)
(** ** Further properties of reference resolution *)
(* ================================================================== *)

Lemma mapM_by_height {A} (f : A -> result A) (h : A -> nat) (d : nat)
      (l : list A) :
  Forall (fun x => f x = if Nat.leb (h x) d then Ok x
                         else Err RecursionError) l ->
  mapM f l
  = if Nat.leb (fold_right (fun x m => Nat.max (h x) m) 0 l) d
    then Ok l else Err RecursionError.
Proof.
  induction 1 as [|x l Hx _ IH]; [reflexivity|].
  cbn [mapM fold_right]. rewrite Hx, IH.
  destruct (Nat.leb_spec (h x) d) as [Hhx|Hhx];
    destruct (Nat.leb_spec (fold_right (fun x m => Nat.max (h x) m) 0 l) d)
      as [Hl|Hl];
    destruct (Nat.leb_spec
                (Nat.max (h x) (fold_right (fun x m => Nat.max (h x) m) 0 l))
                d); solve [reflexivity | lia].
Qed.

Lemma resolve_plain (ref_map : Dict) :
  forall (depth : nat) (obj : Value),
    no_ref_token obj = true ->
    _resolve depth ref_map obj
    = if Nat.leb (height obj) depth then Ok obj else Err RecursionError.
Proof.
  induction depth as [|d IH]; intros obj Hobj.
  - destruct obj; reflexivity.
  - destruct obj as [| b | z | s | l | o]; try reflexivity.
    + rewrite _resolve_items. cbn [no_ref_token] in Hobj. cbn [height].
      rewrite (mapM_by_height (_resolve d ref_map) height d l).
      * change (Nat.leb (S ?n) (S d)) with (Nat.leb n d).
        now destruct (Nat.leb _ d).
      * rewrite forallb_forall in Hobj. apply Forall_forall.
        intros x Hin. exact (IH x (Hobj x Hin)).
    + cbn [no_ref_token] in Hobj. apply andb_true_iff in Hobj as [Href Hobj].
      apply negb_true_iff in Href.
      rewrite (_resolve_members d ref_map o Href). cbn [height].
      rewrite (mapM_by_height
                 (fun kv : string * Value =>
                    bind (_resolve d ref_map (snd kv))
                         (fun v => Ok (fst kv, v)))
                 (fun kv => height (snd kv)) d o).
      * change (Nat.leb (S ?n) (S d)) with (Nat.leb n d).
        now destruct (Nat.leb _ d).
      * rewrite forallb_forall in Hobj. apply Forall_forall.
        intros [k x] Hin. cbn [fst snd]. rewrite (IH x (Hobj (k, x) Hin)).
        now destruct (Nat.leb (height x) d).
Qed.

(** X5: a schema that holds no [$ref] resolves to itself unless the
    recursion runs out: at every depth bound [_resolve] returns it
    unchanged or raises [RecursionError], and from some bound on it
    returns it. *)
Theorem resolve_without_references :
  forall (ref_map : Dict) (obj : Value),
    no_ref_token obj = true ->
    (forall depth,
        _resolve depth ref_map obj = Ok obj \/
        _resolve depth ref_map obj = Err RecursionError) /\
    (exists enough,
        forall depth, enough <= depth -> _resolve depth ref_map obj = Ok obj).
Proof.
  intros ref_map obj Hobj. split.
  - intro depth. rewrite (resolve_plain ref_map depth obj Hobj).
    destruct (Nat.leb (height obj) depth); [now left | now right].
  - exists (height obj). intros depth Hle.
    rewrite (resolve_plain ref_map depth obj Hobj).
    apply Nat.leb_le in Hle. now rewrite Hle.
Qed.

Lemma resolve_without_references_witness :
  (forall depth,
      _resolve depth [] (VDict [("items", VDict [("type", VStr "string")])])
      = Ok (VDict [("items", VDict [("type", VStr "string")])]) \/
      _resolve depth [] (VDict [("items", VDict [("type", VStr "string")])])
      = Err RecursionError) /\
  (exists enough,
      forall depth,
        enough <= depth ->
        _resolve depth [] (VDict [("items", VDict [("type", VStr "string")])])
        = Ok (VDict [("items", VDict [("type", VStr "string")])])).
Proof.
  apply (resolve_without_references []
           (VDict [("items", VDict [("type", VStr "string")])])).
  reflexivity.
Defined.

Lemma err_retyped {A B} (e : PyErr) :
  @Err A e <> Err RecursionError -> @Err B e <> Err RecursionError.
Proof. intros H Heq. apply H. now injection Heq as ->. Qed.

Lemma mapM_stable {A B} (f g : A -> result B) (l : list A) :
  (forall x y, In x l -> f x = y -> y <> Err RecursionError -> g x = y) ->
  forall y, mapM f l = y -> y <> Err RecursionError -> mapM g l = y.
Proof.
  induction l as [|a l IH]; intros H y Hy Hne; [exact Hy|].
  cbn [mapM] in *.
  destruct (f a) as [b|e] eqn:Hfa.
  - rewrite (H a (Ok b) (or_introl eq_refl) Hfa) by discriminate.
    destruct (mapM f l) as [bs|e] eqn:Hl.
    + rewrite (IH (fun x y Hin => H x y (or_intror Hin)) (Ok bs) eq_refl)
        by discriminate.
      exact Hy.
    + subst y.
      now rewrite (IH (fun x y Hin => H x y (or_intror Hin)) (Err e) eq_refl Hne).
  - subst y.
    now rewrite (H a (Err e) (or_introl eq_refl) Hfa (err_retyped e Hne)).
Qed.

(** X6: an outcome of [_resolve] other than running out of depth, be it
    the resolved tree or a failure, is the outcome at every larger depth
    bound as well. *)
Theorem resolve_depth_monotone :
  forall (ref_map : Dict) (depth more : nat) (obj : Value)
         (outcome : result Value),
    _resolve depth ref_map obj = outcome ->
    outcome <> Err RecursionError ->
    _resolve (depth + more) ref_map obj = outcome.
Proof.
  intros ref_map depth more.
  assert (Hstep : forall d obj outcome,
             _resolve d ref_map obj = outcome ->
             outcome <> Err RecursionError ->
             _resolve (S d) ref_map obj = outcome).
  { induction d as [|d IH]; intros obj outcome H Hne;
      [subst outcome; now contradiction Hne|].
    destruct obj as [| b | z | s | l | o]; try exact H.
    - rewrite _resolve_items in *.
      destruct (mapM (_resolve d ref_map) l) as [l'|e] eqn:Hm.
      + rewrite (mapM_stable (_resolve d ref_map) (_resolve (S d) ref_map) l
                   (fun x y _ => IH x y) (Ok l') Hm) by discriminate.
        exact H.
      + cbn [bind] in H. subst outcome.
        now rewrite (mapM_stable (_resolve d ref_map)
                       (_resolve (S d) ref_map) l
                       (fun x y _ => IH x y) (Err e) Hm (err_retyped e Hne)).
    - destruct (has_key "$ref" o) eqn:Href.
      + pose proof Href as Hv. apply has_key_assoc in Hv as [v Hv].
        destruct v as [| b | z | r | l | o'];
          try (cbn [_resolve] in *; unfold has_key, py_getitem in *;
               rewrite Hv in *; exact H).
        rewrite (_resolve_ref (S d) ref_map o r Hv).
        rewrite (_resolve_ref d ref_map o r Hv) in H.
        destruct (assoc (ref_key_of r) ref_map); [now apply IH | exact H].
      + rewrite (_resolve_members (S d) ref_map o Href).
        rewrite (_resolve_members d ref_map o Href) in H.
        pose (f := fun n (kv : string * Value) =>
                     bind (_resolve n ref_map (snd kv))
                          (fun v => Ok (fst kv, v))).
        change (bind (mapM (f (S d)) o) (fun o' => Ok (VDict o')) = outcome).
        change (bind (mapM (f d) o) (fun o' => Ok (VDict o')) = outcome) in H.
        assert (Hf : forall x y, In x o -> f d x = y ->
                                 y <> Err RecursionError -> f (S d) x = y).
        { intros [k x] y _ Hy Hney. unfold f in *. cbn [fst snd] in *.
          destruct (_resolve d ref_map x) as [v|e] eqn:Hx.
          - now rewrite (IH x (Ok v) Hx) by discriminate.
          - cbn [bind] in Hy. subst y.
            now rewrite (IH x (Err e) Hx (err_retyped e Hney)). }
        destruct (mapM (f d) o) as [o'|e] eqn:Hm.
        * rewrite (mapM_stable (f d) (f (S d)) o Hf (Ok o') Hm)
            by discriminate.
          exact H.
        * cbn [bind] in H. subst outcome.
          now rewrite (mapM_stable (f d) (f (S d)) o Hf (Err e) Hm
                         (err_retyped e Hne)). }
  induction more as [|m IH]; intros obj outcome H Hne.
  - now rewrite Nat.add_0_r.
  - rewrite Nat.add_succ_r. apply Hstep; [now apply IH | exact Hne].
Qed.

Lemma resolve_depth_monotone_witness :
  _resolve (4 + 996) node_defs (VDict missing_then_cycle)
  = Err (KeyError "Reference 'Missing' not found in ref_map.").
Proof.
  apply resolve_depth_monotone; [reflexivity | discriminate].
Defined.

Lemma fold_max_le {A} (h : A -> nat) (d : nat) (l : list A) :
  Forall (fun x => h x <= d) l ->
  fold_right (fun x m => Nat.max (h x) m) 0 l <= d.
Proof.
  induction 1 as [|x l Hx _ IH]; simpl; lia.
Qed.

Lemma resolved_height (ref_map : Dict) :
  forall depth obj res,
    _resolve depth ref_map obj = Ok res -> height res <= depth.
Proof.
  induction depth as [|d IH]; intros obj res H; [discriminate H|].
  destruct obj as [| b | z | s | l | o];
    try (injection H as <-; simpl; lia).
  - rewrite _resolve_items in H.
    destruct (mapM (_resolve d ref_map) l) as [l'|e] eqn:Hm;
      [|discriminate H].
    cbn [bind] in H. injection H as <-. cbn [height].
    apply le_n_S, fold_max_le. apply mapM_ok_each in Hm. clear -Hm IH.
    induction Hm as [|x y l l' Hxy _ IHl]; constructor;
      [exact (IH x y Hxy) | exact IHl].
  - destruct (has_key "$ref" o) eqn:Href.
    + pose proof Href as Hv. apply has_key_assoc in Hv as [v Hv].
      destruct v as [| b | z | r | l | o'];
        try (cbn [_resolve] in H; unfold has_key, py_getitem in H;
             rewrite Hv in H; discriminate H).
      rewrite (_resolve_ref d ref_map o r Hv) in H.
      destruct (assoc (ref_key_of r) ref_map) as [target|];
        [|discriminate H].
      specialize (IH target res H). lia.
    + rewrite (_resolve_members d ref_map o Href) in H.
      destruct (mapM _ o) as [o'|e] eqn:Hm; [|discriminate H].
      cbn [bind] in H. injection H as <-. cbn [height].
      apply le_n_S, (fold_max_le (fun kv : string * Value => height (snd kv))).
      apply mapM_ok_each in Hm. clear -Hm IH.
      induction Hm as [|[kx vx] [ky vy] o o' Hxy _ IHo]; constructor;
        [|exact IHo].
      cbn [fst snd] in *.
      destruct (_resolve d ref_map vx) as [v|e] eqn:Hv; [|discriminate Hxy].
      cbn [bind] in Hxy. injection Hxy as _ <-. exact (IH vx v Hv).
Qed.

(** X7: what resolution returns is resolved for good: resolving it again,
    with whatever reference map and the same depth bound, returns it
    unchanged. *)
Theorem resolved_is_fixed :
  forall (ref_map other_map : Dict) (depth : nat) (obj res : Value),
    _resolve depth ref_map obj = Ok res ->
    _resolve depth other_map res = Ok res.
Proof.
  intros ref_map other_map depth obj res H.
  rewrite (resolve_plain other_map depth res
             (resolved_no_ref_token ref_map depth obj res H)).
  pose proof (resolved_height ref_map depth obj res H) as Hh.
  apply Nat.leb_le in Hh. now rewrite Hh.
Qed.

Lemma resolved_is_fixed_witness :
  _resolve 4 []
    (VDict [("items", VDict [("type", VStr "string")])])
  = Ok (VDict [("items", VDict [("type", VStr "string")])]).
Proof.
  apply (resolved_is_fixed
           [("Leaf", VDict [("type", VStr "string")])] [] 4
           (VDict [("items", ref_to "Leaf")])).
  vm_compute. reflexivity.
Defined.

(* ================================================================== *)
(** ** Further properties of the key-path state store *)
(* ================================================================== *)

Lemma store_loop_step (p p2 : string) (rest : list string) (value : Value)
      (state : Value) :
  store_loop (p :: p2 :: rest) value state
  = match descend p state with
    | Err e => (Err e, state)
    | Ok (state1, sub) =>
        let (r, sub') := store_loop (p2 :: rest) value sub in
        (r, put_back state1 p sub')
    end.
Proof. reflexivity. Qed.

Lemma set_path_step (p p2 : string) (rest : list string) (value : Value)
      (d : Dict) :
  set_path (p :: p2 :: rest) value d
  = match assoc p d with
    | Some (VDict sub) =>
        dict_set p (VDict (set_path (p2 :: rest) value sub)) d
    | Some _ => d
    | None => dict_set p (VDict (set_path (p2 :: rest) value [])) d
    end.
Proof. reflexivity. Qed.

Lemma descend_present (p : string) (d : Dict) (sub : Value) :
  assoc p d = Some sub -> descend p (VDict d) = Ok (VDict d, sub).
Proof.
  intro H. unfold descend. cbn [py_contains bind]. unfold has_key.
  rewrite H. cbn [bind py_getitem]. now rewrite H.
Qed.

Lemma descend_missing (p : string) (d : Dict) :
  assoc p d = None ->
  descend p (VDict d) = Ok (VDict (dict_set p (VDict []) d), VDict []).
Proof.
  intro H. unfold descend. cbn [py_contains bind]. unfold has_key.
  rewrite H. cbn [py_setitem bind py_getitem].
  now rewrite assoc_dict_set_same.
Qed.

(** Below anything that is not a mapping there is no way down. *)
Lemma descend_not_dict (p : string) (state : Value) :
  is_dict state = false -> descend p state = Err TypeError.
Proof.
  unfold descend. destruct state as [| b | z | s | l | d];
    try reflexivity; try discriminate; intros _; cbn [py_contains bind].
  - now destruct (is_substring p s).
  - now destruct (existsb (py_eq (VStr p)) l).
Qed.

(** Along a path of mappings the loop of [_store_value] builds what
    [set_path] builds. *)
Lemma store_loop_mapping (parts : list string) (value : Value) :
  forall d,
    mapping_path parts (VDict d) = true ->
    store_loop parts value (VDict d)
    = (Ok tt, VDict (set_path parts value d)).
Proof.
  induction parts as [|p rest IH]; intros d Hm; [reflexivity|].
  destruct rest as [|p2 rest]; [reflexivity|].
  rewrite store_loop_step, set_path_step. rewrite mapping_path_step in Hm.
  destruct (assoc p d) as [sub|] eqn:Hp.
  - destruct (mapping_path_is_dict _ _ Hm) as [d' ->].
    rewrite (descend_present p d _ Hp), (IH d' Hm). reflexivity.
  - rewrite (descend_missing p d Hp), (IH [] (mapping_path_empty _)).
    cbn [put_back]. now rewrite dict_set_twice.
Qed.

(** Off a path of mappings it raises [TypeError] and leaves all as it
    was. *)
Lemma store_loop_unmapped (parts : list string) (value : Value) :
  forall state,
    parts <> [] ->
    mapping_path parts state = false ->
    store_loop parts value state = (Err TypeError, state).
Proof.
  induction parts as [|p rest IH]; intros state Hne Hm; [contradiction|].
  destruct rest as [|p2 rest].
  - destruct state; try reflexivity. discriminate Hm.
  - rewrite store_loop_step.
    destruct state as [| b | z | s | l | d];
      try (rewrite descend_not_dict by reflexivity; reflexivity).
    rewrite mapping_path_step in Hm.
    destruct (assoc p d) as [sub|] eqn:Hp; [|discriminate Hm].
    rewrite (descend_present p d _ Hp), (IH sub) by (discriminate || exact Hm).
    cbn [put_back]. now rewrite (dict_set_same p sub d Hp).
Qed.

Lemma get_loop_unmapped (parts : list string) :
  forall state,
    mapping_path parts state = false ->
    get_loop parts state = (Ok VNone, state) \/
    get_loop parts state = (Err TypeError, state).
Proof.
  induction parts as [|p rest IH]; intros state Hm; [now left|].
  destruct rest as [|p2 rest].
  - destruct state as [| b | z | s | l | d]; try (now right);
      try discriminate Hm; cbn [get_loop py_contains py_getitem].
    + destruct (is_substring p s); [now right | now left].
    + destruct (existsb (py_eq (VStr p)) l); [now right | now left].
  - rewrite get_loop_step.
    destruct state as [| b | z | s | l | d];
      try (rewrite descend_not_dict by reflexivity; now right).
    rewrite mapping_path_step in Hm.
    destruct (assoc p d) as [sub|] eqn:Hp; [|discriminate Hm].
    rewrite (descend_present p d _ Hp). cbn [put_back].
    destruct (IH sub Hm) as [-> | ->]; rewrite (dict_set_same p sub d Hp);
      [now left | now right].
Qed.

Lemma lookup_set_path (parts : list string) (value : Value) :
  forall d,
    parts <> [] ->
    mapping_path parts (VDict d) = true ->
    lookup_path parts (VDict (set_path parts value d)) = Some value /\
    mapping_path parts (VDict (set_path parts value d)) = true.
Proof.
  induction parts as [|p rest IH]; intros d Hne Hm; [contradiction|].
  destruct rest as [|p2 rest].
  - split; [|reflexivity]. cbn [lookup_path set_path].
    apply assoc_dict_set_same.
  - rewrite set_path_step. rewrite mapping_path_step in Hm.
    destruct (assoc p d) as [sub|] eqn:Hp.
    + destruct (mapping_path_is_dict _ _ Hm) as [d' ->].
      rewrite lookup_path_step, mapping_path_step, assoc_dict_set_same.
      apply IH; [discriminate | exact Hm].
    + rewrite lookup_path_step, mapping_path_step, assoc_dict_set_same.
      apply IH; [discriminate | apply mapping_path_empty].
Qed.

Lemma ensure_set_path (parts : list string) (value : Value) :
  forall d,
    mapping_path parts (VDict d) = true ->
    ensure (removelast parts) (set_path parts value d)
    = set_path parts value d.
Proof.
  induction parts as [|p rest IH]; intros d Hm; [reflexivity|].
  destruct rest as [|p2 rest]; [reflexivity|].
  change (removelast (p :: p2 :: rest)) with (p :: removelast (p2 :: rest)).
  rewrite set_path_step. rewrite mapping_path_step in Hm. cbn [ensure].
  destruct (assoc p d) as [sub|] eqn:Hp.
  - destruct (mapping_path_is_dict _ _ Hm) as [d' ->].
    rewrite assoc_dict_set_same, (IH d' Hm). apply dict_set_twice.
  - rewrite assoc_dict_set_same, (IH [] (mapping_path_empty _)).
    apply dict_set_twice.
Qed.

Lemma mapping_path_ensure (parts : list string) :
  forall d,
    mapping_path parts (VDict d) = true ->
    mapping_path parts (VDict (ensure (removelast parts) d)) = true.
Proof.
  induction parts as [|p rest IH]; intros d Hm; [reflexivity|].
  destruct rest as [|p2 rest]; [reflexivity|].
  change (removelast (p :: p2 :: rest)) with (p :: removelast (p2 :: rest)).
  rewrite mapping_path_step in Hm. cbn [ensure].
  destruct (assoc p d) as [sub|] eqn:Hp.
  - destruct (mapping_path_is_dict _ _ Hm) as [d' ->].
    rewrite mapping_path_step, assoc_dict_set_same. now apply IH.
  - rewrite mapping_path_step, assoc_dict_set_same.
    apply IH, mapping_path_empty.
Qed.

Lemma set_path_ensure (parts : list string) (value : Value) :
  forall d,
    mapping_path parts (VDict d) = true ->
    set_path parts value (ensure (removelast parts) d)
    = set_path parts value d.
Proof.
  induction parts as [|p rest IH]; intros d Hm; [reflexivity|].
  destruct rest as [|p2 rest]; [reflexivity|].
  change (removelast (p :: p2 :: rest)) with (p :: removelast (p2 :: rest)).
  rewrite mapping_path_step in Hm. cbn [ensure]. rewrite (set_path_step p p2 rest value d).
  destruct (assoc p d) as [sub|] eqn:Hp.
  - destruct (mapping_path_is_dict _ _ Hm) as [d' ->].
    rewrite set_path_step, assoc_dict_set_same, (IH d' Hm).
    apply dict_set_twice.
  - rewrite set_path_step, assoc_dict_set_same,
      (IH [] (mapping_path_empty _)).
    apply dict_set_twice.
Qed.

Lemma set_path_twice (parts : list string) (first second : Value) :
  forall d,
    mapping_path parts (VDict d) = true ->
    set_path parts second (set_path parts first d) = set_path parts second d.
Proof.
  induction parts as [|p rest IH]; intros d Hm; [reflexivity|].
  destruct rest as [|p2 rest]; [apply dict_set_twice|].
  rewrite mapping_path_step in Hm.
  rewrite (set_path_step p p2 rest first d),
    (set_path_step p p2 rest second d).
  destruct (assoc p d) as [sub|] eqn:Hp.
  - destruct (mapping_path_is_dict _ _ Hm) as [d' ->].
    rewrite set_path_step, assoc_dict_set_same, (IH d' Hm).
    apply dict_set_twice.
  - rewrite set_path_step, assoc_dict_set_same,
      (IH [] (mapping_path_empty _)).
    apply dict_set_twice.
Qed.

Lemma lookup_path_other (p q0 : string) (qr : list string) (x : Value)
      (d : Dict) :
  q0 <> p ->
  lookup_path (q0 :: qr) (VDict (dict_set p x d))
  = lookup_path (q0 :: qr) (VDict d).
Proof.
  intro Hn. cbn [lookup_path]. now rewrite (assoc_dict_set_other p q0 x d Hn).
Qed.

Lemma set_path_frame (parts : list string) (value : Value) :
  forall d q,
    mapping_path parts (VDict d) = true ->
    is_prefix q parts = false ->
    is_prefix parts q = false ->
    lookup_path q (VDict (set_path parts value d)) = lookup_path q (VDict d).
Proof.
  induction parts as [|p rest IH]; intros d q Hm Hq Hp; [discriminate Hp|].
  destruct q as [|q0 qr]; [discriminate Hq|].
  cbn [is_prefix] in Hq, Hp.
  destruct (String.eqb_spec q0 p) as [->|Hn].
  - rewrite String.eqb_refl in Hp. cbn [andb] in Hq, Hp.
    destruct rest as [|p2 rest]; [destruct qr; discriminate Hp|].
    destruct qr as [|q1 qr]; [discriminate Hq|].
    rewrite set_path_step. rewrite mapping_path_step in Hm.
    rewrite (lookup_path_step p q1 qr d).
    destruct (assoc p d) as [sub|] eqn:Hsub.
    + destruct (mapping_path_is_dict _ _ Hm) as [d' ->].
      rewrite lookup_path_step, assoc_dict_set_same.
      now apply IH.
    + rewrite lookup_path_step, assoc_dict_set_same.
      rewrite (IH [] (q1 :: qr) (mapping_path_empty _) Hq Hp).
      now destruct qr.
  - destruct rest as [|p2 rest].
    + cbn [set_path]. now apply lookup_path_other.
    + rewrite set_path_step.
      destruct (assoc p d) as [[| b | z | s | l | d']|];
        rewrite ?lookup_path_other by exact Hn; reflexivity.
Qed.

Lemma store_value_unmapped (key : string) (value : Value) (st : Dict) :
  mapping_path (split KEY_SEPARATOR key) (VDict st) = false ->
  _store_value key value st = (Err TypeError, st).
Proof.
  intro Hm. unfold _store_value.
  now rewrite (store_loop_unmapped _ value (VDict st) (split_not_nil _ _) Hm).
Qed.

(** X8: [_store_value] succeeds exactly when the state holds a mapping
    under every segment before the last that is there; the value is then
    what the path reads.  Otherwise it raises [TypeError] and the state
    is as it was. *)
Theorem store_value_outcome :
  forall (key : string) (value : Value) (st : Dict),
    let parts := split KEY_SEPARATOR key in
    (mapping_path parts (VDict st) = true ->
     exists st',
       _store_value key value st = (Ok tt, st') /\
       lookup_path parts (VDict st') = Some value) /\
    (mapping_path parts (VDict st) = false ->
     _store_value key value st = (Err TypeError, st)).
Proof.
  intros key value st parts. split; intro Hm; unfold _store_value;
    fold parts.
  - rewrite (store_loop_mapping parts value st Hm).
    exists (set_path parts value st). split; [reflexivity|].
    apply lookup_set_path; [apply split_not_nil | exact Hm].
  - now rewrite (store_loop_unmapped parts value (VDict st)
                   (split_not_nil _ _) Hm).
Qed.

Lemma store_value_outcome_witness :
  (exists st',
      _store_value "server.tls.port" (VInt 443) [("name", VStr "x")]
      = (Ok tt, st') /\
      lookup_path ["server"; "tls"; "port"] (VDict st') = Some (VInt 443)) /\
  _store_value "items.0.tags" (VList []) stored_items
  = (Err TypeError, stored_items).
Proof.
  split.
  - apply (store_value_outcome "server.tls.port" (VInt 443)
             [("name", VStr "x")]). reflexivity.
  - apply (store_value_outcome "items.0.tags" (VList []) stored_items).
    reflexivity.
Defined.

(** X9: what [_store_value] has stored, [_get_value] reads back under
    the same key, and the read leaves the state as the store left it. *)
Theorem store_then_get :
  forall (key : string) (value : Value) (st st' : Dict),
    _store_value key value st = (Ok tt, st') ->
    _get_value key st' = (Ok value, st').
Proof.
  intros key value st st' Hst.
  set (parts := split KEY_SEPARATOR key).
  destruct (mapping_path parts (VDict st)) eqn:Hm.
  - unfold _store_value in Hst. fold parts in Hst.
    rewrite (store_loop_mapping parts value st Hm) in Hst.
    injection Hst as <-.
    destruct (lookup_set_path parts value st (split_not_nil _ _) Hm)
      as [Hlook Hm'].
    rewrite (_get_value_mapping key _ Hm'). fold parts.
    now rewrite Hlook, (ensure_set_path parts value st Hm).
  - rewrite (store_value_unmapped key value st Hm) in Hst.
    discriminate Hst.
Qed.

Lemma store_then_get_witness :
  _get_value "server.tls.port"
    [("name", VStr "x");
     ("server", VDict [("tls", VDict [("port", VInt 443)])])]
  = (Ok (VInt 443),
     [("name", VStr "x");
      ("server", VDict [("tls", VDict [("port", VInt 443)])])]).
Proof.
  apply (store_then_get "server.tls.port" (VInt 443) [("name", VStr "x")]).
  reflexivity.
Defined.

(** X10: reading a key before storing under it makes no difference: the
    mappings the read creates are the ones the store would create. *)
Theorem get_then_store :
  forall (key : string) (value : Value) (st : Dict),
    _store_value key value (snd (_get_value key st))
    = _store_value key value st.
Proof.
  intros key value st.
  set (parts := split KEY_SEPARATOR key).
  destruct (mapping_path parts (VDict st)) eqn:Hm.
  - rewrite (_get_value_mapping key st Hm). cbn [snd]. fold parts.
    unfold _store_value. fold parts.
    rewrite (store_loop_mapping parts value _ (mapping_path_ensure parts st Hm)).
    rewrite (store_loop_mapping parts value st Hm).
    now rewrite (set_path_ensure parts value st Hm).
  - unfold _get_value. fold parts.
    now destruct (get_loop_unmapped parts (VDict st) Hm) as [-> | ->].
Qed.

(** X11: [_get_value] raises nothing but [TypeError], and when it raises
    it has changed nothing: the mappings it creates on the way are only
    created by a read that returns. *)
Theorem get_value_failure :
  forall (key : string) (st st' : Dict) (e : PyErr),
    _get_value key st = (Err e, st') ->
    e = TypeError /\ st' = st.
Proof.
  intros key st st' e H.
  destruct (mapping_path (split KEY_SEPARATOR key) (VDict st)) eqn:Hm.
  - rewrite (_get_value_mapping key st Hm) in H. discriminate H.
  - unfold _get_value in H.
    destruct (get_loop_unmapped _ (VDict st) Hm) as [Hg | Hg];
      rewrite Hg in H; cbn [as_dict] in H; [discriminate H|].
    injection H as <- <-. now split.
Qed.

Lemma get_value_failure_witness :
  @eq PyErr TypeError TypeError /\ stored_items = stored_items.
Proof.
  apply (get_value_failure "items.0.tags" stored_items stored_items TypeError).
  reflexivity.
Defined.

(** X12: a store under one path leaves every path alone that neither
    leads to it nor lies beneath it. *)
Theorem store_value_frame :
  forall (key : string) (value : Value) (st st' : Dict) (q : list string),
    let parts := split KEY_SEPARATOR key in
    _store_value key value st = (Ok tt, st') ->
    is_prefix q parts = false ->
    is_prefix parts q = false ->
    lookup_path q (VDict st') = lookup_path q (VDict st).
Proof.
  intros key value st st' q parts Hst Hq Hp.
  destruct (mapping_path parts (VDict st)) eqn:Hm.
  - unfold _store_value in Hst. fold parts in Hst.
    rewrite (store_loop_mapping parts value st Hm) in Hst.
    injection Hst as <-. now apply set_path_frame.
  - rewrite (store_value_unmapped key value st Hm) in Hst.
    discriminate Hst.
Qed.

Lemma store_value_frame_witness :
  lookup_path ["server"; "host"]
    (VDict [("server", VDict [("host", VStr "h"); ("port", VInt 443)])])
  = lookup_path ["server"; "host"]
      (VDict [("server", VDict [("host", VStr "h")])]).
Proof.
  apply (store_value_frame "server.port" (VInt 443)
           [("server", VDict [("host", VStr "h")])]); reflexivity.
Defined.

(** X13: of two stores under the same key the later one stands: the
    state is as if the earlier one had not been made. *)
Theorem store_value_overwrites :
  forall (key : string) (first second : Value) (st st1 : Dict),
    _store_value key first st = (Ok tt, st1) ->
    _store_value key second st1 = _store_value key second st.
Proof.
  intros key first second st st1 Hst.
  set (parts := split KEY_SEPARATOR key).
  destruct (mapping_path parts (VDict st)) eqn:Hm.
  - unfold _store_value in *. fold parts in Hst |- *.
    rewrite (store_loop_mapping parts first st Hm) in Hst.
    injection Hst as <-.
    destruct (lookup_set_path parts first st (split_not_nil _ _) Hm)
      as [_ Hm'].
    rewrite (store_loop_mapping parts second _ Hm').
    rewrite (store_loop_mapping parts second st Hm).
    now rewrite (set_path_twice parts first second st Hm).
  - rewrite (store_value_unmapped key first st Hm) in Hst.
    discriminate Hst.
Qed.

Lemma store_value_overwrites_witness :
  _store_value "a.b" (VInt 2) [("a", VDict [("b", VInt 1)])]
  = _store_value "a.b" (VInt 2) [].
Proof.
  apply (store_value_overwrites "a.b" (VInt 1) (VInt 2) []). reflexivity.
Defined.

(* ================================================================== *)
(** ** Further properties of [render_schema] *)
(* ================================================================== *)

(** X16: with renderers that are fixed functions, property names without
    separator and no additional properties, a walk from the empty state
    returns, in declaration order, each declared name with the value its
    renderer gave, provided those values have distinct names and hold no
    mapping under the reserved key; the state ends the same. *)
Theorem walk_end_to_end :
  forall (f : string -> Schema -> bool -> bool -> Value)
         (g : string -> Schema -> bool -> Dict)
         (s : Schema) (props : list (string * Schema)),
    let rendered :=
      property_assignments f
        (match required s with Some l => l | None => [] end) props in
    plain_keys s ->
    properties s = Some props ->
    props <> [] ->
    truthy_additional (additionalProperties s) = false ->
    well_keyed (VDict rendered) = true ->
    block_free ADDITIONAL_PROPERTIES_KEY (VDict rendered) = true ->
    render_schema
      (StreamlitSettingsWizard (fixed_property_renderer f) (fixed_renderer g))
      (mkWizard s [])
    = (Ok rendered, mkWizard (walked_schema s) rendered).
Proof.
  intros f g s props rendered Hplain Hp Hne Ha Hw Hf.
  pose proof (render_schema_fixed f g (mkWizard s []) Hplain) as H.
  cbn [schema state] in H. unfold walk_assignments in H.
  rewrite Hp, Ha in H. destruct props as [|p ps]; [contradiction|].
  rewrite app_nil_r in H. fold rendered in H.
  assert (Hnd : NoDup (keys rendered)).
  { cbn [well_keyed] in Hw. apply andb_true_iff in Hw as [Hd _].
    now apply distinct_NoDup. }
  rewrite (assign_all_fresh rendered [] Hnd) in H. cbn [app] in H.
  pose proof (unpack_value_plain ADDITIONAL_PROPERTIES_KEY (VDict rendered) Hw Hf)
    as Hid.
  rewrite unpack_value_dict in Hid. injection Hid as Hid.
  now rewrite Hid in H.
Qed.

Lemma walk_end_to_end_witness :
  render_schema
    (StreamlitSettingsWizard (fixed_property_renderer echo_key)
                             (fixed_renderer one_extra))
    (mkWizard (set_properties
                 (Some [("name", typed STRING); ("tags", schema_for LIST)])
                 (typed OBJECT)) [])
  = (Ok [("name", VStr "name"); ("tags", VStr "tags")],
     mkWizard (walked_schema
                 (set_properties
                    (Some [("name", typed STRING); ("tags", schema_for LIST)])
                    (typed OBJECT)))
              [("name", VStr "name"); ("tags", VStr "tags")]).
Proof.
  apply (walk_end_to_end echo_key one_extra
           (set_properties
              (Some [("name", typed STRING); ("tags", schema_for LIST)])
              (typed OBJECT))
           [("name", typed STRING); ("tags", schema_for LIST)]);
    try reflexivity; try discriminate.
  intros props k p Hp Hin. injection Hp as <-.
  destruct Hin as [Heq | [Heq | []]]; injection Heq as <- _; reflexivity.
Defined.

(* ================================================================== *)
(** ** Properties of the dictionary items *)
(* ================================================================== *)

Lemma has_key_In {V : Type} (k : string) (d : list (string * V)) :
  has_key k d = true <-> In k (keys d).
Proof.
  pose proof (assoc_none_iff k d) as Hn. unfold has_key.
  destruct (assoc k d) as [v|]; split; intro H.
  - destruct (in_dec string_dec k (keys d)) as [Hin|Hout]; [exact Hin|].
    apply Hn in Hout. discriminate Hout.
  - reflexivity.
  - discriminate H.
  - exfalso. now apply (proj1 Hn eq_refl).
Qed.

Lemma keys_dict_set {V : Type} (k : string) (v : V) (d : list (string * V)) :
  keys (dict_set k v d)
  = if has_key k d then keys d else (keys d ++ [k])%list.
Proof.
  unfold has_key, keys. induction d as [|[k' v'] r IH]; simpl; [reflexivity|].
  destruct (String.eqb k k'); simpl; [reflexivity|].
  rewrite IH. now destruct (assoc k r).
Qed.

Lemma In_keys_dict_set {V : Type} (k k0 : string) (v : V)
      (d : list (string * V)) :
  In k (keys (dict_set k0 v d)) <-> k = k0 \/ In k (keys d).
Proof.
  rewrite <- !has_key_In, has_key_dict_set, orb_true_iff.
  now rewrite String.eqb_eq.
Qed.

Lemma NoDup_keys_dict_set {V : Type} (k : string) (v : V)
      (d : list (string * V)) :
  NoDup (keys d) -> NoDup (keys (dict_set k v d)).
Proof.
  intro Hd. rewrite keys_dict_set. destruct (has_key k d) eqn:Hk; [exact Hd|].
  apply NoDup_rev in Hd. rewrite <- (rev_involutive (keys d ++ [k])%list).
  apply NoDup_rev. rewrite rev_app_distr. simpl. constructor; [|exact Hd].
  rewrite <- in_rev. intro Hin. apply has_key_In in Hin. congruence.
Qed.

(** The test on the sizes of the two sets asks whether the key the field
    gave back is a key of the output already. *)
Lemma file_item_spec (output_dict : Dict) (key output_item_key : string)
      (v : Value) :
  file_item output_dict key output_item_key v
  = if has_key output_item_key output_dict
    then dict_set output_item_key v output_dict
    else dict_set key v output_dict.
Proof.
  unfold file_item, set_union_one, py_set.
  destruct (in_dec string_dec output_item_key
                   (nodup string_dec (keys output_dict))) as [Hin|Hout].
  - rewrite Nat.eqb_refl. apply nodup_In, has_key_In in Hin. now rewrite Hin.
  - rewrite length_app. simpl.
    replace (Nat.eqb _ _) with false
      by (symmetry; apply Nat.eqb_neq; lia).
    simpl. destruct (has_key output_item_key output_dict) eqn:Hk;
      [|reflexivity].
    exfalso. apply Hout, nodup_In, has_key_In, Hk.
Qed.

Lemma file_item_keys (output_dict : Dict) (key output_item_key : string)
      (v : Value) (k : string) :
  In k (keys (file_item output_dict key output_item_key v)) ->
  k = key \/ In k (keys output_dict).
Proof.
  rewrite file_item_spec.
  destruct (has_key output_item_key output_dict) eqn:Hk; intro H;
    apply In_keys_dict_set in H.
  - right. destruct H as [->|H]; [now apply has_key_In | exact H].
  - exact H.
Qed.

Lemma file_item_NoDup (output_dict : Dict) (key output_item_key : string)
      (v : Value) :
  NoDup (keys output_dict) ->
  NoDup (keys (file_item output_dict key output_item_key v)).
Proof.
  intro H. rewrite file_item_spec.
  destruct (has_key output_item_key output_dict);
    now apply NoDup_keys_dict_set.
Qed.

Lemma dict_items_loop_keys
      (item_input :
         nat -> string -> Value -> string -> Schema
         -> Method (string * Value * bool))
      (n : nat) (property_key : string) (item_schema : Schema)
      (items : Dict) :
  forall (output_dict st : Dict) (output st' : Dict),
    dict_items_loop item_input n items property_key item_schema output_dict st
    = (Ok output, st') ->
    (forall k, In k (keys output) ->
               In k (keys output_dict) \/ In k (keys items)) /\
    (NoDup (keys output_dict) -> NoDup (keys output)).
Proof.
  induction items as [|[key value] rest IH]; intros out st output st' H.
  - injection H as <- _. split; [now left | trivial].
  - cbn [dict_items_loop] in H.
    destruct (item_input n key value (extend_key property_key key)
                         item_schema st) as [[[[k' v'] removed]|e] st1];
      [|discriminate H].
    apply IH in H as [Hk Hn]. split.
    + intros k Hin. destruct (Hk k Hin) as [Ho|Hr].
      * destruct removed; [now left|].
        apply file_item_keys in Ho as [->|Ho]; [right; now left | now left].
      * right. now right.
    + intro Hd. apply Hn. destruct removed; [exact Hd|].
      now apply file_item_NoDup.
Qed.

(** What a run of [_render_dict_items] that returns has gone through. *)
Lemma render_dict_items_returns
      (item_input :
         nat -> string -> Value -> string -> Schema
         -> Method (string * Value * bool))
      (max_str_digits : nat) (add_pressed clear_pressed : bool)
      (data_dict : Dict) (property_key : string) (property_schema : Schema)
      (st output handed st' : Dict) :
  _render_dict_items item_input max_str_digits add_pressed clear_pressed
                     data_dict property_key property_schema st
  = (Ok output, handed, st') ->
  (if add_pressed
   then exists new_key,
       get_next_key max_str_digits (keys data_dict) = Ok new_key /\
       ~ In new_key (keys data_dict) /\
       handed = (data_dict ++ [(new_key, VNone)])%list
   else handed = data_dict) /\
  exists item_schema,
    dict_item_schema property_schema = Ok item_schema /\
    dict_items_loop item_input
      (length (if clear_pressed then [] else handed))
      (if clear_pressed then [] else handed)
      property_key item_schema [] st
    = (Ok output, st').
Proof.
  unfold _render_dict_items. intro H.
  assert (Hh : exists h,
             (if add_pressed
              then bind (get_next_key max_str_digits (keys data_dict))
                        (fun new_key => Ok (dict_set new_key VNone data_dict))
              else Ok data_dict) = Ok h /\
             (if add_pressed
              then exists new_key,
                  get_next_key max_str_digits (keys data_dict) = Ok new_key /\
                  ~ In new_key (keys data_dict) /\
                  h = (data_dict ++ [(new_key, VNone)])%list
              else h = data_dict)).
  { destruct add_pressed.
    - destruct (get_next_key max_str_digits (keys data_dict)) as [k|e] eqn:Hk;
        [|discriminate H].
      cbn [bind]. eexists. split; [reflexivity|]. exists k.
      assert (Hnew : ~ In k (keys data_dict)).
      { rewrite (get_next_key_ok _ _ _ Hk). apply next_key_is_new. }
      split; [reflexivity|]. split; [exact Hnew|].
      apply dict_set_new.
      destruct (has_key k data_dict) eqn:Hin; [|reflexivity].
      apply has_key_In in Hin. contradiction.
    - exists data_dict. now split. }
  destruct Hh as (h & Hh & Hspec). rewrite Hh in H.
  destruct (dict_item_schema property_schema) as [item_schema|e];
    [|discriminate H].
  match type of H with
  | context [dict_items_loop ?a ?b ?c ?d ?e ?f ?g] =>
      destruct (dict_items_loop a b c d e f g) as [r st1] eqn:Hloop
  end.
  injection H as Hr Hh0 Hs. subst r handed st1.
  split; [exact Hspec|]. exists item_schema. now split.
Qed.

(** When every key field gives back a name that is none of a given set
    of names, which holds the keys at hand, and nothing is removed, every
    item is filed under its old key. *)
Lemma dict_items_loop_renamed
      (item_input :
         nat -> string -> Value -> string -> Schema
         -> Method (string * Value * bool))
      (names : list string)
      (n : nat) (property_key : string) (item_schema : Schema)
      (items : Dict) :
  (forall n key value pk s st r st1,
      item_input n key value pk s st = (Ok r, st1) ->
      ~ In (fst (fst r)) names /\ snd r = false) ->
  forall (output_dict st : Dict) (output st' : Dict),
    incl (keys output_dict ++ keys items) names ->
    NoDup (keys output_dict ++ keys items) ->
    dict_items_loop item_input n items property_key item_schema output_dict st
    = (Ok output, st') ->
    keys output = (keys output_dict ++ keys items)%list.
Proof.
  intro Hnew.
  induction items as [|[key value] rest IH];
    intros out st output st' Hincl Hnd H.
  - injection H as <- _. simpl. now rewrite app_nil_r.
  - cbn [dict_items_loop] in H.
    destruct (item_input n key value (extend_key property_key key)
                         item_schema st) as [[[[k' v'] removed]|e] st1] eqn:Hi;
      [|discriminate H].
    apply Hnew in Hi as [Hk Hr]. cbn [fst snd] in Hk, Hr. subst removed.
    assert (Hfresh : has_key k' out = false).
    { destruct (has_key k' out) eqn:Hin; [|reflexivity].
      apply has_key_In in Hin. exfalso. apply Hk, Hincl, in_or_app.
      now left. }
    assert (Hown : has_key key out = false).
    { destruct (has_key key out) eqn:Hin; [|reflexivity].
      apply has_key_In in Hin. apply NoDup_remove_2 in Hnd.
      exfalso. apply Hnd, in_or_app. now left. }
    rewrite file_item_spec, Hfresh, (dict_set_new key v' out Hown) in H.
    apply IH in H.
    + rewrite H, keys_app. simpl. now rewrite <- app_assoc.
    + rewrite keys_app. simpl. rewrite <- app_assoc. exact Hincl.
    + rewrite keys_app. simpl. rewrite <- app_assoc. exact Hnd.
Qed.

(** X17: the mapping [_render_dict_items] returns has no key but those of
    the mapping it went through, whatever the key fields of the items gave
    back; its keys are distinct and it is no longer than the mapping.  An
    item that is not removed is filed by the name its key field gave back
    only when that name is a key of the output already, and then that
    entry takes the item's value; otherwise it is filed under the item's
    old key.  So when every key field gives back a name that the mapping
    does not have, the output has the keys of the mapping as they
    were. *)
Theorem dict_items_keep_their_keys :
  forall (item_input :
            nat -> string -> Value -> string -> Schema
            -> Method (string * Value * bool))
         (max_str_digits : nat)
         (add_pressed clear_pressed : bool) (data_dict : Dict)
         (property_key : string) (property_schema : Schema) (st : Dict)
         (output handed st' : Dict),
    _render_dict_items item_input max_str_digits add_pressed clear_pressed
                       data_dict property_key property_schema st
    = (Ok output, handed, st') ->
    (if add_pressed
     then exists new_key,
         get_next_key max_str_digits (keys data_dict) = Ok new_key /\
         ~ In new_key (keys data_dict) /\
         handed = (data_dict ++ [(new_key, VNone)])%list
     else handed = data_dict) /\
    (clear_pressed = true -> output = []) /\
    (forall k, In k (keys output) -> In k (keys handed)) /\
    NoDup (keys output) /\
    length output <= length handed /\
    (forall n key value rest pk s out st0 name v st1,
        item_input n key value (extend_key pk key) s st0
        = (Ok (name, v, false), st1) ->
        dict_items_loop item_input n ((key, value) :: rest) pk s out st0
        = dict_items_loop item_input n rest pk s
            (if has_key name out then dict_set name v out
             else dict_set key v out)
            st1) /\
    ((forall n key value pk s st0 r st1,
         item_input n key value pk s st0 = (Ok r, st1) ->
         ~ In (fst (fst r)) (keys handed) /\ snd r = false) ->
     NoDup (keys data_dict) ->
     keys output = if clear_pressed then [] else keys handed).
Proof.
  intros item_input max_str_digits add_pressed clear_pressed data_dict
         property_key property_schema st output handed st' H.
  apply render_dict_items_returns in H
    as (Hhanded & item_schema & _ & Hloop).
  pose proof (dict_items_loop_keys _ _ _ _ _ _ _ _ _ Hloop) as [Hk Hn].
  assert (Hincl : forall k, In k (keys output) -> In k (keys handed)).
  { intros k Hin. destruct (Hk k Hin) as [[]|Hi].
    destruct clear_pressed; [destruct Hi | exact Hi]. }
  assert (Hout : NoDup (keys output)) by (apply Hn; constructor).
  split; [exact Hhanded|].
  split; [|split; [exact Hincl|split; [exact Hout|split; [|split]]]].
  - intros ->. destruct output as [|[k v] r]; [reflexivity|].
    destruct (Hk k (or_introl eq_refl)) as [[]|[]].
  - rewrite <- (length_map fst output), <- (length_map fst handed).
    apply NoDup_incl_length; [exact Hout | exact Hincl].
  - intros n key value rest pk s out st0 name v st1 Hi.
    cbn [dict_items_loop]. rewrite Hi. now rewrite file_item_spec.
  - intros Hnew Hnd.
    assert (Hndh : NoDup (keys handed)).
    { destruct add_pressed; [|now subst handed].
      destruct Hhanded as (k & _ & Hk' & ->).
      rewrite keys_app. simpl.
      apply NoDup_rev in Hnd.
      rewrite <- (rev_involutive (keys data_dict ++ [k])%list).
      apply NoDup_rev. rewrite rev_app_distr. simpl.
      constructor; [|exact Hnd]. now rewrite <- in_rev. }
    apply (dict_items_loop_renamed item_input (keys handed) _ _ _ _ Hnew)
      in Hloop.
    + rewrite Hloop. now destruct clear_pressed.
    + cbn [keys map app]. destruct clear_pressed;
        [intros k [] | apply incl_refl].
    + cbn [keys map app]. destruct clear_pressed; [constructor | exact Hndh].
Qed.

Lemma dict_items_keep_their_keys_witness :
  (exists new_key,
      get_next_key 4300 (keys [("a", VInt 1); ("b", VInt 2)]) = Ok new_key /\
      ~ In new_key (keys [("a", VInt 1); ("b", VInt 2)]) /\
      [("a", VInt 1); ("b", VInt 2); ("new_item_0", VNone)]
      = ([("a", VInt 1); ("b", VInt 2)] ++ [(new_key, VNone)])%list) /\
  (false = true -> [("a", VNone)] = @nil (string * Value)) /\
  (forall k, In k (keys [("a", VNone)]) ->
             In k (keys [("a", VInt 1); ("b", VInt 2);
                         ("new_item_0", VNone)])) /\
  NoDup (keys [("a", VNone)]) /\
  length [("a", VNone)]
  <= length [("a", VInt 1); ("b", VInt 2); ("new_item_0", VNone)] /\
  (forall n key value rest pk s out st0 name v st1,
      answers_key "a" n key value (extend_key pk key) s st0
      = (Ok (name, v, false), st1) ->
      dict_items_loop (answers_key "a") n ((key, value) :: rest) pk s out st0
      = dict_items_loop (answers_key "a") n rest pk s
          (if has_key name out then dict_set name v out
           else dict_set key v out)
          st1) /\
  ((forall n key value pk s st0 r st1,
       answers_key "a" n key value pk s st0 = (Ok r, st1) ->
       ~ In (fst (fst r))
            (keys [("a", VInt 1); ("b", VInt 2); ("new_item_0", VNone)]) /\
       snd r = false) ->
   NoDup (keys [("a", VInt 1); ("b", VInt 2)]) ->
   keys [("a", VNone)]
   = if false then []
     else keys [("a", VInt 1); ("b", VInt 2); ("new_item_0", VNone)]).
Proof.
  apply (dict_items_keep_their_keys (answers_key "a") 4300 true false
           [("a", VInt 1); ("b", VInt 2)] "tags" open_object []
           [("a", VNone)]
           [("a", VInt 1); ("b", VInt 2); ("new_item_0", VNone)] []).
  reflexivity.
Defined.

Lemma dict_items_loop_unedited
      (item_input :
         nat -> string -> Value -> string -> Schema
         -> Method (string * Value * bool))
      (n : nat) (property_key : string) (item_schema : Schema)
      (items : Dict) :
  (forall n key value pk s st r st1,
      item_input n key value pk s st = (Ok r, st1) ->
      fst (fst r) = key /\ snd r = false) ->
  forall (output_dict st : Dict) (output st' : Dict),
    NoDup (keys output_dict ++ keys items) ->
    dict_items_loop item_input n items property_key item_schema output_dict st
    = (Ok output, st') ->
    keys output = (keys output_dict ++ keys items)%list.
Proof.
  intro Hown.
  induction items as [|[key value] rest IH]; intros out st output st' Hnd H.
  - injection H as <- _. simpl. now rewrite app_nil_r.
  - cbn [dict_items_loop] in H.
    destruct (item_input n key value (extend_key property_key key)
                         item_schema st) as [[[[k' v'] removed]|e] st1] eqn:Hi;
      [|discriminate H].
    apply Hown in Hi as [Hk Hr]. cbn [fst snd] in Hk, Hr. subst k' removed.
    assert (Hnew : has_key key out = false).
    { destruct (has_key key out) eqn:Hk; [|reflexivity].
      apply has_key_In in Hk. apply NoDup_remove_2 in Hnd.
      exfalso. apply Hnd, in_or_app. now left. }
    rewrite file_item_spec, Hnew, (dict_set_new key v' out Hnew) in H.
    apply IH in H.
    + rewrite H, keys_app. simpl. now rewrite <- app_assoc.
    + rewrite keys_app. simpl. rewrite <- app_assoc. exact Hnd.
Qed.

(** X18: when no key field is edited and no item removed, the mapping
    [_render_dict_items] returns has the keys of the mapping it went
    through, in their order: those handed in, then the one made on
    [Add Item]; none after [Clear Items]. *)
Theorem dict_items_unedited :
  forall (item_input :
            nat -> string -> Value -> string -> Schema
            -> Method (string * Value * bool))
         (max_str_digits : nat)
         (add_pressed clear_pressed : bool) (data_dict : Dict)
         (property_key : string) (property_schema : Schema) (st : Dict)
         (output handed st' : Dict),
    NoDup (keys data_dict) ->
    (forall n key value pk s st r st1,
        item_input n key value pk s st = (Ok r, st1) ->
        fst (fst r) = key /\ snd r = false) ->
    _render_dict_items item_input max_str_digits add_pressed clear_pressed
                       data_dict property_key property_schema st
    = (Ok output, handed, st') ->
    if add_pressed
    then exists new_key,
        get_next_key max_str_digits (keys data_dict) = Ok new_key /\
        keys output
        = if clear_pressed then []
          else (keys data_dict ++ [new_key])%list
    else keys output = if clear_pressed then [] else keys data_dict.
Proof.
  intros item_input max_str_digits add_pressed clear_pressed data_dict
         property_key property_schema st output handed st' Hnd Hown H.
  apply render_dict_items_returns in H
    as (Hhanded & item_schema & _ & Hloop).
  assert (Hndh : NoDup (keys handed)).
  { destruct add_pressed; [|now subst handed].
    destruct Hhanded as (k & _ & Hk' & ->).
    rewrite keys_app. simpl.
    apply NoDup_rev in Hnd.
    rewrite <- (rev_involutive (keys data_dict ++ [k])%list).
    apply NoDup_rev. rewrite rev_app_distr. simpl.
    constructor; [|exact Hnd]. now rewrite <- in_rev. }
  apply (dict_items_loop_unedited item_input _ _ _ _ Hown) in Hloop.
  - cbn [keys map app] in Hloop. destruct add_pressed.
    + destruct Hhanded as (k & Hk & _ & ->). exists k. split; [exact Hk|].
      rewrite Hloop. destruct clear_pressed; [reflexivity|].
      rewrite keys_app. reflexivity.
    + subst handed. rewrite Hloop. now destruct clear_pressed.
  - cbn [keys map app]. destruct clear_pressed; [constructor | exact Hndh].
Qed.

Lemma dict_items_unedited_witness :
  exists new_key,
    get_next_key 4300 (keys [("a", VInt 1); ("new_item_3", VInt 2)])
    = Ok new_key /\
    keys [("a", VInt 1); ("new_item_3", VInt 2); ("new_item_4", VNone)]
    = if false then []
      else (keys [("a", VInt 1); ("new_item_3", VInt 2)] ++ [new_key])%list.
Proof.
  apply (dict_items_unedited keeps_key 4300 true false
           [("a", VInt 1); ("new_item_3", VInt 2)] "tags" open_object []
           [("a", VInt 1); ("new_item_3", VInt 2); ("new_item_4", VNone)]
           [("a", VInt 1); ("new_item_3", VInt 2); ("new_item_4", VNone)] []).
  - repeat constructor; simpl; intuition discriminate.
  - intros n key value pk s st r st1 H. injection H as <- _.
    split; reflexivity.
  - reflexivity.
Defined.

(* ================================================================== *)
(** ** Properties of the object renderer *)
(* ================================================================== *)

Lemma object_properties_loop_ok
      (render_property :
         string -> Schema -> bool -> bool -> Dict
         -> result Value * Schema * Dict)
      (parent_key : string) (required : list string) (is_item : bool)
      (props : list (string * Schema)) :
  forall (output_object st : Dict) (res : Dict)
         (props' : list (string * Schema)) (st' : Dict),
    object_properties_loop render_property parent_key required is_item props
                           output_object st
    = (Ok res, props', st') ->
    Forall2
      (fun (kp kp' : string * Schema) =>
         fst kp' = fst kp /\
         exists st0 value st1,
           render_property (extend_key parent_key (fst kp))
                           (with_title (fst kp) (snd kp))
                           (in_required (fst kp) required) is_item st0
           = (Ok value, snd kp', st1))
      props props' /\
    exists declared,
      keys declared = keys props /\
      res = assign_all declared output_object.
Proof.
  induction props as [|[key p] rest IH]; intros out st res props' st' H.
  - injection H as <- <- _. split; [constructor|]. now exists [].
  - cbn [object_properties_loop] in H.
    destruct (render_property (extend_key parent_key key) (with_title key p)
                (in_required key required) is_item st)
      as [[[value|e] p'] st1] eqn:Hr; [|discriminate H].
    destruct (object_properties_loop render_property parent_key required
                is_item rest (dict_set key value out) st1)
      as [[r rest'] st2] eqn:Hloop.
    injection H as Hres Hp Hs. subst r props' st2.
    apply IH in Hloop as [Hall [declared [Hk ->]]]. split.
    + constructor; [|exact Hall]. split; [reflexivity|].
      now exists st, value, st1.
    + exists ((key, value) :: declared). split; [|reflexivity].
      simpl. now rewrite Hk.
Qed.

Lemma set_properties_additional (p : option (list (string * Schema)))
      (s : Schema) :
  additionalProperties (set_properties p s) = additionalProperties s.
Proof. now destruct s. Qed.

(** X19: the object [_render_object_properties] returns has a key for
    every declared property; every declared property is handed to its
    renderer with its title filled in, and stays in the schema as the
    renderer leaves it; and the entries of the additional-properties
    region are laid over the declared ones, so that under a name both
    have the region's value stands. *)
Theorem object_properties_merge :
  forall (render_property :
            string -> Schema -> bool -> bool -> Dict
            -> result Value * Schema * Dict)
         (render_additional_properties :
            string -> Schema -> bool -> Dict -> result Dict * Schema * Dict)
         (parent_key : string) (parent : Schema) (is_item : bool) (st : Dict)
         (output : Dict) (parent' : Schema) (st' : Dict),
    _render_object_properties render_property render_additional_properties
                              parent_key parent is_item st
    = (Ok output, parent', st') ->
    exists props declared props' st1,
      properties parent = Some props /\
      object_properties_loop render_property parent_key
        (match required parent with Some l => l | None => [] end)
        is_item props [] st
      = (Ok declared, props', st1) /\
      Forall2
        (fun (kp kp' : string * Schema) =>
           fst kp' = fst kp /\
           exists st0 value st2,
             render_property (extend_key parent_key (fst kp))
                             (with_title (fst kp) (snd kp))
                             (in_required (fst kp)
                                (match required parent with
                                 | Some l => l
                                 | None => []
                                 end))
                             is_item st0
             = (Ok value, snd kp', st2))
        props props' /\
      (forall k, In k (keys props) ->
                 has_key k declared = true /\ has_key k output = true) /\
      if truthy_additional (additionalProperties parent) then
        exists additional,
          render_additional_properties
            (additional_key parent_key)
            (set_properties (Some props') parent) is_item st1
          = (Ok additional, parent', st') /\
          (forall k,
              assoc k output
              = match assoc k (rev additional) with
                | Some v => Some v
                | None => assoc k declared
                end)
      else output = declared /\
           parent' = set_properties (Some props') parent /\
           st' = st1.
Proof.
  intros render_property render_region parent_key parent is_item st
         output parent' st' H.
  unfold _render_object_properties in H.
  destruct (properties parent) as [props|] eqn:Hprops; [|discriminate H].
  destruct (object_properties_loop render_property parent_key
              (match required parent with Some l => l | None => [] end)
              is_item props [] st) as [[r props'] st1] eqn:Hloop.
  destruct r as [declared|e]; [|discriminate H].
  destruct (object_properties_loop_ok _ _ _ _ _ _ _ _ _ _ Hloop)
    as [Hall [vals [Hk Hd]]].
  assert (Hdecl : forall k, In k (keys props) -> has_key k declared = true).
  { intros k Hin. rewrite Hd. apply assign_all_has_key. now rewrite Hk. }
  rewrite set_properties_additional in H.
  exists props, declared, props', st1.
  split; [reflexivity|]. split; [exact Hloop|]. split; [exact Hall|].
  destruct (truthy_additional (additionalProperties parent)).
  - destruct (render_region (additional_key parent_key)
                (set_properties (Some props') parent) is_item st1)
      as [[[additional|e] parent2] st2] eqn:Hreg; [|discriminate H].
    injection H as <- <- <-. split.
    + intros k Hin. split; [now apply Hdecl|].
      apply assign_all_keeps_key. now apply Hdecl.
    + exists additional. split; [reflexivity|].
      intro k. apply assoc_assign_all.
  - injection H as <- <- <-. split.
    + intros k Hin. split; now apply Hdecl.
    + repeat split.
Qed.

Lemma object_properties_merge_witness :
  exists props declared props' st1,
    properties nested_server = Some props /\
    object_properties_loop echo_and_title "server"
      (match required nested_server with Some l => l | None => [] end)
      false props [] []
    = (Ok declared, props', st1) /\
    Forall2
      (fun (kp kp' : string * Schema) =>
         fst kp' = fst kp /\
         exists st0 value st2,
           echo_and_title (extend_key "server" (fst kp))
                          (with_title (fst kp) (snd kp))
                          (in_required (fst kp)
                             (match required nested_server with
                              | Some l => l
                              | None => []
                              end))
                          false st0
           = (Ok value, snd kp', st2))
      props props' /\
    (forall k, In k (keys props) ->
               has_key k declared = true /\
               has_key k [("name", VStr "server.name"); ("port", VInt 8080);
                          ("extra", VInt 1)] = true) /\
    if truthy_additional (additionalProperties nested_server) then
      exists additional,
        port_region (additional_key "server")
                    (set_properties (Some props') nested_server) false st1
        = (Ok additional,
           set_properties
             (Some [("name", set_title (Some "Name") (typed STRING));
                    ("port",
                     set_properties
                       (Some [("number",
                               set_title (Some "Number") (typed INTEGER))])
                       (set_title (Some "Port") (typed OBJECT)))])
             nested_server,
           []) /\
        (forall k,
            assoc k [("name", VStr "server.name"); ("port", VInt 8080);
                     ("extra", VInt 1)]
            = match assoc k (rev additional) with
              | Some v => Some v
              | None => assoc k declared
              end)
    else [("name", VStr "server.name"); ("port", VInt 8080);
          ("extra", VInt 1)] = declared /\
         set_properties
           (Some [("name", set_title (Some "Name") (typed STRING));
                  ("port",
                   set_properties
                     (Some [("number",
                             set_title (Some "Number") (typed INTEGER))])
                     (set_title (Some "Port") (typed OBJECT)))])
           nested_server
         = set_properties (Some props') nested_server /\
         @nil (string * Value) = st1.
Proof.
  apply (object_properties_merge echo_and_title port_region "server"
           nested_server false []
           [("name", VStr "server.name"); ("port", VInt 8080);
            ("extra", VInt 1)]
           (set_properties
              (Some [("name", set_title (Some "Name") (typed STRING));
                     ("port",
                      set_properties
                        (Some [("number",
                                set_title (Some "Number") (typed INTEGER))])
                        (set_title (Some "Port") (typed OBJECT)))])
              nested_server)
           []).
  reflexivity.
Defined.

(* ================================================================== *)
(** ** Key paths of nested properties *)
(* ================================================================== *)

Lemma split_extend (sep : ascii) (a b : string) :
  split sep (String.append a (String sep b))
  = (split sep a ++ split sep b)%list.
Proof.
  induction a as [|c r IH]; simpl.
  - now rewrite Ascii.eqb_refl.
  - rewrite IH. destruct (Ascii.eqb c sep); [reflexivity|].
    pose proof (split_not_nil sep r) as Hne.
    destruct (split sep r) as [|h t]; [contradiction | reflexivity].
Qed.

Lemma get_loop_present (parts : list string) :
  forall (d : Dict) (v : Value),
    lookup_path parts (VDict d) = Some v ->
    get_loop parts (VDict d) = (Ok v, VDict d).
Proof.
  induction parts as [|p rest IH]; intros d v H; [discriminate H|].
  destruct rest as [|p2 rest].
  - cbn [lookup_path] in H. cbn [get_loop py_contains py_getitem].
    unfold has_key. now rewrite H.
  - rewrite lookup_path_step in H. rewrite get_loop_step.
    destruct (assoc p d) as [sub|] eqn:Hp; [|discriminate H].
    rewrite (descend_present p d sub Hp).
    destruct sub as [| b | z | s | l | sub]; try discriminate H.
    rewrite (IH sub v H). cbn [put_back].
    now rewrite (dict_set_same p (VDict sub) d Hp).
Qed.

Lemma lookup_path_app (p : list string) :
  forall (k : list string) (state v : Value),
    p <> [] -> k <> [] ->
    lookup_path (p ++ k) state = Some v ->
    exists sub, lookup_path p state = Some sub /\ lookup_path k sub = Some v.
Proof.
  induction p as [|p0 p IH]; intros k state v Hp Hk H; [contradiction|].
  destruct state as [| b | z | s | l | d]; try discriminate H.
  destruct p as [|p1 p].
  - destruct k as [|k0 k]; [contradiction|].
    change (([p0] ++ k0 :: k)%list) with (p0 :: k0 :: k) in H.
    rewrite lookup_path_step in H. cbn [lookup_path].
    destruct (assoc p0 d) as [sub|]; [|discriminate H].
    now exists sub.
  - change (((p0 :: p1 :: p) ++ k)%list) with (p0 :: p1 :: (p ++ k)%list) in H.
    rewrite lookup_path_step in H. rewrite lookup_path_step.
    destruct (assoc p0 d) as [sub|]; [|discriminate H].
    apply (IH k sub v); [discriminate | exact Hk | exact H].
Qed.

(** X20: the object renderer names the place of a property by its own
    key, the separator and the property's key; what [_store_value] stores
    under such a key, [_get_value] finds inside the value it reads under
    the object's key, at the property's key, and that read leaves the
    state as it is. *)
Theorem store_under_object_key :
  forall (parent_key property_key : string) (value : Value) (st st' : Dict),
    _store_value (extend_key parent_key property_key) value st
    = (Ok tt, st') ->
    exists sub,
      _get_value parent_key st' = (Ok sub, st') /\
      lookup_path (split KEY_SEPARATOR property_key) sub = Some value.
Proof.
  intros parent_key property_key value st st' H.
  unfold _store_value, extend_key in H. rewrite split_extend in H.
  set (p := split KEY_SEPARATOR parent_key) in *.
  set (k := split KEY_SEPARATOR property_key) in *.
  assert (Hp : p <> []) by apply split_not_nil.
  assert (Hk : k <> []) by apply split_not_nil.
  assert (Hpk : (p ++ k)%list <> []).
  { intro Hnil. apply app_eq_nil in Hnil as [Hnil _]. contradiction. }
  destruct (mapping_path (p ++ k) (VDict st)) eqn:Hm.
  - rewrite (store_loop_mapping _ value st Hm) in H. injection H as <-.
    destruct (lookup_set_path _ value st Hpk Hm) as [Hlook _].
    destruct (lookup_path_app p k _ _ Hp Hk Hlook) as [sub [Hsub Hval]].
    exists sub. split; [|exact Hval].
    unfold _get_value. fold p. now rewrite (get_loop_present p _ sub Hsub).
  - rewrite (store_loop_unmapped _ value (VDict st) Hpk Hm) in H.
    discriminate H.
Qed.

Lemma store_under_object_key_witness :
  exists sub,
    _get_value "server.tls"
      [("name", VStr "x");
       ("server", VDict [("tls", VDict [("port", VInt 443)])])]
    = (Ok sub,
       [("name", VStr "x");
        ("server", VDict [("tls", VDict [("port", VInt 443)])])]) /\
    lookup_path (split KEY_SEPARATOR "port") sub = Some (VInt 443).
Proof.
  apply (store_under_object_key "server.tls" "port" (VInt 443)
           [("name", VStr "x")]).
  reflexivity.
Defined.

(* ================================================================== *)
(** ** Properties of the enum input *)
(* ================================================================== *)

Lemma list_index_none (options : list Value) (value : Value) :
  forall i,
    (forall x, In x options -> py_eq x value = false) ->
    list_index options value i = None.
Proof.
  induction options as [|x r IH]; intros i H; [reflexivity|].
  cbn [list_index]. rewrite (H x (or_introl eq_refl)).
  apply IH. intros y Hy. apply H. now right.
Qed.

Lemma list_index_first (options : list Value) (value : Value) :
  forall (i j : nat) (x : Value),
    nth_error options j = Some x ->
    py_eq x value = true ->
    (forall m y, m < j -> nth_error options m = Some y ->
                 py_eq y value = false) ->
    list_index options value i = Some (i + j).
Proof.
  induction options as [|x0 r IH]; intros i j x Hj Hx Hbefore.
  - destruct j; discriminate Hj.
  - cbn [list_index]. destruct j as [|j].
    + injection Hj as ->. rewrite Hx. f_equal. lia.
    + rewrite (Hbefore 0 x0 (Nat.lt_0_succ j) eq_refl).
      rewrite (IH (S i) j x Hj Hx); [f_equal; lia|].
      intros m y Hm Hy. apply (Hbefore (S m) y); [lia | exact Hy].
Qed.

(** X21: [_render_enum_input] looks the default up among the options
    before anything else: a default that equals none of them is a
    [ValueError], also when the single option would have been answered
    without asking.  Otherwise a single option is answered as it is, and
    several go to the select box with the position of the first one equal
    to the default, or with none when there is no default. *)
Theorem enum_input_outcome :
  forall (property_schema : Schema),
    let options := match enum property_schema with
                   | Some l => l
                   | None => []
                   end in
    let answer index := match options with
                        | [only] => Answered only
                        | _ => Selectbox options index
                        end in
    (default property_schema = VNone ->
     _render_enum_input property_schema = Ok (answer None)) /\
    (default property_schema <> VNone ->
     (forall x, In x options ->
                py_eq x (default property_schema) = false) ->
     _render_enum_input property_schema = Err not_in_list) /\
    (default property_schema <> VNone ->
     forall i x,
       nth_error options i = Some x ->
       py_eq x (default property_schema) = true ->
       (forall j y, j < i -> nth_error options j = Some y ->
                    py_eq y (default property_schema) = false) ->
       _render_enum_input property_schema = Ok (answer (Some i))).
Proof.
  intros s options answer. unfold _render_enum_input.
  assert (Ho : match enum s with
               | Some (x :: r) => x :: r
               | _ => []
               end = options)
    by (unfold options; now destruct (enum s) as [[|x r]|]).
  rewrite Ho. split; [|split].
  - intros ->. cbn [bind]. unfold answer. now destruct options as [|x [|y r]].
  - intros Hd Hnone. rewrite (list_index_none options _ 0 Hnone).
    now destruct (default s).
  - intros Hd i x Hi Hx Hfirst.
    rewrite (list_index_first options _ 0 i x Hi Hx Hfirst).
    unfold answer. destruct (default s); [contradiction | | | | |];
      cbn [bind Nat.add]; now destruct options as [|x0 [|y r]].
Qed.

Lemma enum_input_outcome_witness :
  _render_enum_input
    (set_default (VStr "cat") (set_enum (Some [VStr "dog"]) (typed STRING)))
  = Err not_in_list /\
  _render_enum_input
    (set_default (VStr "cat")
       (set_enum (Some [VStr "dog"; VStr "cat"; VStr "cat"]) (typed STRING)))
  = Ok (Selectbox [VStr "dog"; VStr "cat"; VStr "cat"] (Some 1)).
Proof.
  split.
  - apply (enum_input_outcome
             (set_default (VStr "cat")
                (set_enum (Some [VStr "dog"]) (typed STRING)))).
    + discriminate.
    + intros x [<-|[]]. reflexivity.
  - apply (enum_input_outcome
             (set_default (VStr "cat")
                (set_enum (Some [VStr "dog"; VStr "cat"; VStr "cat"])
                          (typed STRING)))) with (x := VStr "cat").
    + discriminate.
    + reflexivity.
    + reflexivity.
    + intros [|j] y Hj Hy; [|lia]. injection Hy as <-. reflexivity.
Defined.

(* ================================================================== *)
(** ** Properties of the labels of union branches *)
(* ================================================================== *)

Lemma schemas_mapping_from_labels (union_schemas : list Schema) :
  forall (mapping0 mapping : list (string * Schema)),
    schemas_mapping_from union_schemas mapping0 = Ok mapping ->
    exists labels,
      Forall2 (fun schema label => branch_label schema = Ok label)
              union_schemas labels /\
      mapping
      = fold_left (fun m lb => dict_set (fst lb) (snd lb) m)
                  (combine labels union_schemas) mapping0.
Proof.
  induction union_schemas as [|schema rest IH]; intros m0 m H.
  - injection H as <-. exists []. split; [constructor | reflexivity].
  - cbn [schemas_mapping_from] in H.
    destruct (branch_label schema) as [label|e] eqn:Hl; [|discriminate H].
    cbn [bind] in H. apply IH in H as [labels [Hall ->]].
    exists (label :: labels). split; [now constructor | reflexivity].
Qed.

Lemma assoc_fold_set {V : Type} (k : string) (l : list (string * V)) :
  forall d,
    assoc k (fold_left (fun m lb => dict_set (fst lb) (snd lb) m) l d)
    = match assoc k (rev l) with
      | Some v => Some v
      | None => assoc k d
      end.
Proof.
  induction l as [|[k0 v0] r IH]; intro d; [reflexivity|].
  cbn [fold_left rev fst snd]. rewrite IH, assoc_app. cbn [assoc].
  destruct (assoc k (rev r)); [reflexivity|].
  destruct (String.eqb_spec k k0) as [->|Hn].
  - apply assoc_dict_set_same.
  - now apply assoc_dict_set_other.
Qed.

Lemma keys_fold_set {V : Type} (l : list (string * V)) :
  forall d,
    NoDup (keys d) ->
    NoDup (keys (fold_left (fun m lb => dict_set (fst lb) (snd lb) m) l d)) /\
    (forall k,
        In k (keys (fold_left (fun m lb => dict_set (fst lb) (snd lb) m) l d))
        <-> In k (keys d) \/ In k (keys l)).
Proof.
  induction l as [|[k0 v0] r IH]; intros d Hd.
  - split; [exact Hd|]. intro k. simpl. tauto.
  - cbn [fold_left fst snd].
    destruct (IH (dict_set k0 v0 d) (NoDup_keys_dict_set k0 v0 d Hd))
      as [Hn Hk].
    split; [exact Hn|]. intro k. rewrite Hk, In_keys_dict_set. simpl.
    intuition congruence.
Qed.

Lemma fold_set_fresh {V : Type} (l : list (string * V)) :
  forall d,
    NoDup (keys d ++ keys l) ->
    fold_left (fun m lb => dict_set (fst lb) (snd lb) m) l d = (d ++ l)%list.
Proof.
  induction l as [|[k0 v0] r IH]; intros d Hnd.
  - simpl. now rewrite app_nil_r.
  - cbn [fold_left fst snd].
    assert (Hnew : has_key k0 d = false).
    { destruct (has_key k0 d) eqn:Hk; [|reflexivity].
      apply has_key_In in Hk. apply NoDup_remove_2 in Hnd.
      exfalso. apply Hnd, in_or_app. now left. }
    rewrite (dict_set_new k0 v0 d Hnew), IH.
    + now rewrite <- app_assoc.
    + rewrite keys_app. simpl. rewrite <- app_assoc. exact Hnd.
Qed.

Lemma keys_combine {V : Type} (labels : list string) (l : list V) :
  length labels = length l -> keys (combine labels l) = labels.
Proof.
  revert l. induction labels as [|a r IH]; intros [|x l] H;
    try reflexivity; try discriminate H.
  simpl. f_equal. apply IH. now injection H.
Qed.

Lemma has_key_existsb {V : Type} (k : string) (d : list (string * V)) :
  has_key k d = existsb (String.eqb k) (keys d).
Proof.
  unfold has_key, keys. induction d as [|[k' v'] d IH]; [reflexivity|].
  cbn [assoc map existsb fst]. destruct (String.eqb k k'); [reflexivity|].
  exact IH.
Qed.

Lemma keys_fold_set_order {V : Type} (l : list (string * V)) :
  forall d,
    keys (fold_left (fun m lb => dict_set (fst lb) (snd lb) m) l d)
    = fold_left
        (fun seen name =>
           if existsb (String.eqb name) seen then seen
           else (seen ++ [name])%list)
        (keys l) (keys d).
Proof.
  induction l as [|[k v] l IH]; intro d; [reflexivity|].
  cbn [fold_left fst snd]. rewrite IH, keys_dict_set, has_key_existsb.
  reflexivity.
Qed.

(** X22: [schemas_mapping] has one entry for each label of a branch, in
    the order the labels first come, and under a label the last branch
    that bears it.  When the labels of the branches differ, its entries
    are the branches with their labels in order, so that a position among
    the branches is the same position among the options; when two
    branches share a label there are fewer options than branches. *)
Theorem union_labels :
  forall (union_schemas : list Schema) (mapping : list (string * Schema)),
    schemas_mapping union_schemas = Ok mapping ->
    exists labels,
      Forall2 (fun schema label => branch_label schema = Ok label)
              union_schemas labels /\
      keys mapping = first_seen labels /\
      (forall label,
          assoc label mapping
          = assoc label (rev (combine labels union_schemas))) /\
      NoDup (keys mapping) /\
      (forall label, In label (keys mapping) <-> In label labels) /\
      (NoDup labels -> mapping = combine labels union_schemas) /\
      (~ NoDup labels -> length mapping < length union_schemas).
Proof.
  intros union_schemas mapping H.
  apply schemas_mapping_from_labels in H as [labels [Hall ->]].
  pose proof (Forall2_length Hall) as Hlen. symmetry in Hlen.
  pose proof (keys_combine labels union_schemas Hlen) as Hkeys.
  destruct (keys_fold_set (combine labels union_schemas) []
              (NoDup_nil _)) as [Hn Hk].
  exists labels. split; [exact Hall|].
  split; [|split; [|split; [exact Hn|split]]].
  - rewrite keys_fold_set_order, Hkeys. reflexivity.
  - intro label. rewrite assoc_fold_set.
    now destruct (assoc label (rev (combine labels union_schemas))).
  - intro label. rewrite Hk, Hkeys. simpl. tauto.
  - split.
    + intro Hnd. apply (fold_set_fresh (combine labels union_schemas) []).
      simpl. now rewrite Hkeys.
    + intro Hdup.
      set (m := fold_left (fun m lb => dict_set (fst lb) (snd lb) m)
                          (combine labels union_schemas) []) in *.
      assert (Hincl : incl (keys m) labels).
      { intros label Hin. apply Hk in Hin as [[]|Hin].
        now rewrite Hkeys in Hin. }
      pose proof (NoDup_incl_length Hn Hincl) as Hle.
      unfold keys in Hle. rewrite length_map in Hle.
      destruct (Nat.eq_dec (length m) (length labels)) as [Heq|Hne];
        [|lia].
      exfalso. apply Hdup.
      apply (NoDup_incl_NoDup (l := keys m)); [exact Hn | | exact Hincl].
      unfold keys. rewrite length_map. lia.
Qed.

Lemma union_labels_witness :
  exists labels,
    Forall2 (fun schema label => branch_label schema = Ok label)
            [typed STRING; email_string; typed STRING; titled_object]
            labels /\
    keys [("string", typed STRING);
          ("string (email)", email_string);
          ("my-object", titled_object)]
    = first_seen labels /\
    (forall label,
        assoc label [("string", typed STRING);
                     ("string (email)", email_string);
                     ("my-object", titled_object)]
        = assoc label
            (rev (combine labels
                    [typed STRING; email_string; typed STRING;
                     titled_object]))) /\
    NoDup (keys [("string", typed STRING);
                 ("string (email)", email_string);
                 ("my-object", titled_object)]) /\
    (forall label,
        In label (keys [("string", typed STRING);
                        ("string (email)", email_string);
                        ("my-object", titled_object)])
        <-> In label labels) /\
    (NoDup labels ->
     [("string", typed STRING); ("string (email)", email_string);
      ("my-object", titled_object)]
     = combine labels
         [typed STRING; email_string; typed STRING; titled_object]) /\
    (~ NoDup labels ->
     length [("string", typed STRING); ("string (email)", email_string);
             ("my-object", titled_object)]
     < length [typed STRING; email_string; typed STRING; titled_object]).
Proof.
  apply (union_labels
           [typed STRING; email_string; typed STRING; titled_object]).
  reflexivity.
Defined.

(* ================================================================== *)
(** ** Pre-selection and the options of a union *)
(* ================================================================== *)

Lemma fold_set_full {V : Type} (l : list (string * V)) :
  length (fold_left (fun m lb => dict_set (fst lb) (snd lb) m) l [])
  = length l ->
  NoDup (keys l).
Proof.
  intro Hlen.
  destruct (keys_fold_set l [] (NoDup_nil _)) as [Hn Hk].
  set (m := fold_left (fun m lb => dict_set (fst lb) (snd lb) m) l []) in *.
  apply (NoDup_incl_NoDup (l := keys m)); [exact Hn | |].
  - unfold keys. rewrite !length_map. lia.
  - intros k Hin. apply Hk in Hin as [[]|Hin]. exact Hin.
Qed.

Lemma set_default_at_nth (value : Value) (l : list Schema) :
  forall i x,
    nth_error l i = Some x ->
    nth_error (set_default_at i value l) i = Some (set_default value x).
Proof.
  induction l as [|s r IH]; intros [|i] x H; try discriminate H.
  - injection H as <-. reflexivity.
  - simpl. now apply IH.
Qed.

Lemma combine_nth {A B} (P : A -> B -> Prop) (l : list A) (labels : list B) :
  Forall2 P l labels ->
  forall i x,
    nth_error l i = Some x ->
    exists label, nth_error (combine labels l) i = Some (label, x) /\
                  P x label.
Proof.
  induction 1 as [|a b l labels Hab Hall IH]; intros [|i] x Hx;
    try discriminate Hx.
  - injection Hx as <-. exists b. now split.
  - simpl. now apply IH.
Qed.

Lemma union_preselect_index (validate : Value -> Schema -> Validation)
      (property_schema : Schema) (input_type : InputType)
      (branches' : list Schema) (i : nat) :
  union_preselect validate property_schema input_type
  = Ok (branches', Some i) ->
  exists x,
    nth_error (union_branches property_schema) i = Some x /\
    branches' = set_default_at i (default property_schema)
                               (union_branches property_schema).
Proof.
  unfold union_preselect. intro H.
  assert (Hn : exists p,
             next_index p (union_branches property_schema) 0 = Ok i /\
             branches' = set_default_at i (default property_schema)
                                        (union_branches property_schema)).
  { destruct (default property_schema) eqn:Hd; [discriminate H| | | | |];
      (destruct (InputType_eqb input_type DISCRIMINATED_UNION);
       [destruct (discriminator property_schema) as [dsc|]; [|discriminate H]|]);
      match type of H with
      | bind (next_index ?p ?l 0) _ = _ =>
          destruct (next_index p l 0) as [j|e] eqn:Hj; [|discriminate H];
          cbn [bind] in H; injection H as <- <-; exists p; now split
      end. }
  destruct Hn as (p & Hn & ->).
  apply next_index_first_match in Hn as (j & -> & x & Hx & _).
  exists x. now split.
Qed.

(** X24: when the labels of the branches differ, the index the
    pre-selection hands to the select box, which counts branches, is the
    position among the options of the branch that was given the value as
    its default. *)
Theorem preselected_option :
  forall (validate : Value -> Schema -> Validation)
         (property_schema : Schema)
         (input_type : InputType) (branches' : list Schema) (i : nat)
         (mapping : list (string * Schema)),
    union_preselect validate property_schema input_type
    = Ok (branches', Some i) ->
    schemas_mapping branches' = Ok mapping ->
    length mapping = length branches' ->
    exists label branch,
      nth_error mapping i = Some (label, branch) /\
      nth_error branches' i = Some branch /\
      branch_label branch = Ok label /\
      default branch = default property_schema.
Proof.
  intros validate s kind branches' i mapping Hsel Hmap Hlen.
  apply union_preselect_index in Hsel as (x & Hx & Hb).
  apply schemas_mapping_from_labels in Hmap as (labels & Hall & ->).
  pose proof (Forall2_length Hall) as Hl.
  assert (Hc : length (combine labels branches') = length branches')
    by (rewrite length_combine; lia).
  rewrite <- Hc in Hlen. apply fold_set_full in Hlen.
  rewrite (fold_set_fresh _ [] Hlen). cbn [app].
  pose proof (set_default_at_nth (default s) _ i x Hx) as Hnth.
  rewrite <- Hb in Hnth.
  destruct (combine_nth _ _ _ Hall i _ Hnth) as (label & Hopt & Hlabel).
  exists label, (set_default (default s) x).
  split; [exact Hopt|]. split; [exact Hnth|]. split; [exact Hlabel|].
  now destruct x.
Qed.

Lemma preselected_option_witness :
  exists label branch,
    nth_error [("string", typed STRING);
               ("integer", set_default (VInt 5) (typed INTEGER))] 1
    = Some (label, branch) /\
    nth_error [typed STRING; set_default (VInt 5) (typed INTEGER)] 1
    = Some branch /\
    branch_label branch = Ok label /\
    default branch = default string_or_integer.
Proof.
  apply (preselected_option type_validation string_or_integer UNION
           [typed STRING; set_default (VInt 5) (typed INTEGER)] 1
           [("string", typed STRING);
            ("integer", set_default (VInt 5) (typed INTEGER))]);
    reflexivity.
Defined.

(* ================================================================== *)
(** ** Failure of the pre-selection, and pre-selection in full *)
(* ================================================================== *)

Lemma is_assignable_outcome (validate : Value -> Schema -> Validation)
      (value : Value) (schema : Schema) :
  (is_assignable validate value schema = Ok true
   <-> validate value schema = Valid) /\
  (is_assignable validate value schema = Ok false
   <-> validate value schema = Invalid) /\
  (forall e, is_assignable validate value schema = Err e
             <-> validate value schema = Raises e).
Proof.
  unfold is_assignable.
  destruct (validate value schema) as [| |e0]; repeat split;
    try discriminate; try reflexivity; intro H; injection H as <-;
    reflexivity.
Qed.

(** [next(...)] without a default fails when the generator is exhausted,
    with [StopIteration], or when the test of an element raises before
    any element has passed. *)
Lemma next_index_error {A} (p : A -> result bool) (l : list A) :
  forall i0 e,
    next_index p l i0 = Err e <->
    (e = StopIteration /\ forall x, In x l -> p x = Ok false) \/
    (exists i x,
        nth_error l i = Some x /\ p x = Err e /\
        forall j y, j < i -> nth_error l j = Some y -> p y = Ok false).
Proof.
  induction l as [|a r IH]; intros i0 e; simpl.
  - split.
    + intro H. injection H as <-. left. split; [reflexivity | contradiction].
    + intros [[-> _] | (i & x & Hx & _)]; [reflexivity|].
      destruct i; discriminate Hx.
  - destruct (p a) as [[|]|e0] eqn:Hpa.
    + split; [discriminate|].
      intros [[_ H] | (i & x & Hx & Hpx & Hbefore)].
      * rewrite (H a (or_introl eq_refl)) in Hpa. discriminate Hpa.
      * destruct i as [|i].
        -- injection Hx as <-. rewrite Hpa in Hpx. discriminate Hpx.
        -- rewrite (Hbefore 0 a (Nat.lt_0_succ i) eq_refl) in Hpa.
           discriminate Hpa.
    + rewrite IH. split.
      * intros [[He H] | (i & x & Hx & Hpx & Hbefore)].
        -- left. split; [exact He|].
           intros x [<-|Hin]; [exact Hpa | now apply H].
        -- right. exists (S i), x. split; [exact Hx|]. split; [exact Hpx|].
           intros [|j] y Hj Hy.
           ++ injection Hy as <-. exact Hpa.
           ++ apply (Hbefore j y); [lia | exact Hy].
      * intros [[He H] | (i & x & Hx & Hpx & Hbefore)].
        -- left. split; [exact He|]. intros x Hin. apply H. now right.
        -- destruct i as [|i].
           ++ injection Hx as <-. rewrite Hpa in Hpx. discriminate Hpx.
           ++ right. exists i, x. split; [exact Hx|]. split; [exact Hpx|].
              intros j y Hj Hy. apply (Hbefore (S j) y); [lia | exact Hy].
    + split.
      * intro H. injection H as <-. right. exists 0, a.
        split; [reflexivity|]. split; [exact Hpa|]. intros j y Hj. lia.
      * intros [[_ H] | (i & x & Hx & Hpx & Hbefore)].
        -- rewrite (H a (or_introl eq_refl)) in Hpa. discriminate Hpa.
        -- destruct i as [|i].
           ++ injection Hx as <-. rewrite Hpa in Hpx. now injection Hpx as ->.
           ++ rewrite (Hbefore 0 a (Nat.lt_0_succ i) eq_refl) in Hpa.
              discriminate Hpa.
Qed.

Lemma union_preselect_plain (validate : Value -> Schema -> Validation)
      (property_schema : Schema) :
  default property_schema <> VNone ->
  union_preselect validate property_schema UNION
  = bind
      (next_index
         (fun schema =>
            is_assignable validate (default property_schema) schema)
         (union_branches property_schema) 0)
      (fun selected_index =>
         Ok (set_default_at selected_index (default property_schema)
                            (union_branches property_schema),
             Some selected_index)).
Proof.
  intro Hv. now rewrite (union_preselect_value validate property_schema _ Hv).
Qed.

(** X23: the pre-selection of a plain union fails in two ways and no
    other, and only with a default at hand: no branch is assignable to the
    default, every validation ending in a validation error, and [next]
    raises [StopIteration]; or the validation of a branch raises something
    else, every branch before it having been refused, and that is what
    comes out.  It never falls back to an unselected box. *)
Theorem union_preselect_failure :
  forall (validate : Value -> Schema -> Validation)
         (property_schema : Schema) (e : PyErr),
    union_preselect validate property_schema UNION = Err e <->
    default property_schema <> VNone /\
    ((e = StopIteration /\
      forall branch,
        In branch (union_branches property_schema) ->
        validate (default property_schema) branch = Invalid) \/
     (exists i branch,
         nth_error (union_branches property_schema) i = Some branch /\
         validate (default property_schema) branch = Raises e /\
         forall j y,
           j < i ->
           nth_error (union_branches property_schema) j = Some y ->
           validate (default property_schema) y = Invalid)).
Proof.
  intros validate s e.
  assert (Hout := is_assignable_outcome validate (default s)).
  destruct (default s) eqn:Hd.
  { unfold union_preselect. rewrite Hd. split; [discriminate|].
    intros [H _]. contradiction. }
  all: rewrite <- Hd in *;
    assert (Hv : default s <> VNone) by (rewrite Hd; discriminate);
    rewrite (union_preselect_plain validate s Hv);
    pose proof (next_index_error
                  (fun schema => is_assignable validate (default s) schema)
                  (union_branches s) 0 e) as Hn;
    destruct (next_index
                (fun schema => is_assignable validate (default s) schema)
                (union_branches s) 0) as [i|e'];
    cbn [bind];
    [ split;
      [ discriminate
      | intros [_ H]; destruct Hn as [_ Hn];
        assert (Hfalse : @Err nat e = Err e) by reflexivity;
        enough (Hx : @Ok nat i = Err e) by discriminate Hx;
        apply Hn;
        destruct H as [[He Hall] | (j & x & Hx & Hr & Hbefore)];
        [ left; split; [exact He|]; intros x Hin;
          apply (proj1 (proj2 (Hout x))); now apply Hall
        | right; exists j, x; split; [exact Hx|]; split;
          [ now apply (proj2 (proj2 (Hout x)))
          | intros k y Hk Hy; apply (proj1 (proj2 (Hout y)));
            now apply (Hbefore k y) ] ] ]
    | split;
      [ intro H; injection H as ->; split; [exact Hv|];
        destruct (proj1 Hn eq_refl)
          as [[He Hall] | (j & x & Hx & Hr & Hbefore)];
        [ left; split; [exact He|]; intros x Hin;
          apply (proj1 (proj2 (Hout x))); now apply Hall
        | right; exists j, x; split; [exact Hx|]; split;
          [ now apply (proj2 (proj2 (Hout x)))
          | intros k y Hk Hy; apply (proj1 (proj2 (Hout y)));
            now apply (Hbefore k y) ] ]
      | intros [_ H];
        assert (Hx : @Err nat e' = Err e);
        [ apply Hn;
          destruct H as [[He Hall] | (j & x & Hx & Hr & Hbefore)];
          [ left; split; [exact He|]; intros x Hin;
            apply (proj1 (proj2 (Hout x))); now apply Hall
          | right; exists j, x; split; [exact Hx|]; split;
            [ now apply (proj2 (proj2 (Hout x)))
            | intros k y Hk Hy; apply (proj1 (proj2 (Hout y)));
              now apply (Hbefore k y) ] ]
        | injection Hx as ->; reflexivity ] ] ].
Qed.

Lemma union_preselect_failure_witness :
  union_preselect type_validation
    (set_default (VBool true) string_or_integer) UNION
  = Err StopIteration /\
  union_preselect checked_validation broken_or_integer UNION
  = Err (SchemaError "required has non-unique elements").
Proof.
  split.
  - apply (union_preselect_failure type_validation
             (set_default (VBool true) string_or_integer) StopIteration).
    split; [discriminate|]. left. split; [reflexivity|].
    intros branch [<-|[<-|[]]]; reflexivity.
  - apply (union_preselect_failure checked_validation broken_or_integer
             (SchemaError "required has non-unique elements")).
    split; [discriminate|]. right.
    exists 0, (set_required (Some ["a"; "a"]) (typed OBJECT)).
    split; [reflexivity|]. split; [reflexivity|]. intros j y Hj. lia.
Defined.

(** C7 fails as stated, twice over.  A stored value pre-selects nothing:
    with [5] in the state under the property's key and no default in the
    schema, the union input sets no index.  And the index counts
    branches while the select box lists their labels once each: for two
    untitled object branches the box has one option and the index is
    [1]. *)
Lemma C7_stored_value_is_not_consulted :
  (Streamlit._get_value "port" port_is_five = (Ok (VInt 5), port_is_five) /\
   _render_union_input_preselect type_validation "port"
     string_or_integer_plain UNION port_is_five
   = (Ok ([typed STRING; typed INTEGER], None), port_is_five)) /\
  (union_preselect type_validation cat_or_dog DISCRIMINATED_UNION
   = Ok ([pet_branch "cat";
          set_default (VDict [("kind", VStr "dog")]) (pet_branch "dog")],
         Some 1) /\
   schemas_mapping
     [pet_branch "cat";
      set_default (VDict [("kind", VStr "dog")]) (pet_branch "dog")]
   = Ok [("object",
          set_default (VDict [("kind", VStr "dog")]) (pet_branch "dog"))]).
Proof.
  split; split; reflexivity.
Qed.

(** C7 (amended): the value is the schema's default, whatever the state
    holds.  With a default at hand, a discriminated union pre-selects the
    first branch whose discriminator property's [const] equals the value's
    discriminator entry, and a plain union the first branch the value
    validates against, the validation of every branch before it having
    ended in a validation error; the branch is given the value as its
    default, and the index, which counts branches, is the position of that
    branch among the options of the select box when the labels of the
    branches differ.  A validator that refuses [5] as a string and accepts
    it as an integer makes [anyOf: [string, integer]] with default [5]
    pre-select the integer branch. *)
Theorem C7_union_preselection :
  forall (validate : Value -> Schema -> Validation)
         (property_schema : Schema),
    default property_schema <> VNone ->
    let value := default property_schema in
    let branches := union_branches property_schema in
    (forall property_key input_type state,
        _render_union_input_preselect validate property_key property_schema
                                      input_type state
        = (union_preselect validate property_schema input_type, state)) /\
    (forall i branches',
        union_preselect validate property_schema DISCRIMINATED_UNION
        = Ok (branches', Some i) <->
        exists d,
          discriminator property_schema = Some d /\
          first_match (discriminator_matches (propertyName d) value)
                      branches i /\
          branches' = set_default_at i value branches) /\
    (forall name branch,
        discriminator_matches name value branch = Ok true <->
        exists props p x,
          properties branch = Some props /\
          assoc name props = Some p /\
          py_getitem value name = Ok x /\
          py_eq (const p) x = true) /\
    (forall i branches',
        union_preselect validate property_schema UNION
        = Ok (branches', Some i) <->
        (exists branch,
            nth_error branches i = Some branch /\
            validate value branch = Valid /\
            forall j y, j < i -> nth_error branches j = Some y ->
                        validate value y = Invalid) /\
        branches' = set_default_at i value branches) /\
    (forall input_type i branches' mapping,
        union_preselect validate property_schema input_type
        = Ok (branches', Some i) ->
        schemas_mapping branches' = Ok mapping ->
        length mapping = length branches' ->
        exists label branch,
          nth_error mapping i = Some (label, branch) /\
          nth_error branches' i = Some branch /\
          branch_label branch = Ok label /\
          default branch = value) /\
    (validate (VInt 5) (typed STRING) = Invalid ->
     validate (VInt 5) (typed INTEGER) = Valid ->
     union_preselect validate string_or_integer UNION
     = Ok ([typed STRING; set_default (VInt 5) (typed INTEGER)], Some 1)).
Proof.
  intros validate property_schema Hv value branches.
  split; [reflexivity|]. split; [|split; [|split; [|split]]].
  - intros i branches'.
    rewrite (union_preselect_value validate property_schema _ Hv).
    change (InputType_eqb DISCRIMINATED_UNION DISCRIMINATED_UNION) with true.
    cbv iota. fold value branches.
    destruct (discriminator property_schema) as [d|].
    + destruct (next_index _ branches 0) as [k|e] eqn:Hn; simpl.
      * apply next_index_first_match in Hn as (j & Hj & Hfirst).
        simpl in Hj. subst k. split.
        -- intro H. injection H as <- <-. now exists d.
        -- intros (d' & Hd & (x & Hx & Hpx & Hbefore) & ->).
           injection Hd as <-.
           destruct Hfirst as (x' & Hx' & Hpx' & Hbefore').
           destruct (Nat.lt_trichotomy i j) as [Hlt | [-> | Hgt]];
             [|reflexivity|].
           ++ rewrite (Hbefore' i x Hlt Hx) in Hpx. discriminate Hpx.
           ++ rewrite (Hbefore j x' Hgt Hx') in Hpx'. discriminate Hpx'.
      * split; [discriminate|].
        intros (d' & Hd & Hfirst & _). injection Hd as <-.
        assert (Hok : next_index
                        (discriminator_matches (propertyName d) value)
                        branches 0 = Ok i)
          by (apply next_index_first_match; now exists i).
        rewrite Hn in Hok. discriminate Hok.
    + simpl. split; [discriminate|]. intros (d & Hd & _). discriminate Hd.
  - intros name branch. apply discriminator_matches_true.
  - intros i branches'.
    rewrite (union_preselect_plain validate property_schema Hv).
    fold value branches.
    assert (Hout := is_assignable_outcome validate value).
    assert (Hiff :
              first_match (fun schema => is_assignable validate value schema)
                          branches i
              <-> exists branch,
                    nth_error branches i = Some branch /\
                    validate value branch = Valid /\
                    forall j y, j < i -> nth_error branches j = Some y ->
                                validate value y = Invalid).
    { split; intros (x & Hx & Hpx & Hbefore); exists x;
        (split; [exact Hx|]); split.
      - now apply (proj1 (Hout x)).
      - intros j y Hj Hy. apply (proj1 (proj2 (Hout y))).
        now apply (Hbefore j y).
      - now apply (proj1 (Hout x)).
      - intros j y Hj Hy. apply (proj1 (proj2 (Hout y))).
        now apply (Hbefore j y). }
    rewrite <- Hiff.
    destruct (next_index _ branches 0) as [k|e] eqn:Hn; simpl.
    + apply next_index_first_match in Hn as (j & Hj & Hfirst).
      simpl in Hj. subst k. split.
      * intro H. injection H as <- <-. now split.
      * intros [(x & Hx & Hpx & Hbefore) ->].
        destruct Hfirst as (x' & Hx' & Hpx' & Hbefore').
        destruct (Nat.lt_trichotomy i j) as [Hlt | [-> | Hgt]];
          [|reflexivity|].
        -- rewrite (Hbefore' i x Hlt Hx) in Hpx. discriminate Hpx.
        -- rewrite (Hbefore j x' Hgt Hx') in Hpx'. discriminate Hpx'.
    + split; [discriminate|]. intros [Hfirst _].
      assert (Hok : next_index
                      (fun schema => is_assignable validate value schema)
                      branches 0 = Ok i)
        by (apply next_index_first_match; now exists i).
      rewrite Hn in Hok. discriminate Hok.
  - subst value branches. intros kind i branches' mapping Hsel Hmap Hlen.
    apply union_preselect_index in Hsel as (x & Hx & Hb).
    apply schemas_mapping_from_labels in Hmap as (labels & Hall & ->).
    pose proof (Forall2_length Hall) as Hl.
    assert (Hc : length (combine labels branches') = length branches')
      by (rewrite length_combine; lia).
    rewrite <- Hc in Hlen. apply fold_set_full in Hlen.
    rewrite (fold_set_fresh _ [] Hlen). cbn [app].
    pose proof (set_default_at_nth (default property_schema) _ i x Hx)
      as Hnth.
    rewrite <- Hb in Hnth.
    destruct (combine_nth _ _ _ Hall i _ Hnth) as (label & Hopt & Hlabel).
    exists label, (set_default (default property_schema) x).
    split; [exact Hopt|]. split; [exact Hnth|]. split; [exact Hlabel|].
    now destruct x.
  - intros Hs Hi. unfold union_preselect, is_assignable. simpl.
    now rewrite Hs, Hi.
Qed.

Lemma C7_union_preselection_witness :
  union_preselect type_validation cat_or_dog DISCRIMINATED_UNION
  = Ok ([pet_branch "cat";
         set_default (VDict [("kind", VStr "dog")]) (pet_branch "dog")],
        Some 1) /\
  union_preselect type_validation string_or_integer UNION
  = Ok ([typed STRING; set_default (VInt 5) (typed INTEGER)], Some 1) /\
  (exists label branch,
      nth_error [("string", typed STRING);
                 ("integer", set_default (VInt 5) (typed INTEGER))] 1
      = Some (label, branch) /\
      nth_error [typed STRING; set_default (VInt 5) (typed INTEGER)] 1
      = Some branch /\
      branch_label branch = Ok label /\
      default branch = VInt 5).
Proof.
  assert (Hpet : default cat_or_dog <> VNone) by discriminate.
  assert (Hint : default string_or_integer <> VNone) by discriminate.
  destruct (C7_union_preselection type_validation cat_or_dog Hpet)
    as (_ & Hdisc & _).
  destruct (C7_union_preselection type_validation string_or_integer Hint)
    as (_ & _ & _ & _ & Hbox & Hfive).
  split; [|split].
  - apply Hdisc. exists (mkDiscriminator "kind" None).
    split; [reflexivity|]. split; [|reflexivity].
    exists (pet_branch "dog"). repeat split.
    intros [|[|j]] y Hj Hy; [|lia|lia]. injection Hy as <-. reflexivity.
  - apply Hfive; reflexivity.
  - apply (Hbox UNION 1 [typed STRING; set_default (VInt 5) (typed INTEGER)]);
      reflexivity.
Defined.
